(** * Auto Maple: routine components, cooldown tracker, rune solver, notifier

    A shallow embedding of the parts of the bot that its specification
    talks about:

    - [src/routine/cooldown_tracker.py]  (module [Cooldown])
    - [src/routine/components.py]        (modules [Py], [Components], [Rotation],
                                          [Skills], [Visits], [Keys])
    - [src/modules/bot.py]               (modules [Bot], [BotRounds], [FailedImages])
    - [src/modules/notifier.py]          (module [Notifier])
    - [src/common/utils.py]              (modules [Text], [Utils])
    - [src/detection/detection.py]       (module [Detection])

    Python [int] is [Z].  A Python [float] is the rational it stands for
    ([Q]); clock readings and cooldowns are only subtracted and compared.
    Where the code adds, multiplies or divides floats the result is rounded
    as IEEE 754 binary64 rounds it (module [Float]).  A Python exception is
    a value of [exn] carried by [result].  Calls into the
    outside world (key presses, sounds, prints, process kills) are recorded
    as events of a log. *)

From Stdlib Require Import ZArith QArith Qminmax Lqa String Ascii List Bool Lia.
From Stdlib Require Import DecimalString DecimalPos Qround Qpower Qabs.
From stdpp Require Import base gmap strings list.
Import ListNotations.
Open Scope string_scope.
Open Scope list_scope.

(** ** Python prelude *)

Module Py.

Inductive exn : Type :=
| TypeError
| ValueError
| KeyError
| AttributeError
| ZeroDivisionError
| AssertionError
| OverflowError.

Inductive result (A : Type) : Type :=
| Ok (a : A)
| Raise (e : exn).

Arguments Ok {A} a.
Arguments Raise {A} e.

Definition bind {A B : Type} (r : result A) (k : A -> result B) : result B :=
  match r with
  | Ok a => k a
  | Raise e => Raise e
  end.

Definition is_ok {A : Type} (r : result A) : bool :=
  match r with Ok _ => true | Raise _ => false end.

(** [a % b] on Python integers: floor remainder, [ZeroDivisionError] when
    the divisor is zero. *)
Definition py_mod (a b : Z) : result Z :=
  if (b =? 0)%Z then Raise ZeroDivisionError else Ok (a mod b)%Z.

End Py.

Export Py.

#[global] Instance result_ret : MRet result := @Ok.
#[global] Instance result_bind : MBind result :=
  fun A B k r => Py.bind r k.

(** ** Python floats: IEEE 754 binary64 *)

Module Float.

(** A float is a rational that binary64 represents, an infinity or NaN.
    The sign of a zero is not kept: the code never observes it. *)
Inductive float : Type :=
| Finite (q : Q)
| Infinite (negative : bool)
| NaN.

Definition pow2 (e : Z) : Q := (2 ^ e)%Q.

(** The exponent of the smallest positive float, [2 ^ -1074]; the floats
    are below [2 ^ 1024]. *)
Definition emin : Z := -1074.
Definition emax : Z := 1024.

(** [floor (log2 q)] for a positive [q]. *)
Definition ilog2 (q : Q) : Z :=
  let e := (Z.log2 (Qnum q) - Z.log2 (Zpos (Qden q)))%Z in
  if Qle_bool (pow2 e) q then e else (e - 1)%Z.

(** The nearest integer, a tie going to the even one. *)
Definition nearest_even (q : Q) : Z :=
  let f := Qfloor q in
  let d := (q - inject_Z f)%Q in
  if Qle_bool d (1 # 2)
  then (if Qle_bool (1 # 2) d then (if Z.even f then f else f + 1)%Z else f)
  else (f + 1)%Z.

(** The exponent of the last place of the floats around a positive [q]:
    53 significant bits, and never below [emin]. *)
Definition last_place (q : Q) : Z := Z.max (ilog2 q - 52) emin.

Definition round_positive (q : Q) : Q :=
  (inject_Z (nearest_even (q / pow2 (last_place q))) * pow2 (last_place q))%Q.

(** Rounding to nearest, ties to even, before the test for overflow. *)
Definition fl (q : Q) : Q :=
  match Qnum q with
  | Z0 => 0
  | Zpos _ => round_positive q
  | Zneg _ => - round_positive (- q)
  end.

Definition negative (q : Q) : bool := (Qnum q <? 0)%Z.

(** The float that an operation returns when its exact result is [q]. *)
Definition round (q : Q) : float :=
  let r := fl q in
  if Qle_bool (pow2 emax) (Qabs r) then Infinite (negative r) else Finite r.


(** The float a decimal literal denotes. *)
Definition lit (q : Q) : Q := fl q.

Definition fneg (a : float) : float :=
  match a with
  | Finite q => Finite (- q)
  | Infinite s => Infinite (negb s)
  | NaN => NaN
  end.

(** [a + b] *)
Definition fadd (a b : float) : float :=
  match a, b with
  | NaN, _ | _, NaN => NaN
  | Infinite s, Infinite s' => if Bool.eqb s s' then Infinite s else NaN
  | Infinite s, Finite _ | Finite _, Infinite s => Infinite s
  | Finite x, Finite y => round (x + y)
  end.

(** [a - b] *)
Definition fsub (a b : float) : float := fadd a (fneg b).

(** [a * b] *)
Definition fmul (a b : float) : float :=
  match a, b with
  | NaN, _ | _, NaN => NaN
  | Infinite s, Infinite s' => Infinite (xorb s s')
  | Infinite s, Finite y | Finite y, Infinite s =>
      if Qeq_bool y 0 then NaN else Infinite (xorb s (negative y))
  | Finite x, Finite y => round (x * y)
  end.

End Float.

(** ** src/routine/cooldown_tracker.py *)

Module Cooldown.

(** [cooldowns] is iterated in insertion order, so it is an association
    list (keys pairwise distinct, as in any dict); [last_used] is only
    indexed and assigned, so it is a finite map. *)
Record CooldownTracker : Type := mkTracker {
  cooldowns : list (string * Q);
  last_used : gmap string Q
}.

(** [self.last_used = {k: 0.0 for k in self.cooldowns}] *)
Definition zero_last_used (cds : list (string * Q)) : gmap string Q :=
  foldl (fun m kv => <[fst kv := 0%Q]> m) ∅ cds.

(** [CooldownTracker.__init__] *)
Definition init (cds : list (string * Q)) : CooldownTracker :=
  {| cooldowns := cds; last_used := zero_last_used cds |}.

(** [CooldownTracker.record_used]; [now] is the reading of [time.time()]. *)
Definition record_used (key : string) (now : Q) (tr : CooldownTracker)
  : CooldownTracker :=
  {| cooldowns := cooldowns tr; last_used := <[key := now]> (last_used tr) |}.

(** The [for key, cd in self.cooldowns.items()] loop of [get_available].
    [self.last_used[key]] is only evaluated when [cd <= 0] is false, and
    raises [KeyError] on a missing key. *)
Fixpoint get_available_loop (items : list (string * Q)) (lu : gmap string Q)
  (now : Q) (out : list string) : result (list string) :=
  match items with
  | [] => Ok out
  | (key, cd) :: rest =>
      if Qle_bool cd 0 then get_available_loop rest lu now (out ++ [key])
      else
        match lu !! key with
        | None => Raise KeyError
        | Some t =>
            if Qle_bool cd (now - t)
            then get_available_loop rest lu now (out ++ [key])
            else get_available_loop rest lu now out
        end
  end.

(** [CooldownTracker.get_available] *)
Definition get_available (now : Q) (tr : CooldownTracker) : result (list string) :=
  get_available_loop (cooldowns tr) (last_used tr) now [].

(** A tracker after a history of [record_used] calls, oldest first. *)
Definition run (cds : list (string * Q)) (uses : list (string * Q))
  : CooldownTracker :=
  foldl (fun tr u => record_used (fst u) (snd u) tr) (init cds) uses.

(** [k] is reported available at clock reading [now]. *)
Definition available (now : Q) (tr : CooldownTracker) (k : string) : Prop :=
  exists out, get_available now tr = Ok out /\ k ∈ out.

(** The test the loop applies to one entry. *)
Definition off_cooldown (lu : gmap string Q) (now : Q) (kv : string * Q) : bool :=
  Qle_bool (snd kv) 0
  || match lu !! fst kv with
     | Some t => Qle_bool (snd kv) (now - t)
     | None => false
     end.

(** Every key of the table has a [last_used] entry. *)
Definition covered (items : list (string * Q)) (lu : gmap string Q) : Prop :=
  forall kv, kv ∈ items -> is_Some (lu !! fst kv).

End Cooldown.

(** ** Python values, dicts and calls, as components.py uses them *)

Module PyData.

(** The values a routine file or the editor can pass to a constructor.
    [VOther] stands for any object whose type is not one of
    [Component.PRIMITIVES] (a tuple, a list, [self], a class). *)
Inductive pyval : Type :=
| VInt (z : Z)
| VFloat (q : Q)
| VBool (b : bool)
| VStr (s : string)
| VNone
| VOther (tag : nat).

(** A dict in insertion order (also the [**kwargs] of a call). *)
Definition dict : Type := list (string * pyval).

(** What Python's built-ins do on floats and opaque objects; their
    algorithms (shortest float repr, float parsing) are not part of the
    program. *)
Class Builtins : Type := {
  str_float : Q -> string;
  parse_float : string -> option Q;
  str_other : nat -> string
}.

(** [type(v) in Component.PRIMITIVES], with PRIMITIVES = {int, str, bool, float}. *)
Definition is_primitive (v : pyval) : bool :=
  match v with
  | VInt _ | VFloat _ | VBool _ | VStr _ => true
  | VNone | VOther _ => false
  end.

(** [str(z)] for an [int]. *)
Definition str_int (z : Z) : string := NilZero.string_of_int (Z.to_int z).

(** [str(v)], which is also what an f-string field prints. *)
Definition py_str `{Builtins} (v : pyval) : string :=
  match v with
  | VInt z => str_int z
  | VFloat q => str_float q
  | VBool true => "True"
  | VBool false => "False"
  | VStr s => s
  | VNone => "None"
  | VOther t => str_other t
  end.

(** [float(v)]. *)
Definition py_float `{Builtins} (v : pyval) : result Q :=
  match v with
  | VInt z => Ok (inject_Z z)
  | VFloat q => Ok q
  | VBool true => Ok 1%Q
  | VBool false => Ok 0%Q
  | VStr s => match parse_float s with Some q => Ok q | None => Raise ValueError end
  | VNone | VOther _ => Raise TypeError
  end.

Definition dict_get (k : string) (d : dict) : option pyval :=
  snd <$> List.find (fun kv => String.eqb (fst kv) k) d.

Definition dict_has (k : string) (d : dict) : bool :=
  match dict_get k d with Some _ => true | None => false end.

(** [d.pop(k)]: [KeyError] when the key is absent. *)
Definition dict_pop (k : string) (d : dict) : result dict :=
  if dict_has k d
  then Ok (List.filter (fun kv => negb (String.eqb (fst kv) k)) d)
  else Raise KeyError.

(** [sep.join(parts)]. *)
Fixpoint join (sep : string) (parts : list string) : string :=
  match parts with
  | [] => ""
  | [p] => p
  | p :: rest => p +:+ sep +:+ join sep rest
  end.

(** Binding the arguments of a call to a parameter list (name, default),
    positional arguments first; the result is the callee's [locals()] in
    parameter order.  Any mismatch is Python's [TypeError]. *)
Fixpoint bind_params (params : list (string * option pyval))
  (args : list pyval) (kwargs : dict) : result dict :=
  match params with
  | [] => match args with [] => Ok [] | _ :: _ => Raise TypeError end
  | (name, default) :: params' =>
      match args with
      | a :: args' =>
          if dict_has name kwargs then Raise TypeError
          else rest ← bind_params params' args' kwargs; Ok ((name, a) :: rest)
      | [] =>
          match dict_get name kwargs, default with
          | Some v, _ => rest ← bind_params params' [] kwargs; Ok ((name, v) :: rest)
          | None, Some v => rest ← bind_params params' [] kwargs; Ok ((name, v) :: rest)
          | None, None => Raise TypeError
          end
      end
  end.

(** A call with positional and keyword arguments: unknown keywords are
    refused. *)
Definition call_args (params : list (string * option pyval))
  (args : list pyval) (kwargs : dict) : result dict :=
  if forallb (fun kv => existsb (fun p => String.eqb (fst p) (fst kv)) params) kwargs
  then bind_params params args kwargs
  else Raise TypeError.

(** [locals()] at the top of an [__init__] that calls [super()]: [self],
    the parameters, and the [__class__] cell. *)
Definition locals (bound : dict) : dict :=
  ("self", VOther 0) :: bound ++ [("__class__", VOther 1)].

(** A stateful computation over a store [S] that may raise: the store
    keeps the writes made before the exception. *)
Definition M (S A : Type) : Type := S -> S * result A.

Definition m_ret {S A : Type} (a : A) : M S A := fun s => (s, Ok a).

Definition m_bind {S A B : Type} (m : M S A) (k : A -> M S B) : M S B :=
  fun s => match m s with
           | (s', Ok a) => k a s'
           | (s', Raise e) => (s', Raise e)
           end.

(** A pure step that may raise. *)
Definition m_lift {S A : Type} (r : result A) : M S A := fun s => (s, r).

(** An attribute assignment. *)
Definition m_set {S : Type} (f : S -> S) : M S unit := fun s => (f s, Ok tt).

Definition m_get {S : Type} : M S S := fun s => (s, Ok s).

End PyData.

Export PyData.

#[global] Instance M_ret (S : Type) : MRet (M S) := fun A => m_ret.
#[global] Instance M_bind (S : Type) : MBind (M S) := fun A B k m => m_bind m k.
(** ** src/routine/components.py: the routine elements *)

Module Components.

(** The module [src.common.settings] is imported by components.py but is
    not among the sources: its validators are parameters of the model. *)
Class SettingsModule : Type := {
  validate_nonnegative_int : pyval -> result Z;
  validate_boolean : pyval -> result bool;
  SETTING_VALIDATORS : string -> option (pyval -> result pyval)
}.

(** A store that carries the global flag [config.enabled]. *)
Class Config (S : Type) : Type := {
  config_enabled : S -> bool
}.

(** Modelled from the spec: [run_if_enabled] lives in
    src/common/decorators.py, which is not among the sources.  The spec
    says of the calls it guards: "gated by the global enabled flag (if
    disabled, neither the action nor the counter increment occurs)". *)
Definition run_if_enabled {S : Type} `{Config S} (f : M S unit) : M S unit :=
  fun s => if config_enabled s then f s else (s, Ok tt).

Definition nl : string := String (ascii_of_nat 10) EmptyString.

(** [Component.__init__( *args, **kwargs)]; the result is [self.kwargs]. *)
Definition Component__init__ (args : list (dict + pyval)) (kwargs : dict)
  : result dict :=
  if (1 <? length args)%nat then Raise TypeError
  else if negb (length kwargs =? 0)%nat then Raise TypeError
  else
    match args with
    | [] => Ok []
    | inr _ :: _ => Raise TypeError
    | inl d :: _ =>
        d1 ← dict_pop "__class__" d;
        dict_pop "self" d1
    end.

(** The [for] loop of [Component.encode]: [arr] grows by one [key=value]
    per primitive entry whose key is not ['id']. *)
Definition encode_loop `{Builtins} (kwargs : dict) (arr : list string) : list string :=
  foldl (fun arr kv =>
           if negb (String.eqb (fst kv) "id") && is_primitive (snd kv)
           then arr ++ [fst kv +:+ "=" +:+ py_str (snd kv)]
           else arr)
        arr kwargs.

(** [Component.encode] for a component with symbol [id]. *)
Definition Component_encode `{Builtins} (id : string) (kwargs : dict) : string :=
  join ", " (encode_loop kwargs [id]).

(** An entry [encode] keeps: its key is not ['id'] and its value has a
    primitive type. *)
Definition encoded (kv : string * pyval) : bool :=
  negb (String.eqb (fst kv) "id") && is_primitive (snd kv).

(** The text of one kept entry. *)
Definition item `{Builtins} (kv : string * pyval) : string :=
  fst kv +:+ "=" +:+ py_str (snd kv).

(** *** Label *)

Module Label.

(** [links] holds the identities of the Jump objects bound to the label. *)
Record t : Type := mk {
  kwargs : dict;
  label : string;
  links : gset positive;
  index : option Z
}.

Definition id : string := "@".

Definition params : list (string * option pyval) := [("label", None)].

(** A fresh object, before [__init__] has assigned anything. *)
Definition blank : t := {| kwargs := []; label := ""; links := ∅; index := None |}.

Definition set_kwargs (v : dict) (s : t) : t :=
  {| kwargs := v; label := label s; links := links s; index := index s |}.
Definition set_label (v : string) (s : t) : t :=
  {| kwargs := kwargs s; label := v; links := links s; index := index s |}.
Definition set_links (v : gset positive) (s : t) : t :=
  {| kwargs := kwargs s; label := label s; links := v; index := index s |}.
Definition set_index (v : option Z) (s : t) : t :=
  {| kwargs := kwargs s; label := label s; links := links s; index := v |}.

(** [Label.__init__(self, label)]; [taken] tells whether a name is a key of
    [config.routine.labels]. *)
Definition __init__ `{Builtins} (taken : string -> bool) (label : pyval) : M t unit :=
  kw ← m_lift (Component__init__ [inl (locals [("label", label)])] []);
  m_set (set_kwargs kw);;
  m_set (set_label (py_str label));;
  self ← m_get;
  (if taken (Label.label self) then m_lift (Raise ValueError) else m_ret tt);;
  m_set (set_links ∅);;
  m_set (set_index None).

(** The call [Label( *args, **kwargs)] on the object [self]. *)
Definition call `{Builtins} (taken : string -> bool) (args : list pyval) (kwargs : dict)
  : M t unit :=
  bound ← m_lift (call_args params args kwargs);
  match bound with
  | [(_, label)] => __init__ taken label
  | _ => m_lift (Raise TypeError)
  end.

(** [Label.encode] *)
Definition encode `{Builtins} (self : t) : string :=
  nl +:+ Component_encode id (kwargs self).

End Label.

(** *** The world the elements act on *)

(** A command of the command book, or of a Point's [commands] list. *)
Inductive command : Type :=
| CmdMove (x y : Q)
| CmdAdjust (x y : Q)
| CmdSkillRotation (duration : pyval)
| CmdUser (id : string) (kwargs : dict).

Record World : Type := mkWorld {
  enabled : bool;                      (* config.enabled *)
  routine_index : option Z;            (* config.routine.index *)
  routine_labels : gmap string Label.t;(* config.routine.labels *)
  settings : gmap string pyval;        (* the attributes of module settings *)
  stdout : list string                 (* what print has written *)
}.

Definition set_enabled (v : bool) (w : World) : World :=
  {| enabled := v; routine_index := routine_index w;
     routine_labels := routine_labels w; settings := settings w;
     stdout := stdout w |}.
Definition set_routine_index (v : option Z) (w : World) : World :=
  {| enabled := enabled w; routine_index := v;
     routine_labels := routine_labels w; settings := settings w;
     stdout := stdout w |}.
Definition set_settings (v : gmap string pyval) (w : World) : World :=
  {| enabled := enabled w; routine_index := routine_index w;
     routine_labels := routine_labels w; settings := v;
     stdout := stdout w |}.
Definition print (line : string) (w : World) : World :=
  {| enabled := enabled w; routine_index := routine_index w;
     routine_labels := routine_labels w; settings := settings w;
     stdout := stdout w ++ [line] |}.

(** The command book is loaded at run time: what the [main] of a command
    does to the world is a parameter.  It may clear [enabled] (the default
    [step] and [Buff] do). *)
Class CommandBook : Type := {
  command_main : command -> World -> World
}.

(** An element together with the world is the store of its methods. *)
#[global] Instance object_config (O : Type) : Config (O * World) :=
  {| config_enabled := fun s => enabled (snd s) |}.

Definition on_world {O : Type} (f : World -> World) : M (O * World) unit :=
  m_set (fun s => (fst s, f (snd s))).

Definition on_self {O : Type} (f : O -> O) : M (O * World) unit :=
  m_set (fun s => (f (fst s), snd s)).

(** A method that writes the world only, never the object it runs on. *)
Definition keeps_self {O A : Type} (m : M (O * World) A) : Prop :=
  forall s s' r, m s = (s', r) -> fst s' = fst s.

(** [command.execute()]: [Component.execute] of a command. *)
Definition command_execute `{CommandBook} {O : Type} (c : command)
  : M (O * World) unit :=
  run_if_enabled (on_world (command_main c)).

(** Truth value of an object in an [if]. *)
Definition py_truthy (v : pyval) : bool :=
  match v with
  | VInt z => negb (z =? 0)%Z
  | VFloat q => negb (Qeq_bool q 0)
  | VBool b => b
  | VStr s => negb (String.eqb s "")
  | VNone => false
  | VOther _ => true
  end.

(** Reading an attribute of module [settings]. *)
Definition settings_attr {O : Type} (name : string) : M (O * World) pyval :=
  s ← m_get;
  match settings (snd s) !! name with
  | Some v => m_ret v
  | None => m_lift (Raise AttributeError)
  end.

(** *** Point *)

Module Point.

(** [commands] is [None] while the attribute does not exist. *)
Record t : Type := mk {
  kwargs : dict;
  x : Q;
  y : Q;
  location : Q * Q;
  frequency : Z;
  counter : Z;
  adjust : bool;
  commands : option (list command)
}.

Definition id : string := "*".

Definition params : list (string * option pyval) :=
  [("x", None); ("y", None); ("frequency", Some (VInt 1));
   ("skip", Some (VStr "False")); ("adjust", Some (VStr "False"))].

Definition blank : t :=
  {| kwargs := []; x := 0; y := 0; location := (0%Q, 0%Q); frequency := 0;
     counter := 0; adjust := false; commands := None |}.

Definition set_kwargs (v : dict) (s : t) : t :=
  {| kwargs := v; x := x s; y := y s; location := location s;
     frequency := frequency s; counter := counter s; adjust := adjust s;
     commands := commands s |}.
Definition set_x (v : Q) (s : t) : t :=
  {| kwargs := kwargs s; x := v; y := y s; location := location s;
     frequency := frequency s; counter := counter s; adjust := adjust s;
     commands := commands s |}.
Definition set_y (v : Q) (s : t) : t :=
  {| kwargs := kwargs s; x := x s; y := v; location := location s;
     frequency := frequency s; counter := counter s; adjust := adjust s;
     commands := commands s |}.
Definition set_location (v : Q * Q) (s : t) : t :=
  {| kwargs := kwargs s; x := x s; y := y s; location := v;
     frequency := frequency s; counter := counter s; adjust := adjust s;
     commands := commands s |}.
Definition set_frequency (v : Z) (s : t) : t :=
  {| kwargs := kwargs s; x := x s; y := y s; location := location s;
     frequency := v; counter := counter s; adjust := adjust s;
     commands := commands s |}.
Definition set_counter (v : Z) (s : t) : t :=
  {| kwargs := kwargs s; x := x s; y := y s; location := location s;
     frequency := frequency s; counter := v; adjust := adjust s;
     commands := commands s |}.
Definition set_adjust (v : bool) (s : t) : t :=
  {| kwargs := kwargs s; x := x s; y := y s; location := location s;
     frequency := frequency s; counter := counter s; adjust := v;
     commands := commands s |}.
Definition set_commands (v : option (list command)) (s : t) : t :=
  {| kwargs := kwargs s; x := x s; y := y s; location := location s;
     frequency := frequency s; counter := counter s; adjust := adjust s;
     commands := v |}.

(** [Point.__init__(self, x, y, frequency=1, skip='False', adjust='False')] *)
Definition __init__ `{Builtins} `{SettingsModule}
  (x y frequency skip adjust : pyval) : M t unit :=
  kw ← m_lift (Component__init__
                 [inl (locals [("x", x); ("y", y); ("frequency", frequency);
                               ("skip", skip); ("adjust", adjust)])] []);
  m_set (set_kwargs kw);;
  fx ← m_lift (py_float x);
  m_set (set_x fx);;
  fy ← m_lift (py_float y);
  m_set (set_y fy);;
  m_set (fun s => set_location (Point.x s, Point.y s) s);;
  f ← m_lift (validate_nonnegative_int frequency);
  m_set (set_frequency f);;
  sk ← m_lift (validate_boolean skip);
  m_set (set_counter (Z.b2z sk));;
  ad ← m_lift (validate_boolean adjust);
  m_set (set_adjust ad);;
  self ← m_get;
  match commands self with
  | None => m_set (set_commands (Some []))
  | Some _ => m_ret tt
  end.

Definition call `{Builtins} `{SettingsModule} (args : list pyval) (kwargs : dict)
  : M t unit :=
  bound ← m_lift (call_args params args kwargs);
  match bound with
  | [(_, x); (_, y); (_, frequency); (_, skip); (_, adjust)] =>
      __init__ x y frequency skip adjust
  | _ => m_lift (Raise TypeError)
  end.

(** [Point._increment_counter], under [@utils.run_if_enabled]. *)
Definition _increment_counter : M (t * World) unit :=
  run_if_enabled
    (s ← m_get;
     c ← m_lift (py_mod (counter (fst s) + 1) (frequency (fst s)));
     on_self (set_counter c)).

(** The [for command in self.commands] loop. *)
Fixpoint execute_commands `{CommandBook} (cs : list command) : M (t * World) unit :=
  match cs with
  | [] => m_ret tt
  | c :: rest => command_execute c;; execute_commands rest
  end.

(** [Point.main] *)
Definition main `{CommandBook} : M (t * World) unit :=
  s ← m_get;
  (if (counter (fst s) =? 0)%Z then
     let self := fst s in
     command_execute (CmdMove (fst (location self)) (snd (location self)));;
     (if adjust self
      then command_execute (CmdAdjust (fst (location self)) (snd (location self)))
      else m_ret tt);;
     mode ← settings_attr "skill_rotation_mode";
     if py_truthy mode then
       d ← settings_attr "skill_rotation_duration";
       command_execute (CmdSkillRotation d)
     else
       match commands self with
       | Some cs => execute_commands cs
       | None => m_lift (Raise AttributeError)
       end
   else m_ret tt);;
  _increment_counter.

End Point.

(** *** Jump *)

Module Jump.

Record t : Type := mk {
  kwargs : dict;
  label : string;
  frequency : Z;
  counter : Z;
  link : option Label.t
}.

Definition id : string := ">".

Definition params : list (string * option pyval) :=
  [("label", None); ("frequency", Some (VInt 1)); ("skip", Some (VStr "False"))].

Definition blank : t :=
  {| kwargs := []; label := ""; frequency := 0; counter := 0; link := None |}.

Definition set_kwargs (v : dict) (s : t) : t :=
  {| kwargs := v; label := label s; frequency := frequency s;
     counter := counter s; link := link s |}.
Definition set_label (v : string) (s : t) : t :=
  {| kwargs := kwargs s; label := v; frequency := frequency s;
     counter := counter s; link := link s |}.
Definition set_frequency (v : Z) (s : t) : t :=
  {| kwargs := kwargs s; label := label s; frequency := v;
     counter := counter s; link := link s |}.
Definition set_counter (v : Z) (s : t) : t :=
  {| kwargs := kwargs s; label := label s; frequency := frequency s;
     counter := v; link := link s |}.
Definition set_link (v : option Label.t) (s : t) : t :=
  {| kwargs := kwargs s; label := label s; frequency := frequency s;
     counter := counter s; link := v |}.

(** [Jump.__init__(self, label, frequency=1, skip='False')] *)
Definition __init__ `{Builtins} `{SettingsModule}
  (label frequency skip : pyval) : M t unit :=
  kw ← m_lift (Component__init__
                 [inl (locals [("label", label); ("frequency", frequency);
                               ("skip", skip)])] []);
  m_set (set_kwargs kw);;
  m_set (set_label (py_str label));;
  f ← m_lift (validate_nonnegative_int frequency);
  m_set (set_frequency f);;
  sk ← m_lift (validate_boolean skip);
  m_set (set_counter (Z.b2z sk));;
  m_set (set_link None).

Definition call `{Builtins} `{SettingsModule} (args : list pyval) (kwargs : dict)
  : M t unit :=
  bound ← m_lift (call_args params args kwargs);
  match bound with
  | [(_, label); (_, frequency); (_, skip)] => __init__ label frequency skip
  | _ => m_lift (Raise TypeError)
  end.

(** [Jump._increment_counter], under [@utils.run_if_enabled]. *)
Definition _increment_counter : M (t * World) unit :=
  run_if_enabled
    (s ← m_get;
     c ← m_lift (py_mod (counter (fst s) + 1) (frequency (fst s)));
     on_self (set_counter c)).

(** The line [Jump.main] prints for an unbound label. *)
Definition missing_label (name : string) : string :=
  nl +:+ "[!] Label '" +:+ name +:+ "' does not exist.".

(** [Jump.main] *)
Definition main : M (t * World) unit :=
  s ← m_get;
  match link (fst s) with
  | None => on_world (print (missing_label (label (fst s))))
  | Some target =>
      (if (counter (fst s) =? 0)%Z
       then on_world (set_routine_index (Label.index target))
       else m_ret tt);;
      _increment_counter
  end.

(** [Jump.bind]: the lookup of the label in [config.routine.labels]. *)
Definition bind (w : World) (self : t) : t * bool :=
  match routine_labels w !! label self with
  | Some target => (set_link (Some target) self, true)
  | None => (self, false)
  end.

End Jump.

(** *** Setting *)

Module Setting.

Record t : Type := mk {
  kwargs : dict;
  key : string;
  value : pyval
}.

Definition id : string := "$".

Definition params : list (string * option pyval) :=
  [("target", None); ("value", None)].

Definition blank : t := {| kwargs := []; key := ""; value := VNone |}.

Definition set_kwargs (v : dict) (s : t) : t :=
  {| kwargs := v; key := key s; value := value s |}.
Definition set_key (v : string) (s : t) : t :=
  {| kwargs := kwargs s; key := v; value := value s |}.
Definition set_value (v : pyval) (s : t) : t :=
  {| kwargs := kwargs s; key := key s; value := v |}.

(** [Setting.__init__(self, target, value)] *)
Definition __init__ `{Builtins} `{SettingsModule} (target value : pyval) : M t unit :=
  kw ← m_lift (Component__init__
                 [inl (locals [("target", target); ("value", value)])] []);
  m_set (set_kwargs kw);;
  m_set (set_key (py_str target));;
  self ← m_get;
  match SETTING_VALIDATORS (key self) with
  | None => m_lift (Raise ValueError)
  | Some validate =>
      v ← m_lift (validate value);
      m_set (set_value v)
  end.

Definition call `{Builtins} `{SettingsModule} (args : list pyval) (kwargs : dict)
  : M t unit :=
  bound ← m_lift (call_args params args kwargs);
  match bound with
  | [(_, target); (_, value)] => __init__ target value
  | _ => m_lift (Raise TypeError)
  end.

(** [Setting.main]: [setattr(settings, self.key, self.value)] *)
Definition main : M (t * World) unit :=
  s ← m_get;
  on_world (fun w => set_settings (<[key (fst s) := value (fst s)]> (settings w)) w).

End Setting.

(** *** Dispatch over the four routine symbols *)

(** SYMBOLS = {'*': Point, '@': Label, '>': Jump, '$': Setting} *)
Inductive element : Type :=
| EPoint (p : Point.t)
| ELabel (l : Label.t)
| EJump (j : Jump.t)
| ESetting (s : Setting.t).

Definition symbol (e : element) : string :=
  match e with
  | EPoint _ => Point.id
  | ELabel _ => Label.id
  | EJump _ => Jump.id
  | ESetting _ => Setting.id
  end.

Definition element_kwargs (e : element) : dict :=
  match e with
  | EPoint p => Point.kwargs p
  | ELabel l => Label.kwargs l
  | EJump j => Jump.kwargs j
  | ESetting s => Setting.kwargs s
  end.

(** The parameter list of the constructor of the class of [e]. *)
Definition class_params (e : element) : list (string * option pyval) :=
  match e with
  | EPoint _ => Point.params
  | ELabel _ => Label.params
  | EJump _ => Jump.params
  | ESetting _ => Setting.params
  end.

(** [Component.execute]: [self.main()] under [@utils.run_if_enabled]. *)
Definition Component_execute {O : Type} (main : M (O * World) unit)
  : M (O * World) unit :=
  run_if_enabled main.

(** [Component.main]: [pass] (Label does not override it). *)
Definition Component_main {O : Type} : M (O * World) unit := m_ret tt.

Definition as_element {O : Type} (inj : O -> element) (self : O)
  (m : M (O * World) unit) (w : World) : (element * World) * result unit :=
  match m (self, w) with
  | ((self', w'), r) => ((inj self', w'), r)
  end.

(** [element.execute()] *)
Definition execute `{CommandBook} (e : element) (w : World)
  : (element * World) * result unit :=
  match e with
  | EPoint p => as_element EPoint p (Component_execute Point.main) w
  | ELabel l => as_element ELabel l (Component_execute Component_main) w
  | EJump j => as_element EJump j (Component_execute Jump.main) w
  | ESetting s => as_element ESetting s (Component_execute Setting.main) w
  end.

(** [Component.update]: the constructor call on a throwaway object first,
    then [__init__] on [self] with the same arguments. *)
Definition Component_update {O : Type} (blank : O) (call : M O unit) : M O unit :=
  fun self =>
    match call blank with
    | (_, Raise e) => (self, Raise e)
    | (_, Ok _) => call self
    end.

Definition label_taken (w : World) (name : string) : bool :=
  match routine_labels w !! name with Some _ => true | None => false end.

(** [element.update( *args, **kwargs)] in world [w]. *)
Definition update `{Builtins} `{SettingsModule} (w : World)
  (args : list pyval) (kwargs : dict) (e : element) : element * result unit :=
  match e with
  | EPoint p =>
      let r := Component_update Point.blank (Point.call args kwargs) p in
      (EPoint (fst r), snd r)
  | ELabel l =>
      let r := Component_update Label.blank
                 (Label.call (label_taken w) args kwargs) l in
      (ELabel (fst r), snd r)
  | EJump j =>
      let r := Component_update Jump.blank (Jump.call args kwargs) j in
      (EJump (fst r), snd r)
  | ESetting s =>
      let r := Component_update Setting.blank (Setting.call args kwargs) s in
      (ESetting (fst r), snd r)
  end.

(** The constructor call [cls( *args, **kwargs)] of the class of [e]. *)
Definition construct `{Builtins} `{SettingsModule} (w : World)
  (args : list pyval) (kwargs : dict) (e : element) : result element :=
  match e with
  | EPoint _ =>
      match Point.call args kwargs Point.blank with
      | (p, Ok _) => Ok (EPoint p) | (_, Raise err) => Raise err
      end
  | ELabel _ =>
      match Label.call (label_taken w) args kwargs Label.blank with
      | (l, Ok _) => Ok (ELabel l) | (_, Raise err) => Raise err
      end
  | EJump _ =>
      match Jump.call args kwargs Jump.blank with
      | (j, Ok _) => Ok (EJump j) | (_, Raise err) => Raise err
      end
  | ESetting _ =>
      match Setting.call args kwargs Setting.blank with
      | (s, Ok _) => Ok (ESetting s) | (_, Raise err) => Raise err
      end
  end.

(** [__init__] run directly on the live object, without the validation
    call: what [update] would be without its first line. *)
Definition reinit `{Builtins} `{SettingsModule} (w : World)
  (args : list pyval) (kwargs : dict) (e : element) : element * result unit :=
  match e with
  | EPoint p => let r := Point.call args kwargs p in (EPoint (fst r), snd r)
  | ELabel l =>
      let r := Label.call (label_taken w) args kwargs l in (ELabel (fst r), snd r)
  | EJump j => let r := Jump.call args kwargs j in (EJump (fst r), snd r)
  | ESetting s => let r := Setting.call args kwargs s in (ESetting (fst r), snd r)
  end.

(** [element.encode()] *)
Definition encode `{Builtins} (e : element) : string :=
  match e with
  | ELabel l => Label.encode l
  | _ => Component_encode (symbol e) (element_kwargs e)
  end.

(** The rendering the specification describes: the symbol, a space, then
    the [key=value] items separated by a comma and a space. *)
Definition spec_encode `{Builtins} (id : string) (kwargs : dict) : string :=
  id +:+ " " +:+
  join ", " (map (fun kv => fst kv +:+ "=" +:+ py_str (snd kv))
               (List.filter (fun kv => negb (String.eqb (fst kv) "id")
                                         && is_primitive (snd kv)) kwargs)).

End Components.
(** ** src/routine/components.py: the hold of SkillRotation *)

Module Rotation.
Import Float.

(** [utils.rand_float(start, end)] for floats [start] and [end]; [u] is
    the value [random()] returned, a float of the interval [0, 1).  The
    difference, the product and the sum are each rounded. *)
Definition rand_float (start end_ u : Q) : result float :=
  if Qle_bool end_ start then Raise AssertionError
  else Ok (fadd (fmul (fsub (Finite end_) (Finite start)) (Finite u))
             (Finite start)).

(** The duration [SkillRotation._main_attack_phase] draws for its hold:
    [None] when it returns at once ([max_sec <= 0.05]). *)
Definition hold_duration (max_sec u : Q) : result (option float) :=
  if Qle_bool max_sec (lit (5 # 100)) then Ok None
  else if Qle_bool 1 max_sec then
    d ← rand_float 1 (Qmin 3 max_sec) u; Ok (Some d)
  else if negb (Qle_bool max_sec (lit (2 # 10))) then
    d ← rand_float (lit (2 # 10)) max_sec u; Ok (Some d)
  else
    d ← rand_float (lit (5 # 100)) max_sec u; Ok (Some d).

(** The [max_sec] that [SkillRotation.main] passes:
    [min(5.0, max(0.2, remaining))]. *)
Definition attack_max_sec (remaining : Q) : Q :=
  Qmin 5 (Qmax (lit (2 # 10)) remaining).

(** The hold drawn by the attack phase of [main] with [remaining] seconds
    left before [end]. *)
Definition attack_hold (remaining u : Q) : result (option float) :=
  hold_duration (attack_max_sec remaining) u.



End Rotation.

(** ** src/modules/bot.py: the rune solver *)

Module Bot.
Import Components.

Inductive event : Type :=
| Move                    (* move( *rune_pos).execute() *)
| Adjust                  (* adjust( *rune_pos).execute() *)
| Interact                (* press(self.config['Interact'], 1, down_time=0.2) *)
| EnterArrows (solution : list string)
| ClickBuff
| SaveFailedDetection
| EnterCashShop
| ExitCashShop
| KillGame                (* taskkill /f /im "MapleStory.exe" *)
| KillSelf.               (* taskkill /f /pid os.getpid() *)

(** The slice of the program state [_solve_rune] reads and writes:
    [config.enabled], [self.rune_active], the module global [attempts]. *)
Record State : Type := mkState {
  enabled : bool;
  rune_active : bool;
  attempts : Z;
  events : list event
}.

#[global] Instance bot_config : Config State :=
  {| config_enabled := enabled |}.

Definition emit (e : event) (s : State) : State :=
  {| enabled := enabled s; rune_active := rune_active s;
     attempts := attempts s; events := events s ++ [e] |}.
Definition set_rune_active (v : bool) (s : State) : State :=
  {| enabled := enabled s; rune_active := v;
     attempts := attempts s; events := events s |}.
Definition set_attempts (v : Z) (s : State) : State :=
  {| enabled := enabled s; rune_active := rune_active s;
     attempts := v; events := events s |}.

(** What the outside world answers during one of the three rounds: the
    captured frame ([None] before the first capture), the exception the
    request to the solver ends with, if any, the solver's answer otherwise
    (empty when it has none), and whether each poll finds the buff icon. *)
Record round : Type := mkRound {
  frame : option nat;
  solver_error : option exn;
  solution : list string;
  rune_buff : nat -> bool
}.

(** [for _ in range(3)]: the polls after the arrows were entered; stops at
    the first poll that finds the icon. *)
Fixpoint poll_buff (r : round) (polls : list nat) : M State bool :=
  match polls with
  | [] => m_ret false
  | j :: rest =>
      if rune_buff r j then
        m_set (emit ClickBuff);;
        m_set (set_rune_active false);;
        m_set (set_attempts 0);;
        m_ret true
      else poll_buff r rest
  end.

(** [for i in range(3)]: the rounds; the result is the final value of the
    locals [solution_found] and [frame].  [predict_from_frame] reads
    [frame.shape] before anything else, which raises [AttributeError] on
    [None]; an exception of the request goes through as well. *)
Fixpoint rounds_loop (rs : list round) (solution_found : bool) (fr : option nat)
  : M State (bool * option nat) :=
  match rs with
  | [] => m_ret (solution_found, fr)
  | r :: rest =>
      match frame r, solver_error r with
      | None, _ => m_lift (Raise AttributeError)
      | Some _, Some e => m_lift (Raise e)
      | Some _, None =>
          if (negb (length (solution r) =? 0)%nat) && (length (solution r) =? 4)%nat
          then
            m_set (emit (EnterArrows (solution r)));;
            found ← poll_buff r [0; 1; 2]%nat;
            rounds_loop rest (solution_found || found) (frame r)
          else rounds_loop rest solution_found (frame r)
      end
  end.

(** The walk to the rune, before the rounds. *)
Definition approach : list event := [Move; Adjust; Adjust; Interact].

(** [Bot._solve_rune], under [@utils.run_if_enabled]. *)
Definition _solve_rune (r0 r1 r2 : round) : M State unit :=
  run_if_enabled
    (m_set (emit Move);;
     m_set (emit Adjust);;
     m_set (emit Adjust);;
     m_set (emit Interact);;
     res ← rounds_loop [r0; r1; r2] false None;
     (if negb (fst res) && (match snd res with Some _ => true | None => false end)
      then m_set (emit SaveFailedDetection) else m_ret tt);;
     m_set (fun s => set_attempts (attempts s + 1) s);;
     s ← m_get;
     (if (attempts s mod 3 =? 0)%Z
      then m_set (emit EnterCashShop);; m_set (emit ExitCashShop)
      else m_ret tt);;
     s ← m_get;
     (if (9 <? attempts s)%Z then m_set (set_rune_active false) else m_ret tt);;
     s ← m_get;
     (if (20 <? attempts s)%Z
      then m_set (emit KillGame);; m_set (emit KillSelf)
      else m_ret tt)).

Definition emit_all (es : list event) (s : State) : State :=
  {| enabled := enabled s; rune_active := rune_active s;
     attempts := attempts s; events := events s ++ es |}.

(** A round that runs to its end and leaves [solution_found] false: a
    frame was captured, the solver answered, and it gave no four-arrow
    answer or no poll found the buff icon. *)
Definition round_fails (r : round) : bool :=
  match frame r, solver_error r with
  | Some _, None =>
      if (length (solution r) =? 4)%nat
      then negb (rune_buff r 0%nat || rune_buff r 1%nat || rune_buff r 2%nat)
      else true
  | _, _ => false
  end.

(** The scripted recovery: enter, then exit, the cash shop. *)
Definition recovery : list event := [EnterCashShop; ExitCashShop].

(** The abort: kill the game, then this process. *)
Definition abort : list event := [KillGame; KillSelf].

(** The events of one round that fails. *)
Definition failed_round_events (r : round) : list event :=
  if (length (solution r) =? 4)%nat then [EnterArrows (solution r)] else [].

(** A round in which the solver has no answer. *)
Definition no_answer : round :=
  {| frame := Some 0%nat; solver_error := None; solution := [];
     rune_buff := fun _ => false |}.

(** A round in which the arrows are entered and the first poll finds the
    buff icon. *)
Definition solved_round : round :=
  {| frame := Some 0%nat; solver_error := None;
     solution := ["up"; "down"; "left"; "right"];
     rune_buff := fun _ => true |}.

Definition after_failures (n : Z) : State :=
  {| enabled := true; rune_active := true; attempts := n; events := [] |}.

(** A round before the first capture: there is no frame yet. *)
Definition no_frame : round :=
  {| frame := None; solver_error := None; solution := [];
     rune_buff := fun _ => false |}.

End Bot.

(** ** src/modules/notifier.py: the alert *)

Module Notifier.

(** [pygame.mixer.music]: the loaded file, the volume, and whether it
    plays ([Some (-1)] is [play(-1)], an endless loop). *)
Record mixer : Type := mkMixer {
  loaded : option string;
  volume : Q;
  playing : option Z
}.

(** The slice of [config] the alert touches, and the routine cursor next
    to it. *)
Record State : Type := mkState {
  enabled : bool;                (* config.enabled *)
  listener_enabled : bool;       (* config.listener.enabled *)
  routine_index : option Z;      (* config.routine.index *)
  music : mixer;
  slept : Q                      (* seconds spent in time.sleep *)
}.

(** [get_alert_path(name)], with [os.path.join] on a POSIX path. *)
Definition get_alert_path (name : string) : string :=
  "assets/alerts/" +:+ name +:+ ".mp3".

Inductive outcome : Type :=
| Blocked (s : State)       (* still inside the [while] loop *)
| Returned (s : State).

Definition state_of (o : outcome) : State :=
  match o with Blocked s | Returned s => s end.

(** The statements of [_alert] before its loop. *)
Definition raise_alert (name : string) (vol : Q) (s : State) : State :=
  {| enabled := false;
     listener_enabled := false;
     routine_index := routine_index s;
     music := {| loaded := Some (get_alert_path name); volume := vol;
                 playing := Some (-1)%Z |};
     slept := slept s |}.

Definition sleep (d : Q) (s : State) : State :=
  {| enabled := enabled s; listener_enabled := listener_enabled s;
     routine_index := routine_index s; music := music s;
     slept := (slept s + d)%Q |}.

(** The statements of [_alert] after its loop. *)
Definition clear_alert (s : State) : State :=
  {| enabled := enabled s;
     listener_enabled := true;
     routine_index := routine_index s;
     music := {| loaded := loaded (music s); volume := volume (music s);
                 playing := None |};
     slept := (slept s + 2)%Q |}.

(** [while not kb.is_pressed(...): time.sleep(0.1)], run for at most
    [fuel] tests of the key; [pressed n] is the answer to test number [n]. *)
Fixpoint wait_for_key (fuel : nat) (pressed : nat -> bool) (n : nat) (s : State)
  : outcome :=
  match fuel with
  | O => Blocked s
  | S fuel' =>
      if pressed n then Returned s
      else wait_for_key fuel' pressed (S n) (sleep (1 # 10) s)
  end.

(** [Notifier._alert(name, volume=0.75)] *)
Definition _alert (fuel : nat) (pressed : nat -> bool) (name : string) (vol : Q)
  (s : State) : outcome :=
  match wait_for_key fuel pressed 0 (raise_alert name vol s) with
  | Blocked s' => Blocked s'
  | Returned s' => Returned (clear_alert s')
  end.

(** The state after [k] turns of the loop body. *)
Fixpoint sleeps (k : nat) (s : State) : State :=
  match k with
  | O => s
  | S k' => sleeps k' (sleep (1 # 10) s)
  end.

(** The first test of the key that answers yes is test number [n]. *)
Definition first_press (pressed : nat -> bool) (n : nat) : Prop :=
  pressed n = true /\ forall m, (m < n)%nat -> pressed m = false.

Definition watching : State :=
  {| enabled := true; listener_enabled := true; routine_index := Some 3%Z;
     music := {| loaded := None; volume := 1; playing := None |};
     slept := 0 |}.

End Notifier.
(** ** Concrete collaborators, for evaluating the model *)

Module Samples.
Import Components.

(** Modelled from the spec: [validate_nonnegative_int] of
    src/common/settings.py, which is not among the sources.  The spec's
    data model gives the field it validates as "repeat_period >= 0
    (integer; 0 means execute every visit)". *)
Definition spec_validate_nonnegative_int (v : pyval) : result Z :=
  match v with
  | VInt z => if (0 <=? z)%Z then Ok z else Raise ValueError
  | VBool b => Ok (Z.b2z b)
  | VFloat q =>
      let z := (Qnum q ÷ Z.pos (Qden q))%Z in
      if (0 <=? z)%Z then Ok z else Raise ValueError
  | VStr s =>
      match NilZero.int_of_string s with
      | Some i => if (0 <=? Z.of_int i)%Z then Ok (Z.of_int i) else Raise ValueError
      | None => Raise ValueError
      end
  | VNone | VOther _ => Raise TypeError
  end.

(** Modelled from the spec: [validate_boolean] of src/common/settings.py,
    which is not among the sources.  The spec gives the fields it
    validates as "skip_first: bool" and "fine_adjust: bool"; routine files
    write them as the words True and False. *)
Definition spec_validate_boolean (v : pyval) : result bool :=
  match v with
  | VBool b => Ok b
  | VStr s =>
      if String.eqb s "True" || String.eqb s "true" then Ok true
      else if String.eqb s "False" || String.eqb s "false" then Ok false
      else Raise ValueError
  | _ => Raise ValueError
  end.

(** Modelled from the spec: [SETTING_VALIDATORS] of src/common/settings.py,
    which is not among the sources: "a fixed registry of known tunable
    settings" with "a per-key validator function".  Two of the settings
    components.py reads are registered here. *)
Definition spec_setting_validators (key : string)
  : option (pyval -> result pyval) :=
  if String.eqb key "skill_rotation_mode"
  then Some (fun v => b ← spec_validate_boolean v; Ok (VBool b))
  else if String.eqb key "record_layout"
  then Some (fun v => b ← spec_validate_boolean v; Ok (VBool b))
  else None.

#[global] Instance spec_settings : SettingsModule :=
  {| validate_nonnegative_int := spec_validate_nonnegative_int;
     validate_boolean := spec_validate_boolean;
     SETTING_VALIDATORS := spec_setting_validators |}.

(** Built-ins that are exact on integral floats, which is all the
    examples use. *)
#[global] Instance integral_builtins : Builtins :=
  {| str_float := fun q => str_int (Qnum q ÷ Z.pos (Qden q)) +:+ ".0";
     parse_float := fun s =>
       match NilZero.int_of_string s with
       | Some i => Some (inject_Z (Z.of_int i))
       | None => None
       end;
     str_other := fun _ => "<object>" |}.

(** A command book whose commands leave the world alone. *)
Definition idle_book : CommandBook := {| command_main := fun _ w => w |}.

(** A command book whose commands all stop the bot, as the default [step]
    and [Buff] of components.py do ([config.enabled = False]). *)
Definition stopping_book : CommandBook :=
  {| command_main := fun _ w => set_enabled false w |}.

Definition running_world : World :=
  {| enabled := true; routine_index := Some 0%Z; routine_labels := ∅;
     settings := {[ "skill_rotation_mode" := VBool false ]}; stdout := [] |}.

Definition paused_world : World := set_enabled false running_world.

(** [Point(0, 0, 2)], [Point(0, 0, 0)], [Point(1, 2)] and [Jump('a', 2)]
    as the constructors build them. *)
Definition point_every_second : Point.t :=
  fst (Point.call [VInt 0; VInt 0; VInt 2] [] Point.blank).
Definition point_zero_frequency : Point.t :=
  fst (Point.call [VInt 0; VInt 0; VInt 0] [] Point.blank).
Definition point_1_2 : Point.t :=
  fst (Point.call [VInt 1; VInt 2] [] Point.blank).
Definition jump_unbound : Jump.t :=
  fst (Jump.call [VStr "a"; VInt 2] [] Jump.blank).

End Samples.
(** ** Picking a skill: cooldown_tracker.py and components.py *)

Module Skills.
Import Cooldown.

(** [random.choice] on a non-empty sequence; [r] is the number the
    generator draws, reduced to an index. *)
Definition choice {A : Type} (first : A) (rest : list A) (r : nat) : A :=
  nth (r mod S (length rest)) (first :: rest) first.

(** [CooldownTracker.pick_random_available] *)
Definition pick_random_available (now : Q) (r : nat) (tr : CooldownTracker)
  : result (option string) :=
  available ← get_available now tr;
  match available with
  | [] => Ok None
  | k :: rest => Ok (Some (choice k rest r))
  end.

(** [k in skill_ids], for [skill_ids = [k for k, cd in cooldowns.items() if cd > 0]]. *)
Definition skill_ids (cooldowns : list (string * Q)) : list string :=
  (List.filter (fun kv => negb (Qle_bool (snd kv) 0)) cooldowns).*1.

Definition in_list (k : string) (l : list string) : bool :=
  existsb (String.eqb k) l.

(** A key press of [_try_skill_during_move]: the skill, the physical key,
    the number of presses, the clock reading at which the skill was found
    available and the one stored by [record_used] after the press. *)
Record press : Type := mkPress {
  skill : string;
  key : string;
  count : Z;
  checked_at : Q;
  recorded_at : Q
}.

(** [config.bot.cooldown_tracker] together with its [_cooldowns_ref] (the
    identity of the table it was built from), and the presses made. *)
Record State : Type := mkState {
  cooldown_tracker : option (nat * CooldownTracker);
  presses : list press
}.

(** The command-book module as [_try_skill_during_move] sees it:
    [SKILL_COOLDOWNS] is an object with an identity and its entries;
    [press_count] is [SKILL_PRESS_COUNTS.get(skill_id, 1)] and
    [resolve_key] is [_resolve_key(module, skill_id)]. *)
Record module : Type := mkModule {
  SKILL_COOLDOWNS : option (nat * list (string * Q));
  press_count : string -> Z;
  resolve_key : string -> string
}.

(** [_try_skill_during_move]; [t_check] is the clock reading inside
    [get_available], [t_record] the one inside [record_used], [r] the
    number drawn by [random.choice]. *)
Definition _try_skill_during_move (m : module) (t_check t_record : Q) (r : nat)
  (s : State) : State * result unit :=
  match SKILL_COOLDOWNS m with
  | None => (s, Ok tt)
  | Some (ref, cooldowns) =>
      let tracker :=
        match cooldown_tracker s with
        | Some (ref', tr) => if (ref' =? ref)%nat then tr else init cooldowns
        | None => init cooldowns
        end in
      let s1 := {| cooldown_tracker := Some (ref, tracker); presses := presses s |} in
      match get_available t_check tracker with
      | Raise e => (s1, Raise e)
      | Ok avail =>
          match List.filter (fun k => in_list k (skill_ids cooldowns)) avail with
          | [] => (s1, Ok tt)
          | k :: rest =>
              let skill_id := choice k rest r in
              ({| cooldown_tracker :=
                    Some (ref, record_used skill_id t_record tracker);
                  presses := presses s
                    ++ [{| skill := skill_id; key := resolve_key m skill_id;
                           count := press_count m skill_id;
                           checked_at := t_check; recorded_at := t_record |}] |},
               Ok tt)
          end
      end
  end.

(** One call of [_try_skill_during_move]: its two clock readings and its
    random draw. *)
Record call : Type := mkCall {
  t_check : Q;
  t_record : Q;
  draw : nat
}.

(** A sequence of calls with the same module, stopping at the first
    exception. *)
Fixpoint try_skills (m : module) (calls : list call) (s : State)
  : State * result unit :=
  match calls with
  | [] => (s, Ok tt)
  | c :: rest =>
      match _try_skill_during_move m (t_check c) (t_record c) (draw c) s with
      | (s', Ok _) => try_skills m rest s'
      | (s', Raise e) => (s', Raise e)
      end
  end.

(** Two presses of one skill are at least its cooldown apart: the later
    one was found available no sooner than [cd] after the earlier one was
    recorded. *)
Definition spaced (cooldowns : list (string * Q)) (log : list press) : Prop :=
  forall (i j : nat) (p q : press) (cd : Q),
    (i < j)%nat -> log !! i = Some p -> log !! j = Some q ->
    skill p = skill q -> (skill p, cd) ∈ cooldowns ->
    (cd <= checked_at q - recorded_at p)%Q.

(** What holds of the bot between two calls made with the table
    [(ref, cooldowns)]. *)
Definition consistent (ref : nat) (cooldowns : list (string * Q)) (s : State) : Prop :=
  match cooldown_tracker s with
  | None => presses s = []
  | Some (ref', tr) =>
      ref' = ref
      /\ Cooldown.cooldowns tr = cooldowns
      /\ covered cooldowns (last_used tr)
      /\ forall p, p ∈ presses s ->
           exists lu, last_used tr !! skill p = Some lu /\ (recorded_at p <= lu)%Q
  end.

(** The bot before any tracker was created. *)
Definition fresh : State := {| cooldown_tracker := None; presses := [] |}.

(** A command book with a main attack and two rate-limited skills, and
    three calls made at clock readings 100, 101 and 106. *)
Definition sample_module : module :=
  {| SKILL_COOLDOWNS := Some (1%nat, [("strike", 0%Q); ("burst", 5%Q); ("nova", 30%Q)]);
     press_count := fun k => if String.eqb k "nova" then 2%Z else 1%Z;
     resolve_key := fun k => if String.eqb k "burst" then "a" else k |}.

Definition sample_calls : list call :=
  [ {| t_check := 100; t_record := 100 + (1 # 10); draw := 0 |};
    {| t_check := 101; t_record := 101 + (1 # 10); draw := 0 |};
    {| t_check := 106; t_record := 106 + (1 # 10); draw := 0 |} ].

End Skills.
(** ** A routine element visited again and again *)

Module Visits.
Import Components.

(** The element is executed once in each world of [ws], in order (the
    worlds are whatever the rest of the routine left behind); the result
    is the element after the last visit and the world each visit ended in.
    An exception ends the run. *)
Fixpoint visits `{CommandBook} (ws : list World) (e : element)
  : result (element * list World) :=
  match ws with
  | [] => Ok (e, [])
  | w :: rest =>
      match execute e w with
      | ((e', w'), Ok _) =>
          r ← visits rest e'; Ok (fst r, w' :: snd r)
      | (_, Raise err) => Raise err
      end
  end.

(** The counter of a Point or Jump with counter [c] and frequency [f]
    after [i] enabled visits. *)
Definition counter_after (c f : Z) (i : nat) : Z :=
  match i with
  | O => c
  | S _ => ((c + Z.of_nat i) mod f)%Z
  end.

(** The label ['a'] at position 1, a Jump bound to it with frequency 2, a
    Point with one command, and a Setting of [record_layout]. *)
Definition label_a : Label.t :=
  Label.set_index (Some 1%Z)
    (fst (Label.call (fun _ => false) [VStr "a"] [] Label.blank)).
Definition jump_bound : Jump.t :=
  Jump.set_link (Some label_a) Samples.jump_unbound.
Definition point_with_command : Point.t :=
  Point.set_commands (Some [CmdUser "Wait" [("duration", VInt 1)]])
    Samples.point_every_second.
Definition setting_record_layout : Setting.t :=
  fst (Setting.call [VStr "record_layout"; VStr "True"] [] Setting.blank).

End Visits.
(** ** src/common/utils.py: separate_args *)

Module Text.

(** The characters [str.strip()] removes, among the code points below 256
    (a string here is the sequence of its code points, all below 256):
    tab to carriage return, the separators 28 to 31, the space, NEL and the
    no-break space. *)
Definition is_space (c : ascii) : bool :=
  let n := nat_of_ascii c in
  ((9 <=? n) && (n <=? 13) || (28 <=? n) && (n <=? 32)
   || (n =? 133) || (n =? 160))%nat.

(** [s.lstrip()] *)
Fixpoint lstrip (s : string) : string :=
  match s with
  | EmptyString => EmptyString
  | String c s' => if is_space c then lstrip s' else s
  end.

(** [s.rstrip()] *)
Fixpoint rstrip (s : string) : string :=
  match s with
  | EmptyString => EmptyString
  | String c s' =>
      match rstrip s' with
      | EmptyString => if is_space c then EmptyString else String c EmptyString
      | r => String c r
      end
  end.

(** [s.strip()] *)
Definition strip (s : string) : string := rstrip (lstrip s).

(** [s.find(c)] for a one-character needle: the first index, or -1. *)
Fixpoint find (c : ascii) (s : string) : Z :=
  match s with
  | EmptyString => (-1)%Z
  | String c' s' =>
      if Ascii.eqb c' c then 0%Z
      else let i := find c s' in if (i <? 0)%Z then (-1)%Z else (i + 1)%Z
  end.

(** [s[:n]] and [s[n:]] for [n >= 0]. *)
Fixpoint take (n : nat) (s : string) : string :=
  match n, s with
  | S n', String c s' => String c (take n' s')
  | _, _ => EmptyString
  end.

Fixpoint drop (n : nat) (s : string) : string :=
  match n, s with
  | S n', String c s' => drop n' s'
  | _, _ => s
  end.

(** [kwargs[key] = value] on a dict of strings in insertion order. *)
Fixpoint dict_set (key value : string) (d : list (string * string))
  : list (string * string) :=
  match d with
  | [] => [(key, value)]
  | (k, v) :: rest =>
      if String.eqb k key then (k, value) :: rest
      else (k, v) :: dict_set key value rest
  end.

(** The loop of [separate_args]. *)
Fixpoint separate_args_loop (arguments : list string) (args : list string)
  (kwargs : list (string * string)) : list string * list (string * string) :=
  match arguments with
  | [] => (args, kwargs)
  | a :: rest =>
      let a := strip a in
      let index := find "="%char a in
      if (-1 <? index)%Z then
        let key := strip (take (Z.to_nat index) a) in
        let value := strip (drop (Z.to_nat (index + 1)) a) in
        separate_args_loop rest args (dict_set key value kwargs)
      else separate_args_loop rest (args ++ [a]) kwargs
  end.

(** [utils.separate_args(arguments)] *)
Definition separate_args (arguments : list string)
  : list string * list (string * string) :=
  separate_args_loop arguments [] [].

End Text.
(** ** src/detection/detection.py: the crop sent to the solver *)

Module Detection.

Definition CROP_SIZE : Z := 640.

(** The box [(left, top, right, bottom)] that [crop_to_640x640] hands to
    [img.crop] for an image of the given size. *)
Definition crop_box (width height vertical_offset : Z) : Z * Z * Z * Z :=
  let left0 := ((width - CROP_SIZE) / 2)%Z in
  let right0 := (left0 + CROP_SIZE)%Z in
  let top0 := vertical_offset in
  let bottom0 := (top0 + CROP_SIZE)%Z in
  let vertical :=
    if (height <? bottom0)%Z then (Z.max 0 (height - CROP_SIZE), height)
    else (top0, bottom0) in
  let horizontal :=
    if (width <? right0)%Z then (Z.max 0 (width - CROP_SIZE), width)
    else (left0, right0) in
  (fst horizontal, fst vertical, snd horizontal, snd vertical).

(** [img_cropped.size != (CROP_SIZE, CROP_SIZE)]: the crop is resized. *)
Definition resized (box : Z * Z * Z * Z) : bool :=
  match box with
  | (x0, y0, x1, y1) => negb ((x1 - x0 =? CROP_SIZE)%Z && (y1 - y0 =? CROP_SIZE)%Z)
  end.

End Detection.

(** ** src/modules/bot.py: numbering the saved frames *)

Module FailedImages.

(** What [\d] matches: among the code points below 256 (a name here is the
    sequence of its code points, all below 256) the digits 0 to 9. *)
Definition is_digit (c : ascii) : bool :=
  let n := nat_of_ascii c in ((48 <=? n) && (n <=? 57))%nat.

(** Lower case of an ASCII letter; among code points below 256 no other
    character matches an ASCII letter under [re.IGNORECASE]. *)
Definition lower (c : ascii) : ascii :=
  let n := nat_of_ascii c in
  if ((65 <=? n) && (n <=? 90))%nat then ascii_of_nat (n + 32) else c.

(** Matching a literal at the start of [s], ignoring case; the result is
    what follows it. *)
Fixpoint match_literal (literal s : string) : option string :=
  match literal, s with
  | EmptyString, _ => Some s
  | String p literal', String c s' =>
      if Ascii.eqb (lower p) (lower c) then match_literal literal' s' else None
  | String _ _, EmptyString => None
  end.

(** The longest run of digits at the start of [s], and the rest. *)
Fixpoint span_digits (s : string) : string * string :=
  match s with
  | String c s' =>
      if is_digit c then let r := span_digits s' in (String c (fst r), snd r)
      else (EmptyString, s)
  | EmptyString => (EmptyString, EmptyString)
  end.

(** [int(digits)] for a run of decimal digits (a file name is too short
    to reach the length at which [int] refuses a string of digits). *)
Definition int_of_digits (digits : string) : Z :=
  match NilEmpty.uint_of_string digits with
  | Some d => Z.of_uint d
  | None => 0%Z
  end.

(** [re.match(r'image_(\d+)\.png', name, re.IGNORECASE)] followed by
    [int(m.group(1))]: [None] when the name does not match.  The match is
    anchored at the start only. *)
Definition image_number (name : string) : option Z :=
  match match_literal "image_" name with
  | None => None
  | Some rest =>
      let r := span_digits rest in
      match fst r with
      | EmptyString => None
      | digits =>
          match match_literal ".png" (snd r) with
          | Some _ => Some (int_of_digits digits)
          | None => None
          end
      end
  end.

(** [Bot._get_next_failed_image_number] for the listing [names] of the
    folder. *)
Definition next_failed_image_number (names : list string) : Z :=
  (foldl (fun max_num name =>
            match image_number name with
            | Some n => Z.max max_num n
            | None => max_num
            end) 0 names + 1)%Z.

(** The file name [_save_failed_detection] writes to. *)
Definition failed_image_name (n : Z) : string :=
  "image_" +:+ str_int n +:+ ".png".

End FailedImages.

(** ** src/common/utils.py: coordinates and random numbers *)

Module Utils.
Import Float.

(** [round(x)] for a finite float: the nearest integer, ties to the even
    one. *)
Definition py_round (q : Q) : Z := nearest_even q.

(** [a / b] on integers: the quotient rounded to a float. *)
Definition int_true_divide (a b : Z) : result Q :=
  if (b =? 0)%Z then Raise ZeroDivisionError
  else match round (inject_Z a / inject_Z b) with
       | Finite q => Ok q
       | _ => Raise OverflowError
       end.

(** The float an integer is converted to when it meets a float. *)
Definition int_to_float (n : Z) : result Q :=
  match round (inject_Z n) with
  | Finite q => Ok q
  | _ => Raise OverflowError
  end.

(** [convert_to_relative(point, frame)] for a pixel position and a frame
    of [width] by [height] pixels. *)
Definition convert_to_relative (point : Z * Z) (width height : Z) : result (Q * Q) :=
  x ← int_true_divide (fst point) width;
  y ← int_true_divide (snd point) height;
  Ok (x, y).

(** [int(round(p * n))] for a float [p] and an integer [n]; [round]
    refuses an infinity. *)
Definition scale (p : Q) (n : Z) : result Z :=
  f ← int_to_float n;
  match fmul (Finite p) (Finite f) with
  | Finite q => Ok (py_round q)
  | Infinite _ => Raise OverflowError
  | NaN => Raise ValueError
  end.

(** [convert_to_absolute(point, frame)] *)
Definition convert_to_absolute (point : Q * Q) (width height : Z) : result (Z * Z) :=
  x ← scale (fst point) width;
  y ← scale (snd point) height;
  Ok (x, y).

(** [bernoulli(p)]; [u] is the value [random()] returned. *)
Definition bernoulli (p u : Q) : bool := negb (Qle_bool p u).

End Utils.

(** ** src/routine/components.py: the commands Fall and Move *)

Module Keys.

(** The calls a command makes on the keyboard, the clock, the command book
    and the layout. *)
Inductive event : Type :=
| KeyDown (k : string)                      (* key_down(k) *)
| KeyUp (k : string)                        (* key_up(k) *)
| Press (k : string) (n : Z)                (* press(k, n, ...) *)
| Sleep (seconds : Float.float)             (* time.sleep(seconds) *)
| Step (direction : string) (target : Q * Q)  (* step(direction, target) *)
| LayoutAdd (pos : Q * Q)                   (* config.layout.add( *pos) *)
| TrySkill.                                 (* _try_skill_during_move() *)

(** The keys that the [key_down] and [key_up] calls of a sequence leave
    down, starting from [keys]; a [press] is its own press and release. *)
Fixpoint held (es : list event) (keys : gset string) : gset string :=
  match es with
  | [] => keys
  | KeyDown k :: rest => held rest ({[k]} ∪ keys)
  | KeyUp k :: rest => held rest (keys ∖ {[k]})
  | _ :: rest => held rest keys
  end.

Definition is_step (e : event) : bool :=
  match e with Step _ _ => true | _ => false end.

(** The number of calls of [step]. *)
Definition steps (es : list event) : nat := length (List.filter is_step es).

(** What a command reads from the rest of the program, and how the rest of
    the program reacts to its calls.  The comparisons of floats are left to
    the world: [above_tolerance w a b] is
    [utils.distance(a, b) > settings.move_tolerance],
    [off_axis w d] is [abs(d) > settings.move_tolerance / math.sqrt(2)] and
    [closer_than a b d] is [utils.distance(a, b) < d]. *)
Class Game (W : Type) : Type := {
  enabled : W -> bool;                          (* config.enabled *)
  stage_fright : W -> bool;                     (* config.stage_fright *)
  player_pos : W -> Q * Q;                      (* config.player_pos *)
  record_layout : W -> bool;                    (* settings.record_layout *)
  jump_key : W -> string;                       (* Key.JUMP, or 'space' *)
  shortest_path : W -> Q * Q -> Q * Q -> list (Q * Q);
  above_tolerance : W -> Q * Q -> Q * Q -> bool;
  off_axis : W -> Q -> bool;
  closer_than : Q * Q -> Q * Q -> Q -> bool;
  random : W -> Q * W;                          (* random.random() *)
  after : event -> W -> W                       (* the world after a call *)
}.

(** The truth value of a string: it is not empty. *)
Definition truthy (s : string) : bool := negb (String.eqb s "").

(** The keys [Move] presses with [key_down]. *)
Definition direction (k : string) : Prop :=
  k = "left" \/ k = "right" \/ k = "down".

(** The key that [self.prev_direction] names, if any. *)
Definition holding (prev : string) : gset string :=
  if truthy prev then {[prev]} else ∅.

(** What holds of the calls [es] of a run of [Move.main] with [counter]
    steps left of [max] while the keys [keys] are down. *)
Definition invariant (max : Z) (es : list event) (counter : Z)
  (keys : gset string) : Prop :=
  (Z.of_nat (steps es) + Z.max 0 counter <= Z.max 0 max)%Z
  /\ (forall k, KeyDown k ∈ es -> direction k)
  /\ held es ∅ = keys.

(** The float a decimal literal of the source denotes. *)
Definition literal (q : Q) : Float.float := Float.Finite (Float.lit q).

Section Commands.
Context {W : Type} `{Game W}.

(** The world, and the calls made so far. *)
Definition io : Type := W * list event.

Definition call (e : event) (s : io) : io := (after e (fst s), snd s ++ [e]).

(** [time.sleep(utils.rand_float(start, end))] *)
Definition sleep_rand_float (start end_ : Q) (s : io) : result io :=
  let u := random (fst s) in
  d ← Rotation.rand_float start end_ (fst u);
  Ok (call (Sleep d) (snd u, snd s)).

(** The [while] loop of [Fall.main]; [counter] starts at 6. *)
Fixpoint fall_loop (counter : nat) (start : Q * Q) (distance : Q) (s : io) : io :=
  match counter with
  | O => s
  | S counter' =>
      if enabled (fst s) && closer_than start (player_pos (fst s)) distance
      then fall_loop counter' start distance (call (Press "space" 1) s)
      else s
  end.

(** [Fall.main] *)
Definition Fall_main (distance : Q) (s : io) : result io :=
  let start := player_pos (fst s) in
  let s := call (KeyDown "down") s in
  let s := call (Sleep (literal (5 # 100))) s in
  s ← (if stage_fright (fst s)
       then let u := random (fst s) in
            if Utils.bernoulli (1 # 2) (fst u)
            then sleep_rand_float (Float.lit (2 # 10)) (Float.lit (4 # 10))
                   (snd u, snd s)
            else Ok (snd u, snd s)
       else Ok s);
  let s := fall_loop 6 start distance s in
  let s := call (KeyUp "down") s in
  Ok (call (Sleep (literal (5 # 100))) s).

(** The attributes of a [Move] that [main] reads. *)
Record Move : Type := mkMove {
  target : Q * Q;
  max_steps : Z;
  self_prev_direction : string
}.

(** The state of a run of [Move.main]: the world and the calls so far,
    [self.prev_direction] and the local [counter]. *)
Record run : Type := mkRun {
  out : io;
  prev_direction : string;
  counter : Z
}.

Definition set_out (s : io) (r : run) : run :=
  {| out := s; prev_direction := prev_direction r; counter := counter r |}.
Definition set_prev_direction (d : string) (r : run) : run :=
  {| out := out r; prev_direction := d; counter := counter r |}.

(** [d < 0] *)
Definition negative (d : Q) : bool := negb (Qle_bool 0 d).

(** [Move._new_direction] *)
Definition _new_direction (new : string) (r : run) : run :=
  let s := call (KeyDown new) (out r) in
  let s := if truthy (prev_direction r) && negb (String.eqb (prev_direction r) new)
           then call (KeyUp (prev_direction r)) s else s in
  {| out := s; prev_direction := new; counter := counter r |}.

(** The statements that end both branches of the loop body: the step, the
    recorded position, the counter, the skill and the pause ([more] is
    [i < len(path) - 1]). *)
Definition take_step (key : string) (point : Q * Q) (more : bool)
  (pause : Float.float) (r : run) : run :=
  let s := call (Step key point) (out r) in
  let s := if record_layout (fst s)
           then call (LayoutAdd (player_pos (fst s))) s else s in
  let s := call TrySkill s in
  let s := if more then call (Sleep pause) s else s in
  {| out := s; prev_direction := prev_direction r; counter := counter r - 1 |}.

(** The loop body when [toggle] is true. *)
Definition horizontal (point : Q * Q) (more : bool) (r : run) : result run :=
  let d_x := (fst point - fst (player_pos (fst (out r))))%Q in
  if off_axis (fst (out r)) d_x then
    let key := if negative d_x then "left" else "right" in
    let r := _new_direction key r in
    let u := random (fst (out r)) in
    s ← (if negb (Qle_bool (Float.lit (3 # 10)) (fst u))
         then sleep_rand_float (Float.lit (5 # 100)) (Float.lit (12 # 100))
                (call (Press (jump_key (snd u)) 1) (snd u, snd (out r)))
         else Ok (snd u, snd (out r)));
    Ok (take_step key point more (literal (15 # 100)) (set_out s r))
  else Ok r.

(** The loop body when [toggle] is false. *)
Definition vertical (point : Q * Q) (more : bool) (r : run) : run :=
  let d_y := (snd point - snd (player_pos (fst (out r))))%Q in
  if off_axis (fst (out r)) d_y then
    let key := if negative d_y then "up" else "down" in
    let r := if String.eqb key "up"
             then (if truthy (prev_direction r)
                   then set_prev_direction ""
                          (set_out (call (KeyUp (prev_direction r)) (out r)) r)
                   else r)
             else _new_direction key r in
    take_step key point more (literal (5 # 100)) r
  else r.

(** The test of the [while] loop.  [local_error] and [global_error] were
    computed just before it, from the position the player still has. *)
Definition continues (target point : Q * Q) (r : run) : bool :=
  let w := fst (out r) in
  enabled w && (0 <? counter r)%Z
  && above_tolerance w (player_pos w) point
  && above_tolerance w (player_pos w) target.

(** The [while] loop, for at most [fuel] rounds; the flag tells whether
    the loop was left. *)
Fixpoint while_loop (fuel : nat) (target point : Q * Q) (more toggle : bool)
  (r : run) : result (run * bool) :=
  if continues target point r then
    match fuel with
    | O => Ok (r, false)
    | S fuel' =>
        r' ← (if toggle then horizontal point more r
              else Ok (vertical point more r));
        while_loop fuel' target point more (negb toggle) r'
    end
  else Ok (r, true).

(** One round of the [for] loop over the path. *)
Definition segment (fuel : nat) (target point : Q * Q) (more : bool) (r : run)
  : result (run * bool) :=
  match while_loop fuel target point more true (set_prev_direction "" r) with
  | Ok (r', true) =>
      Ok (if truthy (prev_direction r')
          then set_out (call (KeyUp (prev_direction r')) (out r')) r'
          else r', true)
  | other => other
  end.

(** The [for] loop over [enumerate(path)]; [n] is [len(path)]. *)
Fixpoint segments (fuel : nat) (target : Q * Q) (n i : nat) (path : list (Q * Q))
  (r : run) : result (run * bool) :=
  match path with
  | [] => Ok (r, true)
  | point :: rest =>
      match segment fuel target point (i <? n - 1)%nat r with
      | Ok (r', true) => segments fuel target n (S i) rest r'
      | other => other
      end
  end.

(** [Move.main], each [while] loop running for at most [fuel] rounds; the
    flag tells whether [main] returned. *)
Definition Move_main (fuel : nat) (self : Move) (w : W) : result (run * bool) :=
  let path := shortest_path w (player_pos w) (target self) in
  segments fuel (target self) (length path) 0 path
    {| out := (w, []); prev_direction := self_prev_direction self;
       counter := max_steps self |}.

(** The invariant of the [while] loop of [Move.main]: the key down is the
    one [self.prev_direction] names. *)
Definition Inv (max : Z) (r : run) : Prop :=
  invariant max (snd (out r)) (counter r) (holding (prev_direction r)).

End Commands.

Definition is_sleep (e : event) : bool :=
  match e with Sleep _ => true | _ => false end.

(** A world of exact arithmetic: the player moves a tenth towards the
    target of each [step] along the axis of the step, the tolerance is a
    tenth, the path is the target alone. *)
Record plane : Type := mkPlane {
  pos : Q * Q;
  running : bool;
  draws : list Q
}.

Definition sq_distance (a b : Q * Q) : Q :=
  ((fst a - fst b) * (fst a - fst b) + (snd a - snd b) * (snd a - snd b))%Q.

Definition plane_tolerance : Q := 1 # 10.

Definition plane_after (e : event) (w : plane) : plane :=
  match e with
  | Step direction _ =>
      let p := pos w in
      {| pos := if String.eqb direction "left" then (fst p - (1 # 10), snd p)%Q
                else if String.eqb direction "right" then (fst p + (1 # 10), snd p)%Q
                else if String.eqb direction "up" then (fst p, snd p - (1 # 10))%Q
                else (fst p, snd p + (1 # 10))%Q;
         running := running w; draws := draws w |}
  | _ => w
  end.

#[global] Instance plane_game : Game plane := {|
  enabled := running;
  stage_fright := fun _ => true;
  player_pos := pos;
  record_layout := fun _ => true;
  jump_key := fun _ => "space";
  shortest_path := fun _ _ b => [b];
  above_tolerance := fun _ a b =>
    negb (Qle_bool (sq_distance a b) (plane_tolerance * plane_tolerance));
  off_axis := fun _ d =>
    negb (Qle_bool (2 * (d * d)) (plane_tolerance * plane_tolerance));
  closer_than := fun a b d =>
    Qle_bool 0 d && negb (Qle_bool (d * d) (sq_distance a b));
  random := fun w =>
    (List.hd (1 # 2) (draws w),
     {| pos := pos w; running := running w; draws := List.tl (draws w) |});
  after := plane_after
|}.

Definition plane_start : plane :=
  {| pos := (0%Q, 0%Q); running := true;
     draws := [1 # 10; 1 # 2; 9 # 10]%Q |}.

Definition sample_move : Move :=
  {| target := ((3 # 10)%Q, (-(2 # 10))%Q); max_steps := 15;
     self_prev_direction := "down" |}.

End Keys.

(** ** src/modules/bot.py: rounds that solve the rune *)

Module BotRounds.
Import Bot.

(** A round that sets [solution_found]: the solver gave four arrows and one
    of the three polls found the buff icon. *)
Definition round_solves (r : round) : bool :=
  match frame r, solver_error r with
  | Some _, None =>
      (length (solution r) =? 4)%nat
      && (rune_buff r 0%nat || rune_buff r 1%nat || rune_buff r 2%nat)
  | _, _ => false
  end.

(** The events of one round: the arrows when the solver gave four, and the
    click on the buff icon when a poll found it. *)
Definition round_events (r : round) : list event :=
  if round_solves r then [EnterArrows (solution r); ClickBuff]
  else failed_round_events r.

(** The state the three polls leave when one of them finds the icon. *)
Definition clicked (s : State) : State :=
  set_attempts 0 (set_rune_active false (emit ClickBuff s)).

(** The state after the rounds [rs], none of which raises. *)
Definition after_rounds (rs : list round) (s : State) : State :=
  {| enabled := enabled s;
     rune_active := if existsb round_solves rs then false else rune_active s;
     attempts := if existsb round_solves rs then 0%Z else attempts s;
     events := events s ++ concat (map round_events rs) |}.

(** A round with a frame in which the second poll finds the icon. *)
Definition late_buff : round :=
  {| frame := Some 1%nat; solver_error := None;
     solution := ["left"; "left"; "up"; "down"];
     rune_buff := fun j => (j =? 1)%nat |}.

(** A round in which the solver answers with three arrows only. *)
Definition short_answer : round :=
  {| frame := Some 2%nat; solver_error := None; solution := ["up"; "up"; "up"];
     rune_buff := fun _ => true |}.

End BotRounds.
(** ** Properties of the cooldown tracker *)

Module CooldownFacts.
Import Cooldown.

Lemma zero_last_used_acc (cds : list (string * Q)) (m : gmap string Q) (k : string) :
  is_Some (m !! k) \/ k ∈ cds.*1 ->
  is_Some (foldl (fun m kv => <[fst kv := 0%Q]> m) m cds !! k).
Proof.
  revert m. induction cds as [|[k' c] cds IH]; intros m [H|H]; simpl.
  - exact H.
  - inversion H.
  - apply IH. left. destruct (decide (k' = k)) as [->|Hne].
    + rewrite lookup_insert_eq. eauto.
    + rewrite lookup_insert_ne; auto.
  - apply IH. simpl in H. apply elem_of_cons in H as [->|H].
    + left. rewrite lookup_insert_eq. eauto.
    + right. exact H.
Qed.

Lemma zero_last_used_value (cds : list (string * Q)) (m : gmap string Q) (k : string) :
  (forall t, m !! k = Some t -> t = 0%Q) ->
  forall t, foldl (fun m kv => <[fst kv := 0%Q]> m) m cds !! k = Some t -> t = 0%Q.
Proof.
  revert m. induction cds as [|[k' c] cds IH]; intros m Hm t; simpl.
  - apply Hm.
  - apply IH. intros t'. destruct (decide (k' = k)) as [->|Hne].
    + rewrite lookup_insert_eq. congruence.
    + rewrite lookup_insert_ne; auto.
Qed.

Lemma init_covered (cds : list (string * Q)) : covered cds (last_used (init cds)).
Proof.
  intros [k c] Hin. unfold init, zero_last_used. simpl.
  apply zero_last_used_acc. right.
  apply list_elem_of_fmap. exists (k, c). auto.
Qed.

Lemma init_last_used (cds : list (string * Q)) (k : string) (c : Q) :
  (k, c) ∈ cds -> last_used (init cds) !! k = Some 0%Q.
Proof.
  intros Hin. destruct (init_covered cds (k, c) Hin) as [t Ht].
  unfold init, zero_last_used in *. simpl in *.
  rewrite Ht. f_equal.
  eapply (zero_last_used_value cds ∅ k); [|exact Ht].
  intros t'. rewrite lookup_empty. discriminate.
Qed.

Lemma record_used_covered items key now tr :
  covered items (last_used tr) -> covered items (last_used (record_used key now tr)).
Proof.
  intros H kv Hin. simpl. destruct (decide (key = fst kv)) as [->|Hne].
  - rewrite lookup_insert_eq. eauto.
  - rewrite lookup_insert_ne; auto.
Qed.

Lemma foldl_record_cooldowns uses tr :
  cooldowns (foldl (fun tr u => record_used (fst u) (snd u) tr) tr uses) = cooldowns tr.
Proof.
  revert tr. induction uses as [|u uses IH]; intros tr; simpl; [reflexivity|].
  rewrite IH. reflexivity.
Qed.

Lemma foldl_record_covered items uses tr :
  covered items (last_used tr) ->
  covered items (last_used (foldl (fun tr u => record_used (fst u) (snd u) tr) tr uses)).
Proof.
  revert tr. induction uses as [|u uses IH]; intros tr H; simpl; [exact H|].
  apply IH. apply record_used_covered. exact H.
Qed.

Lemma foldl_record_other uses tr k :
  (forall u, u ∈ uses -> fst u <> k) ->
  last_used (foldl (fun tr u => record_used (fst u) (snd u) tr) tr uses) !! k
  = last_used tr !! k.
Proof.
  revert tr. induction uses as [|u uses IH]; intros tr H; simpl; [reflexivity|].
  rewrite IH.
  - simpl. apply lookup_insert_ne. apply H. left.
  - intros u' Hu'. apply H. right. exact Hu'.
Qed.

Lemma run_cooldowns cds uses : cooldowns (run cds uses) = cds.
Proof. unfold run. rewrite foldl_record_cooldowns. reflexivity. Qed.

Lemma run_covered cds uses : covered cds (last_used (run cds uses)).
Proof. unfold run. apply foldl_record_covered, init_covered. Qed.

(** The loop never raises on a covered table and computes a filter. *)
Lemma get_available_loop_filter items lu now out :
  covered items lu ->
  get_available_loop items lu now out
  = Ok (out ++ (List.filter (off_cooldown lu now) items).*1).
Proof.
  revert out. induction items as [|[k c] items IH]; intros out Hcov; simpl.
  - rewrite app_nil_r. reflexivity.
  - assert (Hrest : covered items lu).
    { intros kv Hin. apply Hcov. right. exact Hin. }
    unfold off_cooldown at 1. simpl.
    destruct (Qle_bool c 0) eqn:Hc; simpl.
    + rewrite IH by exact Hrest. rewrite <- app_assoc. reflexivity.
    + destruct (Hcov (k, c)) as [t Ht]; [left|]. simpl in Ht. rewrite Ht.
      destruct (Qle_bool c (now - t)); simpl.
      * rewrite IH by exact Hrest. rewrite <- app_assoc. reflexivity.
      * apply IH. exact Hrest.
Qed.

Lemma get_available_filter now tr :
  covered (cooldowns tr) (last_used tr) ->
  get_available now tr
  = Ok (List.filter (off_cooldown (last_used tr) now) (cooldowns tr)).*1.
Proof. intros H. unfold get_available. rewrite get_available_loop_filter; auto. Qed.

Lemma elem_of_available_keys items lu now k :
  k ∈ (List.filter (off_cooldown lu now) items).*1 <->
  exists c, (k, c) ∈ items /\ off_cooldown lu now (k, c) = true.
Proof.
  rewrite list_elem_of_fmap. split.
  - intros [[k' c] [-> Hin]]. apply list_elem_of_In, filter_In in Hin as [Hin Hoff].
    exists c. split; [apply list_elem_of_In|]; assumption.
  - intros [c [Hin Hoff]]. exists (k, c). split; [reflexivity|].
    apply list_elem_of_In, filter_In. split; [apply list_elem_of_In|]; assumption.
Qed.

Lemma NoDup_fst_unique (items : list (string * Q)) k c c' :
  NoDup items.*1 -> (k, c) ∈ items -> (k, c') ∈ items -> c = c'.
Proof.
  induction items as [|[k0 c0] items IH]; intros Hnd H1 H2.
  - inversion H1.
  - simpl in Hnd. apply NoDup_cons in Hnd as [Hnotin Hnd].
    apply elem_of_cons in H1 as [H1|H1]; apply elem_of_cons in H2 as [H2|H2].
    + congruence.
    + exfalso. apply Hnotin. inversion H1; subst.
      apply list_elem_of_fmap. exists (k0, c'). auto.
    + exfalso. apply Hnotin. inversion H2; subst.
      apply list_elem_of_fmap. exists (k0, c). auto.
    + apply IH; assumption.
Qed.

Lemma filter_all {A : Type} (P : A -> bool) (l : list A) :
  (forall x, x ∈ l -> P x = true) -> List.filter P l = l.
Proof.
  induction l as [|x l IH]; intros H; simpl; [reflexivity|].
  rewrite H by left. rewrite IH; [reflexivity|].
  intros y Hy. apply H. right. exact Hy.
Qed.

Lemma available_iff now tr k :
  covered (cooldowns tr) (last_used tr) ->
  available now tr k <->
  exists c, (k, c) ∈ cooldowns tr /\ off_cooldown (last_used tr) now (k, c) = true.
Proof.
  intros Hcov. unfold available. rewrite get_available_filter by exact Hcov.
  rewrite <- elem_of_available_keys. split.
  - intros [out [Heq Hin]]. inversion Heq; subst. exact Hin.
  - intros Hin. eexists. split; [reflexivity|exact Hin].
Qed.

Lemma off_cooldown_nonpositive lu now k c :
  (c <= 0)%Q -> off_cooldown lu now (k, c) = true.
Proof.
  intros Hc. unfold off_cooldown. simpl.
  apply Qle_bool_iff in Hc. rewrite Hc. reflexivity.
Qed.

Lemma off_cooldown_used lu now k c t :
  lu !! k = Some t ->
  off_cooldown lu now (k, c) = true <-> (c <= 0)%Q \/ (c <= now - t)%Q.
Proof.
  intros Ht. unfold off_cooldown. simpl. rewrite Ht.
  rewrite orb_true_iff, !Qle_bool_iff. reflexivity.
Qed.

(** C10: right after [CooldownTracker(cooldowns)] every [last_used] entry is
    0.0, so as soon as the clock reading is at least every cooldown of the
    table, [get_available()] returns all keys of the table, in table order:
    a skill with a positive cooldown needs no first use. *)
Theorem init_all_available (cds : list (string * Q)) (now : Q) :
  (forall k cd, (k, cd) ∈ cds -> (cd <= now)%Q) ->
  get_available now (init cds) = Ok cds.*1.
Proof.
  intros Hnow. rewrite get_available_filter by apply init_covered.
  change (cooldowns (init cds)) with cds. rewrite filter_all; [reflexivity|].
  intros [k c] Hin.
  apply (off_cooldown_used _ now k c 0%Q (init_last_used cds k c Hin)).
  right. specialize (Hnow k c Hin). lra.
Qed.

Lemma init_all_available_witness :
  get_available 10%Q (init [("strike", 0%Q); ("burst", 5%Q); ("nova", 10%Q)])
  = Ok ["strike"; "burst"; "nova"].
Proof.
  apply (init_all_available [("strike", 0%Q); ("burst", 5%Q); ("nova", 10%Q)] 10%Q).
  intros k cd Hin.
  repeat (apply elem_of_cons in Hin as [Hin|Hin];
          [inversion Hin; subst; vm_compute; discriminate|]).
  inversion Hin.
Defined.

(** C4: for a key [k] of a table whose cooldowns are not negative (the
    docstring: seconds, 0 = no cooldown), with cooldown [cd],
    (1) if [cd = 0] then [k] is available at every time, whatever was
    recorded before;
    (2) right after [record_used(k)], at the same clock reading, [k] is
    not available unless [cd = 0];
    (3) once [now - t >= cd] for the time [t] of the last [record_used(k)],
    [k] is available again, whatever other keys were used meanwhile. *)
Theorem cooldown_availability (cds uses : list (string * Q)) (k : string) (cd : Q) :
  NoDup cds.*1 ->
  (k, cd) ∈ cds ->
  (0 <= cd)%Q ->
  ((cd == 0)%Q -> forall now, available now (run cds uses) k)
  /\ (forall t, exists out,
        get_available t (record_used k t (run cds uses)) = Ok out
        /\ (k ∈ out <-> (cd == 0)%Q))
  /\ (forall t later now,
        (forall u, u ∈ later -> fst u <> k) ->
        (cd <= now - t)%Q ->
        available now
          (foldl (fun tr u => record_used (fst u) (snd u) tr)
             (record_used k t (run cds uses)) later) k).
Proof.
  intros Hnd Hin Hpos. split; [|split].
  - intros Hcd now. apply available_iff.
    + rewrite run_cooldowns. apply run_covered.
    + exists cd. rewrite run_cooldowns. split; [exact Hin|].
      apply off_cooldown_nonpositive. lra.
  - intros t.
    assert (Hcov : covered (cooldowns (record_used k t (run cds uses)))
                     (last_used (record_used k t (run cds uses)))).
    { apply record_used_covered. simpl. rewrite run_cooldowns. apply run_covered. }
    rewrite get_available_filter by exact Hcov.
    eexists. split; [reflexivity|].
    rewrite elem_of_available_keys. simpl. rewrite run_cooldowns. split.
    + intros [c [Hc Hoff]].
      assert (c = cd) as -> by (eapply NoDup_fst_unique; eassumption).
      apply (off_cooldown_used _ t k cd t) in Hoff.
      * destruct Hoff as [H|H]; lra.
      * apply lookup_insert_eq.
    + intros Hcd. exists cd. split; [exact Hin|].
      apply off_cooldown_nonpositive. lra.
  - intros t later now Hother Hel.
    apply available_iff.
    + rewrite foldl_record_cooldowns. apply foldl_record_covered.
      apply record_used_covered. simpl. rewrite run_cooldowns. apply run_covered.
    + exists cd. rewrite foldl_record_cooldowns. simpl. rewrite run_cooldowns.
      split; [exact Hin|].
      apply (off_cooldown_used _ now k cd t).
      * rewrite foldl_record_other by exact Hother. simpl. apply lookup_insert_eq.
      * right. exact Hel.
Qed.

Lemma cooldown_availability_witness :
  exists out,
    get_available 7%Q (record_used "burst" 7%Q (run [("strike", 0%Q); ("burst", 5%Q)] []))
    = Ok out /\ ("burst" ∈ out <-> (5 == 0)%Q).
Proof.
  assert (Hnd : NoDup [("strike", 0%Q); ("burst", 5%Q)].*1)
    by (apply (bool_decide_unpack _); vm_compute; exact I).
  assert (Hin : ("burst", 5%Q) ∈ [("strike", 0%Q); ("burst", 5%Q)])
    by (right; left).
  assert (Hpos : (0 <= 5)%Q) by (vm_compute; discriminate).
  exact (proj1 (proj2 (cooldown_availability
            [("strike", 0%Q); ("burst", 5%Q)] [] "burst" 5%Q Hnd Hin Hpos)) 7%Q).
Defined.

End CooldownFacts.
(** ** Properties of the routine elements *)

Module ComponentsFacts.
Import Components Samples.

(** *** Strings and the encoding loop *)

Lemma append_cons (ch : ascii) (a b : string) :
  String ch a +:+ b = String ch (a +:+ b).
Proof. reflexivity. Qed.

Lemma append_assoc (a b c : string) : (a +:+ b) +:+ c = a +:+ (b +:+ c).
Proof.
  induction a as [|ch a IH]; [reflexivity|].
  rewrite !append_cons, IH. reflexivity.
Qed.

Lemma append_nil_r (a : string) : a +:+ "" = a.
Proof.
  induction a as [|ch a IH]; [reflexivity|].
  rewrite append_cons, IH. reflexivity.
Qed.

Lemma concat_cons (p : string) (parts : list string) :
  String.concat "" (p :: parts) = p +:+ String.concat "" parts.
Proof. destruct parts; simpl; [rewrite append_nil_r|]; reflexivity. Qed.

(** [sep.join] of a non-empty list puts [sep] in front of every part but
    the first. *)
Lemma join_cons (sep p : string) (parts : list string) :
  join sep (p :: parts) = p +:+ String.concat "" (map (fun q => sep +:+ q) parts).
Proof.
  revert p. induction parts as [|q parts IH]; intros p.
  - simpl. rewrite append_nil_r. reflexivity.
  - change (join sep (p :: q :: parts)) with (p +:+ sep +:+ join sep (q :: parts)).
    rewrite IH. rewrite map_cons, concat_cons, append_assoc. reflexivity.
Qed.

Section Encoding.
Context `{Builtins}.

Lemma encode_loop_items (kwargs : dict) (arr : list string) :
  encode_loop kwargs arr = arr ++ map item (List.filter encoded kwargs).
Proof.
  revert arr. induction kwargs as [|kv kwargs IH]; intros arr; simpl.
  - rewrite app_nil_r. reflexivity.
  - unfold encode_loop in *. simpl. rewrite IH. unfold encoded at 2.
    destruct (negb (String.eqb (fst kv) "id") && is_primitive (snd kv)); simpl.
    + rewrite <- app_assoc. reflexivity.
    + reflexivity.
Qed.

Lemma Component_encode_items (id : string) (kwargs : dict) :
  Component_encode id kwargs
  = id +:+ String.concat ""
             (map (fun it => ", " +:+ it) (map item (List.filter encoded kwargs))).
Proof.
  unfold Component_encode. rewrite encode_loop_items. simpl. apply join_cons.
Qed.

End Encoding.

(** *** Execution *)

Section Execution.
Context `{CommandBook}.

Lemma point_increment_enabled (p : Point.t) (w : World) :
  enabled w = true ->
  Point._increment_counter (p, w)
  = match py_mod (Point.counter p + 1) (Point.frequency p) with
    | Ok c => ((Point.set_counter c p, w), Ok tt)
    | Raise e => ((p, w), Raise e)
    end.
Proof.
  intros Hen. unfold Point._increment_counter, run_if_enabled. simpl.
  rewrite Hen. unfold mbind, M_bind, m_bind, m_get, m_lift. simpl.
  destruct (py_mod _ _); reflexivity.
Qed.

Lemma jump_increment_enabled (j : Jump.t) (w : World) :
  enabled w = true ->
  Jump._increment_counter (j, w)
  = match py_mod (Jump.counter j + 1) (Jump.frequency j) with
    | Ok c => ((Jump.set_counter c j, w), Ok tt)
    | Raise e => ((j, w), Raise e)
    end.
Proof.
  intros Hen. unfold Jump._increment_counter, run_if_enabled. simpl.
  rewrite Hen. unfold mbind, M_bind, m_bind, m_get, m_lift. simpl.
  destruct (py_mod _ _); reflexivity.
Qed.

Lemma py_mod_positive (a b : Z) :
  (1 <= b)%Z -> py_mod a b = Ok (a mod Z.max b 1)%Z /\ (0 <= a mod Z.max b 1 < Z.max b 1)%Z.
Proof.
  intros Hb. unfold py_mod. rewrite Z.max_l by lia.
  destruct (Z.eqb_spec b 0); [lia|]. split; [reflexivity|].
  apply Z.mod_pos_bound. lia.
Qed.

(** C1 (amended): for a Point and for a Jump whose [frequency] is at least
    1, the increment made while the bot is enabled sets [counter] to
    [(counter + 1) mod frequency], which is [mod max(frequency, 1)]; it
    does not raise, and the new counter lies in [0, max(frequency, 1)). *)
Theorem increment_counter_wraps (w : World) :
  enabled w = true ->
  (forall p : Point.t, (1 <= Point.frequency p)%Z ->
     let c := ((Point.counter p + 1) mod Z.max (Point.frequency p) 1)%Z in
     Point._increment_counter (p, w) = ((Point.set_counter c p, w), Ok tt)
     /\ (0 <= c < Z.max (Point.frequency p) 1)%Z)
  /\ (forall j : Jump.t, (1 <= Jump.frequency j)%Z ->
     let c := ((Jump.counter j + 1) mod Z.max (Jump.frequency j) 1)%Z in
     Jump._increment_counter (j, w) = ((Jump.set_counter c j, w), Ok tt)
     /\ (0 <= c < Z.max (Jump.frequency j) 1)%Z).
Proof.
  intros Hen. split.
  - intros p Hf c. rewrite point_increment_enabled by exact Hen.
    destruct (py_mod_positive (Point.counter p + 1) (Point.frequency p) Hf) as [-> Hr].
    split; [reflexivity|exact Hr].
  - intros j Hf c. rewrite jump_increment_enabled by exact Hen.
    destruct (py_mod_positive (Jump.counter j + 1) (Jump.frequency j) Hf) as [-> Hr].
    split; [reflexivity|exact Hr].
Qed.

(** C2 (amended): executing a Jump whose [link] is [None] never raises,
    leaves the cursor where it is, prints the diagnostic when the bot is
    enabled, and leaves the Jump, its [counter] included, as it was. *)
Theorem unbound_jump_is_noop (j : Jump.t) (w : World) :
  Jump.link j = None ->
  exists w',
    execute (EJump j) w = ((EJump j, w'), Ok tt)
    /\ routine_index w' = routine_index w
    /\ enabled w' = enabled w
    /\ stdout w' = (if enabled w
                    then stdout w ++ [Jump.missing_label (Jump.label j)]
                    else stdout w).
Proof.
  intros Hlink. unfold execute, as_element, Component_execute, run_if_enabled.
  simpl. destruct (enabled w) eqn:Hen.
  - unfold Jump.main, mbind, M_bind, m_bind, m_get. simpl. rewrite Hlink.
    eexists. split; [reflexivity|]. simpl. auto.
  - exists w. rewrite Hen. auto.
Qed.

(** The actions of a Point write the world only. *)

Lemma keeps_self_ret {O A : Type} (a : A) : keeps_self (O := O) (m_ret a).
Proof. intros s s' r Hm. unfold m_ret in Hm. congruence. Qed.

Lemma keeps_self_lift {O A : Type} (x : result A) : keeps_self (O := O) (m_lift x).
Proof. intros s s' r Hm. unfold m_lift in Hm. congruence. Qed.

Lemma keeps_self_on_world {O : Type} (f : World -> World) :
  keeps_self (O := O) (on_world f).
Proof.
  intros s s' r Hm. unfold on_world, m_set in Hm. inversion Hm. reflexivity.
Qed.

Lemma keeps_self_bind {O A B : Type} (m : M (O * World) A) (k : A -> M (O * World) B) :
  keeps_self m -> (forall a, keeps_self (k a)) -> keeps_self (m ≫= k).
Proof.
  intros Hm Hk s s' r Hr. unfold mbind, M_bind, m_bind in Hr.
  destruct (m s) as [s1 [a|e]] eqn:E.
  - rewrite (Hk a s1 s' r Hr). eapply Hm, E.
  - inversion Hr; subst. eapply Hm, E.
Qed.

Lemma keeps_self_run_if_enabled {O : Type} (m : M (O * World) unit) :
  keeps_self m -> keeps_self (run_if_enabled m).
Proof.
  intros Hm s s' r Hr. unfold run_if_enabled in Hr.
  destruct (config_enabled s); [eapply Hm, Hr|congruence].
Qed.

Lemma keeps_self_settings_attr {O : Type} (name : string) :
  keeps_self (O := O) (settings_attr name).
Proof.
  intros s s' r Hr. unfold settings_attr, mbind, M_bind, m_bind, m_get in Hr.
  destruct (settings (snd s) !! name); unfold m_ret, m_lift in Hr; congruence.
Qed.

Create HintDb keeps discriminated.
#[local] Hint Resolve keeps_self_ret keeps_self_lift keeps_self_on_world
  keeps_self_run_if_enabled keeps_self_settings_attr : keeps.

Lemma keeps_self_command_execute {O : Type} (c : command) :
  keeps_self (O := O) (command_execute c).
Proof. unfold command_execute. auto with keeps. Qed.

#[local] Hint Resolve keeps_self_command_execute : keeps.

Lemma keeps_self_execute_commands (cs : list command) :
  keeps_self (Point.execute_commands cs).
Proof.
  induction cs as [|c cs IH]; simpl; [auto with keeps|].
  apply keeps_self_bind; auto with keeps.
Qed.

#[local] Hint Resolve keeps_self_execute_commands : keeps.

(** Pausing in the middle of a Point: if the bot is disabled when
    [Point.main] is over (a command cleared the flag, or another loop did),
    the Point is as it was, its counter included. *)
Lemma paused_point_keeps_counter (p p' : Point.t) (w w' : World) (r : result unit) :
  Point.main (p, w) = ((p', w'), r) ->
  enabled w' = false ->
  p' = p.
Proof.
  unfold Point.main. intros Hm Hoff.
  unfold mbind at 1, M_bind at 1, m_bind at 1, m_get at 1 in Hm.
  unfold mbind at 1, M_bind at 1, m_bind at 1 in Hm.
  match type of Hm with
  | context [match ?acts (p, w) with _ => _ end] =>
      assert (Hk : keeps_self acts); [|destruct (acts (p, w)) as [[p1 w1] [u|e]] eqn:E]
  end.
  - simpl fst. destruct (Point.counter p =? 0)%Z; [|auto with keeps].
    repeat (apply keeps_self_bind; [auto with keeps|intros ?]).
    + destruct (Point.adjust p); auto with keeps.
    + destruct (py_truthy _).
      * apply keeps_self_bind; auto with keeps.
      * destruct (Point.commands p); auto with keeps.
  - apply Hk in E. simpl in E. subst p1.
    unfold Point._increment_counter, run_if_enabled in Hm. simpl in Hm.
    destruct (enabled w1) eqn:Hen; [|congruence].
    unfold mbind, M_bind, m_bind, m_get, m_lift, on_self, m_set in Hm. simpl in Hm.
    destruct (py_mod _ _); inversion Hm; subst; congruence.
  - apply Hk in E. simpl in E. inversion Hm; subst. reflexivity.
Qed.

(** C5: while [config.enabled] is false, executing a routine element does
    nothing at all: the element and the world, cursor included, are
    returned as they were, and the counter increments of Point and Jump
    are skipped. *)
Theorem disabled_execute_is_noop (e : element) (w : World) :
  enabled w = false ->
  execute e w = ((e, w), Ok tt)
  /\ (forall p : Point.t, Point._increment_counter (p, w) = ((p, w), Ok tt))
  /\ (forall j : Jump.t, Jump._increment_counter (j, w) = ((j, w), Ok tt)).
Proof.
  intros Hen. split; [|split].
  - destruct e; unfold execute, as_element, Component_execute, run_if_enabled;
      simpl; rewrite Hen; reflexivity.
  - intros p. unfold Point._increment_counter, run_if_enabled. simpl.
    rewrite Hen. reflexivity.
  - intros j. unfold Jump._increment_counter, run_if_enabled. simpl.
    rewrite Hen. reflexivity.
Qed.

End Execution.

(** *** Construction, update and encoding *)

Section Construction.
Context `{Builtins} `{SettingsModule}.

Ltac run_init Hc :=
  cbn in Hc; repeat (case_match; simplify_eq; cbn in * ); try discriminate.

Lemma point_call_kwargs args kwargs s s' :
  Point.call args kwargs s = (s', Ok tt) ->
  (Point.kwargs s').*1 = Point.params.*1.
Proof.
  unfold Point.call, Point.__init__, mbind, M_bind, m_bind, m_lift, m_set, m_get, m_ret.
  intros Hc.
  destruct (call_args Point.params args kwargs) as [bound|]; [|discriminate].
  destruct bound as [|[? x] [|[? y] [|[? f] [|[? sk] [|[? ad] [|? ?]]]]]];
    try discriminate.
  run_init Hc; reflexivity.
Qed.

Lemma label_call_kwargs taken args kwargs s s' :
  Label.call taken args kwargs s = (s', Ok tt) ->
  (Label.kwargs s').*1 = Label.params.*1.
Proof.
  unfold Label.call, Label.__init__, mbind, M_bind, m_bind, m_lift, m_set, m_get, m_ret.
  intros Hc.
  destruct (call_args Label.params args kwargs) as [bound|]; [|discriminate].
  destruct bound as [|[? l] [|? ?]]; try discriminate.
  run_init Hc; reflexivity.
Qed.

Lemma jump_call_kwargs args kwargs s s' :
  Jump.call args kwargs s = (s', Ok tt) ->
  (Jump.kwargs s').*1 = Jump.params.*1.
Proof.
  unfold Jump.call, Jump.__init__, mbind, M_bind, m_bind, m_lift, m_set, m_get, m_ret.
  intros Hc.
  destruct (call_args Jump.params args kwargs) as [bound|]; [|discriminate].
  destruct bound as [|[? l] [|[? f] [|[? sk] [|? ?]]]]; try discriminate.
  run_init Hc; reflexivity.
Qed.

Lemma setting_call_kwargs args kwargs s s' :
  Setting.call args kwargs s = (s', Ok tt) ->
  (Setting.kwargs s').*1 = Setting.params.*1.
Proof.
  unfold Setting.call, Setting.__init__, mbind, M_bind, m_bind, m_lift, m_set, m_get, m_ret.
  intros Hc.
  destruct (call_args Setting.params args kwargs) as [bound|]; [|discriminate].
  destruct bound as [|[? tg] [|[? v] [|? ?]]]; try discriminate.
  run_init Hc; reflexivity.
Qed.

(** A constructed element carries its arguments under the parameter
    names, in the order of the parameter list. *)
Lemma constructed_kwargs_order w args kwargs e e' :
  construct w args kwargs e = Ok e' ->
  (element_kwargs e').*1 = (class_params e).*1.
Proof.
  destruct e; simpl; intros Hc.
  - destruct (Point.call args kwargs Point.blank) as [p' [[]|]] eqn:E; simplify_eq.
    simpl. eapply point_call_kwargs, E.
  - destruct (Label.call (label_taken w) args kwargs Label.blank) as [l' [[]|]] eqn:E;
      simplify_eq. simpl. eapply label_call_kwargs, E.
  - destruct (Jump.call args kwargs Jump.blank) as [j' [[]|]] eqn:E; simplify_eq.
    simpl. eapply jump_call_kwargs, E.
  - destruct (Setting.call args kwargs Setting.blank) as [s' [[]|]] eqn:E; simplify_eq.
    simpl. eapply setting_call_kwargs, E.
Qed.

(** C7 (amended): [encode()] renders the symbol followed, for each
    constructor argument of primitive type whose key is not ['id'], by a
    comma, a space and [key=value] (the comma-and-space join of the symbol
    and the items), in the order of [kwargs]; a Label's encoding is the same
    text after a newline.  The [kwargs] of a constructed element are its
    parameters in definition order. *)
Theorem encode_renders_primitive_kwargs (e : element) :
  encode e
  = (match e with ELabel _ => nl | _ => "" end)
    +:+ symbol e
    +:+ String.concat ""
          (map (fun kv => ", " +:+ fst kv +:+ "=" +:+ py_str (snd kv))
             (List.filter encoded (element_kwargs e)))
  /\ forall w args kwargs e',
       construct w args kwargs e = Ok e' ->
       (element_kwargs e').*1 = (class_params e).*1.
Proof.
  split.
  - assert (Hmap : forall l : dict,
               map (fun it => ", " +:+ it) (map item l)
               = map (fun kv => ", " +:+ fst kv +:+ "=" +:+ py_str (snd kv)) l).
    { intros l. rewrite map_map. reflexivity. }
    destruct e; unfold encode, Label.encode; rewrite Component_encode_items, Hmap;
      reflexivity.
  - intros w args kwargs e'. apply constructed_kwargs_order.
Qed.

(** The first line of [update] shields the object, whatever its class. *)
Lemma Component_update_atomic {O : Type} (blank self o : O) (call : M O unit)
  (err : exn) :
  call blank = (o, Raise err) ->
  Component_update blank call self = (self, Raise err).
Proof. intros Hc. unfold Component_update. rewrite Hc. reflexivity. Qed.

(** C9: when the constructor call on the throwaway object raises, [update]
    raises the same exception and the component it was called on is
    exactly what it was: [kwargs] and every field. *)
Theorem failed_update_changes_nothing (w : World) (args : list pyval)
  (kwargs : dict) (e : element) (err : exn) :
  construct w args kwargs e = Raise err ->
  update w args kwargs e = (e, Raise err).
Proof.
  destruct e; unfold construct, update; intros Hc.
  - destruct (Point.call args kwargs Point.blank) as [o [u|e0]] eqn:E; simplify_eq.
    rewrite (Component_update_atomic _ _ _ _ _ E). reflexivity.
  - destruct (Label.call (label_taken w) args kwargs Label.blank) as [o [u|e0]] eqn:E;
      simplify_eq.
    rewrite (Component_update_atomic _ _ _ _ _ E). reflexivity.
  - destruct (Jump.call args kwargs Jump.blank) as [o [u|e0]] eqn:E; simplify_eq.
    rewrite (Component_update_atomic _ _ _ _ _ E). reflexivity.
  - destruct (Setting.call args kwargs Setting.blank) as [o [u|e0]] eqn:E; simplify_eq.
    rewrite (Component_update_atomic _ _ _ _ _ E). reflexivity.
Qed.

(** When the validation call succeeds, [update] is [__init__] on the live
    object. *)
Lemma validated_update_reinits w args kwargs e e' :
  construct w args kwargs e = Ok e' ->
  update w args kwargs e = reinit w args kwargs e.
Proof.
  destruct e; unfold construct, update, reinit, Component_update; intros Hc.
  - destruct (Point.call args kwargs Point.blank) as [o [u|e0]]; simplify_eq.
    reflexivity.
  - destruct (Label.call (label_taken w) args kwargs Label.blank) as [o [u|e0]];
      simplify_eq. reflexivity.
  - destruct (Jump.call args kwargs Jump.blank) as [o [u|e0]]; simplify_eq.
    reflexivity.
  - destruct (Setting.call args kwargs Setting.blank) as [o [u|e0]]; simplify_eq.
    reflexivity.
Qed.

(** The construction errors the specification names. *)
Lemma duplicate_label_raises w name (l : Label.t) :
  label_taken w (py_str name) = true ->
  construct w [name] [] (ELabel l) = Raise ValueError.
Proof.
  intros Ht. unfold construct, Label.call, Label.__init__,
    mbind, M_bind, m_bind, m_lift, m_set, m_get, m_ret.
  cbn. rewrite Ht. reflexivity.
Qed.

Lemma unknown_setting_raises w target value (s : Setting.t) :
  SETTING_VALIDATORS (py_str target) = None ->
  construct w [target; value] [] (ESetting s) = Raise ValueError.
Proof.
  intros Hk. unfold construct, Setting.call, Setting.__init__,
    mbind, M_bind, m_bind, m_lift, m_set, m_get, m_ret.
  cbn. rewrite Hk. reflexivity.
Qed.

Lemma missing_argument_raises w (p : Point.t) x :
  construct w [x] [] (EPoint p) = Raise TypeError.
Proof. reflexivity. Qed.

End Construction.

(** *** The model on concrete routines *)

Ltac evaluate :=
  repeat match goal with |- _ /\ _ => split end;
  vm_compute; try reflexivity; try discriminate.

Lemma increment_counter_wraps_witness :
  Point._increment_counter (point_every_second, running_world)
  = ((Point.set_counter 1 point_every_second, running_world), Ok tt)
  /\ (0 <= 1 < 2)%Z.
Proof.
  exact (proj1 (increment_counter_wraps running_world eq_refl)
           point_every_second ltac:(vm_compute; discriminate)).
Defined.

(** C1 as stated fails at frequency 0: the constructor accepts it, and the
    increment computes [% 0], which raises instead of wrapping modulo
    [max(0, 1)] and leaving the counter at 0.  The same holds for a Jump. *)
Lemma zero_frequency_increment_raises :
  snd (Point.call [VInt 0; VInt 0; VInt 0] [] Point.blank) = Ok tt
  /\ Point.frequency point_zero_frequency = 0%Z
  /\ Point._increment_counter (point_zero_frequency, running_world)
     = ((point_zero_frequency, running_world), Raise ZeroDivisionError)
  /\ Point._increment_counter (point_zero_frequency, running_world)
     <> ((Point.set_counter
            ((Point.counter point_zero_frequency + 1)
             mod Z.max (Point.frequency point_zero_frequency) 1)
            point_zero_frequency, running_world), Ok tt)
  /\ @execute idle_book (EPoint point_zero_frequency) running_world
     = ((EPoint point_zero_frequency, running_world), Raise ZeroDivisionError)
  /\ Jump._increment_counter
       (Jump.set_frequency 0 jump_unbound, running_world)
     = ((Jump.set_frequency 0 jump_unbound, running_world), Raise ZeroDivisionError).
Proof. evaluate. Qed.

Lemma unbound_jump_is_noop_witness :
  exists w',
    @execute idle_book (EJump jump_unbound) running_world
    = ((EJump jump_unbound, w'), Ok tt)
    /\ routine_index w' = routine_index running_world
    /\ enabled w' = enabled running_world
    /\ stdout w' = [Jump.missing_label "a"].
Proof.
  assert (Hl : Jump.link jump_unbound = None) by (vm_compute; reflexivity).
  exact (@unbound_jump_is_noop idle_book jump_unbound running_world Hl).
Defined.

(** C2 as stated fails: an enabled visit of an unbound Jump leaves its
    counter at 0, where the increment would have made it 1. *)
Lemma unbound_jump_keeps_counter :
  Jump.link jump_unbound = None
  /\ enabled running_world = true
  /\ fst (fst (@execute idle_book (EJump jump_unbound) running_world))
     = EJump jump_unbound
  /\ fst (fst (@execute idle_book (EJump jump_unbound) running_world))
     <> EJump (Jump.set_counter
                ((Jump.counter jump_unbound + 1)
                 mod Z.max (Jump.frequency jump_unbound) 1)
                jump_unbound)
  /\ Jump.counter jump_unbound = 0%Z
  /\ ((Jump.counter jump_unbound + 1) mod Z.max (Jump.frequency jump_unbound) 1 = 1)%Z.
Proof. evaluate. Qed.

Lemma disabled_execute_is_noop_witness :
  @execute idle_book (EPoint point_1_2) paused_world
  = ((EPoint point_1_2, paused_world), Ok tt).
Proof.
  exact (proj1 (@disabled_execute_is_noop idle_book (EPoint point_1_2)
                  paused_world eq_refl)).
Defined.

(** A Point whose commands stop the bot is not counted as visited: the
    increment that follows the commands is skipped. *)
Lemma pause_during_point_keeps_counter :
  @execute stopping_book (EPoint point_every_second) running_world
  = ((EPoint point_every_second, paused_world), Ok tt).
Proof. vm_compute. reflexivity. Qed.

Lemma encode_renders_primitive_kwargs_witness :
  encode (EPoint point_1_2)
  = "*, x=1, y=2, frequency=1, skip=False, adjust=False"
  /\ (element_kwargs (EPoint point_1_2)).*1
     = ["x"; "y"; "frequency"; "skip"; "adjust"].
Proof.
  destruct (encode_renders_primitive_kwargs (EPoint point_1_2)) as [Henc Hord].
  split.
  - rewrite Henc. vm_compute. reflexivity.
  - assert (Hc : construct running_world [VInt 1; VInt 2] [] (EPoint point_1_2)
                 = Ok (EPoint point_1_2)) by (vm_compute; reflexivity).
    exact (Hord running_world [VInt 1; VInt 2] [] (EPoint point_1_2) Hc).
Defined.

(** C7 as stated fails: the symbol is followed by a comma and a space, as
    every item is, not by a space alone. *)
Lemma encode_separates_symbol_by_comma :
  encode (EPoint point_1_2) = "*, x=1, y=2, frequency=1, skip=False, adjust=False"
  /\ spec_encode (symbol (EPoint point_1_2)) (element_kwargs (EPoint point_1_2))
     = "* x=1, y=2, frequency=1, skip=False, adjust=False"
  /\ encode (EPoint point_1_2)
     <> spec_encode (symbol (EPoint point_1_2)) (element_kwargs (EPoint point_1_2)).
Proof.
  split; [vm_compute; reflexivity|]. split; [vm_compute; reflexivity|].
  vm_compute. discriminate.
Qed.

Lemma failed_update_changes_nothing_witness :
  update running_world [VInt 5; VInt 6] [("frequency", VStr "often")] (EPoint point_1_2)
  = (EPoint point_1_2, Raise ValueError).
Proof.
  assert (Hc : construct running_world [VInt 5; VInt 6]
                 [("frequency", VStr "often")] (EPoint point_1_2)
               = Raise ValueError) by (vm_compute; reflexivity).
  exact (failed_update_changes_nothing running_world [VInt 5; VInt 6]
           [("frequency", VStr "often")] (EPoint point_1_2) ValueError Hc).
Defined.

(** Without the validation call the same arguments would leave the Point
    half rewritten: [kwargs], [x], [y] and [location] new, [frequency] old. *)
Lemma unvalidated_reinit_corrupts :
  exists p',
    reinit running_world [VInt 5; VInt 6] [("frequency", VStr "often")]
      (EPoint point_1_2) = (EPoint p', Raise ValueError)
    /\ Point.x p' = 5%Q /\ Point.frequency p' = 1%Z
    /\ dict_get "frequency" (Point.kwargs p') = Some (VStr "often").
Proof. eexists. evaluate. Qed.

End ComponentsFacts.
(** ** Properties of binary64 rounding *)

Module FloatFacts.
Import Float.

Lemma pow2_pos (e : Z) : (0 < pow2 e)%Q.
Proof. apply Qpower_0_lt. reflexivity. Qed.

Lemma pow2_add (a b : Z) : (pow2 (a + b) == pow2 a * pow2 b)%Q.
Proof. apply Qpower_plus. discriminate. Qed.

Lemma pow2_le (a b : Z) : (a <= b)%Z -> (pow2 a <= pow2 b)%Q.
Proof. intros H. apply Qpower_le_compat_l; [exact H|discriminate]. Qed.

Lemma pow2_lt (a b : Z) : (a < b)%Z -> (pow2 a < pow2 b)%Q.
Proof. intros H. apply Qpower_lt_compat_l; [exact H|reflexivity]. Qed.

Lemma pow2_lt_inv (a b : Z) : (pow2 a < pow2 b)%Q -> (a < b)%Z.
Proof. intros H. apply (Qpower_lt_compat_l_inv 2); [exact H|reflexivity]. Qed.

Lemma pow2_Z (e : Z) : (0 <= e)%Z -> (pow2 e == inject_Z (2 ^ e))%Q.
Proof. intros H. unfold pow2. rewrite Zpower_Qpower by exact H. reflexivity. Qed.

Lemma pow2_succ (e : Z) : (pow2 (e + 1) == 2 * pow2 e)%Q.
Proof. rewrite pow2_add. change (pow2 1) with (2 # 1)%Q. ring. Qed.

Lemma pow2_0 : (pow2 0 == 1)%Q.
Proof. reflexivity. Qed.

Lemma scale_back (q : Q) (s : Z) : (q / pow2 s * pow2 s == q)%Q.
Proof. field. pose proof (pow2_pos s). lra. Qed.

Lemma scale_le (x y : Q) (s : Z) : (x <= y)%Q -> (x / pow2 s <= y / pow2 s)%Q.
Proof.
  intros H. unfold Qdiv. apply Qmult_le_compat_r; [exact H|].
  apply Qinv_le_0_compat. apply Qlt_le_weak, pow2_pos.
Qed.

Lemma scale_pow2 (e s : Z) : (pow2 e / pow2 s == pow2 (e - s))%Q.
Proof. unfold pow2. rewrite Qpower_minus by discriminate. reflexivity. Qed.

(** Cross multiplication. *)
Lemma Qdiv_le_mul (a b c : Q) : (0 < c)%Q -> (a <= b * c)%Q -> (a / c <= b)%Q.
Proof. intros Hc H. apply Qle_shift_div_r; assumption. Qed.

Lemma ilog2_spec (q : Q) :
  (0 < q)%Q -> (pow2 (ilog2 q) <= q)%Q /\ (q < pow2 (ilog2 q + 1))%Q.
Proof.
  intros Hq. destruct q as [n d]. unfold ilog2. cbn [Qnum Qden].
  assert (Hn : (0 < n)%Z).
  { unfold Qlt in Hq. cbn in Hq. lia. }
  set (a := Z.log2 n). set (b := Z.log2 (Z.pos d)).
  assert (Ha : (2 ^ a <= n < 2 ^ (a + 1))%Z).
  { unfold a. replace (Z.log2 n + 1)%Z with (Z.succ (Z.log2 n)) by lia.
    apply Z.log2_spec. exact Hn. }
  assert (Hb : (2 ^ b <= Z.pos d < 2 ^ (b + 1))%Z).
  { unfold b. replace (Z.log2 (Z.pos d) + 1)%Z with (Z.succ (Z.log2 (Z.pos d))) by lia.
    apply Z.log2_spec. lia. }
  assert (Ha0 : (0 <= a)%Z) by apply Z.log2_nonneg.
  assert (Hb0 : (0 <= b)%Z) by apply Z.log2_nonneg.
  assert (Hq' : (n # d == inject_Z n / inject_Z (Z.pos d))%Q) by apply Qmake_Qdiv.
  assert (HD : (0 < inject_Z (Z.pos d))%Q).
  { change 0%Q with (inject_Z 0). rewrite <- Zlt_Qlt. lia. }
  assert (HA1 : (pow2 a <= inject_Z n)%Q).
  { rewrite pow2_Z by exact Ha0. rewrite <- Zle_Qle. lia. }
  assert (HA2 : (inject_Z n < 2 * pow2 a)%Q).
  { rewrite <- pow2_succ. rewrite pow2_Z by lia. rewrite <- Zlt_Qlt. lia. }
  assert (HB1 : (pow2 b <= inject_Z (Z.pos d))%Q).
  { rewrite pow2_Z by exact Hb0. rewrite <- Zle_Qle. lia. }
  assert (HB2 : (inject_Z (Z.pos d) < 2 * pow2 b)%Q).
  { rewrite <- pow2_succ. rewrite pow2_Z by lia. rewrite <- Zlt_Qlt. lia. }
  pose proof (pow2_pos a) as Pa. pose proof (pow2_pos b) as Pb.
  assert (Hab : (pow2 (a - b) * pow2 b == pow2 a)%Q).
  { rewrite <- pow2_add. replace (a - b + b)%Z with a by lia. reflexivity. }
  pose proof (pow2_pos (a - b)) as Pab.
  set (N := inject_Z n) in *. set (D := inject_Z (Z.pos d)) in *.
  set (A := pow2 a) in *. set (B := pow2 b) in *. set (C := pow2 (a - b)) in *.
  assert (Hup : (N / D < 2 * C)%Q).
  { apply Qlt_shift_div_r; [exact HD|]. nra. }
  assert (Hlow : (C * (1 # 2) < N / D)%Q).
  { apply Qlt_shift_div_l; [exact HD|]. nra. }
  destruct (Qle_bool C (n # d)) eqn:E.
  - apply Qle_bool_iff in E. split; [exact E|].
    rewrite pow2_succ. fold C. rewrite Hq'. exact Hup.
  - assert (E' : ~ (C <= n # d)%Q).
    { intros Hc. apply Qle_bool_iff in Hc. congruence. }
    apply Qnot_le_lt in E'.
    assert (Hc1 : (pow2 (a - b - 1) * 2 == C)%Q).
    { unfold C. replace (a - b)%Z with ((a - b - 1) + 1)%Z at 2 by lia.
      rewrite pow2_succ. ring. }
    split.
    + rewrite Hq'. pose proof (pow2_pos (a - b - 1)). nra.
    + replace (a - b - 1 + 1)%Z with (a - b)%Z by lia. exact E'.
Qed.

Lemma ilog2_unique (q : Q) (e : Z) :
  (pow2 e <= q)%Q -> (q < pow2 (e + 1))%Q -> ilog2 q = e.
Proof.
  intros H1 H2.
  assert (Hq : (0 < q)%Q) by (pose proof (pow2_pos e); lra).
  destruct (ilog2_spec q Hq) as [L1 L2].
  assert (Ha : (ilog2 q < e + 1)%Z) by (apply pow2_lt_inv; lra).
  assert (Hb : (e < ilog2 q + 1)%Z) by (apply pow2_lt_inv; lra).
  lia.
Qed.

Lemma ilog2_comp (x y : Q) : (0 < x)%Q -> (x == y)%Q -> ilog2 x = ilog2 y.
Proof.
  intros Hx Hxy. symmetry. apply ilog2_unique;
    destruct (ilog2_spec x Hx); rewrite <- Hxy; assumption.
Qed.

Lemma ilog2_le (x y : Q) : (0 < x)%Q -> (x <= y)%Q -> (ilog2 x <= ilog2 y)%Z.
Proof.
  intros Hx Hxy.
  destruct (ilog2_spec x Hx) as [L1 _].
  destruct (ilog2_spec y) as [_ L2]; [lra|].
  assert (H : (ilog2 x < ilog2 y + 1)%Z) by (apply pow2_lt_inv; lra).
  lia.
Qed.

Lemma ilog2_pow2 (e : Z) : ilog2 (pow2 e) = e.
Proof. apply ilog2_unique; [apply Qle_refl|apply pow2_lt; lia]. Qed.

(** *** Rounding to an integer *)

Lemma nearest_even_cases (q : Q) :
  (nearest_even q = Qfloor q /\ q - inject_Z (Qfloor q) <= 1 # 2)%Q
  \/ (nearest_even q = (Qfloor q + 1)%Z /\ 1 # 2 <= q - inject_Z (Qfloor q))%Q.
Proof.
  unfold nearest_even.
  destruct (Qle_bool (q - inject_Z (Qfloor q)) (1 # 2)) eqn:E1.
  - apply Qle_bool_iff in E1.
    destruct (Qle_bool (1 # 2) (q - inject_Z (Qfloor q))) eqn:E2.
    + apply Qle_bool_iff in E2. destruct (Z.even (Qfloor q)); auto.
    + auto.
  - right. split; [reflexivity|].
    apply Qlt_le_weak, Qnot_le_lt. intros Hc. apply Qle_bool_iff in Hc. congruence.
Qed.

Lemma floor_bounds (q : Q) :
  (inject_Z (Qfloor q) <= q)%Q /\ (q < inject_Z (Qfloor q) + 1)%Q.
Proof.
  split; [apply Qfloor_le|].
  pose proof (Qlt_floor q) as H. rewrite inject_Z_plus in H. exact H.
Qed.

Lemma nearest_even_comp (x y : Q) : (x == y)%Q -> nearest_even x = nearest_even y.
Proof.
  intros Hxy. unfold nearest_even. rewrite (Qfloor_comp x y Hxy).
  assert (Hd : (x - inject_Z (Qfloor y) == y - inject_Z (Qfloor y))%Q)
    by (rewrite Hxy; reflexivity).
  rewrite (Qleb_comp _ _ Hd _ _ (Qeq_refl (1 # 2))).
  rewrite (Qleb_comp _ _ (Qeq_refl (1 # 2)) _ _ Hd). reflexivity.
Qed.

(** No integer is nearer. *)
Lemma nearest_even_nearest (q : Q) (k : Z) :
  (Qabs (inject_Z (nearest_even q) - q) <= Qabs (inject_Z k - q))%Q.
Proof.
  destruct (floor_bounds q) as [F1 F2].
  assert (Hk : (k <= Qfloor q)%Z \/ (Qfloor q + 1 <= k)%Z) by lia.
  assert (Hk' : (inject_Z k <= inject_Z (Qfloor q))%Q
                \/ (inject_Z (Qfloor q) + 1 <= inject_Z k)%Q).
  { destruct Hk as [Hk|Hk]; [left|right].
    - rewrite <- Zle_Qle. exact Hk.
    - rewrite Zle_Qle, inject_Z_plus in Hk. exact Hk. }
  destruct (nearest_even_cases q) as [[-> Hd]|[-> Hd]];
    rewrite ?inject_Z_plus; change (inject_Z 1) with 1%Q;
    apply Qabs_case; intros; apply Qabs_case; intros; destruct Hk'; lra.
Qed.

Lemma nearest_even_half (q : Q) :
  (Qabs (inject_Z (nearest_even q) - q) <= 1 # 2)%Q.
Proof.
  destruct (floor_bounds q) as [F1 F2].
  destruct (nearest_even_cases q) as [[-> Hd]|[-> Hd]];
    rewrite ?inject_Z_plus; change (inject_Z 1) with 1%Q;
    apply Qabs_case; intros; lra.
Qed.

Lemma Qabs_bound (x y : Q) : (Qabs x <= y)%Q -> (- y <= x)%Q /\ (x <= y)%Q.
Proof. intros H. apply Qabs_Qle_condition in H. exact H. Qed.

Lemma Qabs_lower (x : Q) : (x <= Qabs x)%Q /\ (- x <= Qabs x)%Q.
Proof. split; [apply Qle_Qabs|]. rewrite <- Qabs_opp. apply Qle_Qabs. Qed.

Lemma nearest_even_near (q : Q) (z : Z) :
  (Qabs (q - inject_Z z) < 1 # 2)%Q -> nearest_even q = z.
Proof.
  intros Hq. pose proof (nearest_even_nearest q z) as H.
  destruct (Qabs_lower (q - inject_Z z)) as [L1 L2].
  assert (Hzq : (Qabs (inject_Z z - q) < 1 # 2)%Q).
  { apply Qabs_case; intros; lra. }
  apply Qabs_bound in H. destruct H as [Ha Hb].
  assert (H1 : (inject_Z (nearest_even q) < inject_Z z + 1)%Q).
  { generalize dependent (Qabs (inject_Z z - q)).
    generalize dependent (Qabs (q - inject_Z z)).
    generalize (inject_Z (nearest_even q)) (inject_Z z). intros; lra. }
  assert (H2 : (inject_Z z - 1 < inject_Z (nearest_even q))%Q).
  { generalize dependent (Qabs (inject_Z z - q)).
    generalize dependent (Qabs (q - inject_Z z)).
    generalize (inject_Z (nearest_even q)) (inject_Z z). intros; lra. }
  change 1%Q with (inject_Z 1) in H1, H2.
  rewrite <- inject_Z_plus in H1. unfold Qminus in H2.
  rewrite <- inject_Z_opp, <- inject_Z_plus in H2.
  rewrite <- Zlt_Qlt in H1, H2. lia.
Qed.

Lemma nearest_even_integral (q : Q) (z : Z) :
  (q == inject_Z z)%Q -> nearest_even q = z.
Proof.
  intros Hq. apply nearest_even_near. apply Qabs_case; intros; lra.
Qed.

Lemma nearest_even_le (x y : Q) :
  (x <= y)%Q -> (nearest_even x <= nearest_even y)%Z.
Proof.
  intros Hxy.
  destruct (floor_bounds x) as [X1 X2]. destruct (floor_bounds y) as [Y1 Y2].
  pose proof (Qfloor_resp_le x y Hxy) as Hf.
  destruct (Z.eq_dec (Qfloor x) (Qfloor y)) as [Heq|Hne].
  - unfold nearest_even. rewrite Heq.
    set (dx := (x - inject_Z (Qfloor y))%Q). set (dy := (y - inject_Z (Qfloor y))%Q).
    assert (Hd : (dx <= dy)%Q) by (unfold dx, dy; lra).
    destruct (Qle_bool dx (1 # 2)) eqn:A1; destruct (Qle_bool (1 # 2) dx) eqn:A2;
      destruct (Qle_bool dy (1 # 2)) eqn:B1; destruct (Qle_bool (1 # 2) dy) eqn:B2;
      destruct (Z.even (Qfloor y)); try lia;
      repeat match goal with
             | H : Qle_bool _ _ = true |- _ => apply Qle_bool_iff in H
             | H : Qle_bool ?a ?b = false |- _ =>
                 assert (b < a)%Q
                   by (apply Qnot_le_lt; intros Hc; apply Qle_bool_iff in Hc; congruence);
                 clear H
             end; exfalso; lra.
  - destruct (nearest_even_cases x) as [[-> _]|[-> _]];
      destruct (nearest_even_cases y) as [[-> _]|[-> _]]; lia.
Qed.

Lemma nearest_even_nonneg (q : Q) : (0 <= q)%Q -> (0 <= nearest_even q)%Z.
Proof.
  intros Hq. rewrite <- (nearest_even_integral 0 0) by reflexivity.
  apply nearest_even_le, Hq.
Qed.

(** *** Rounding a positive rational *)

Lemma last_place_ge (q : Q) :
  (emin <= last_place q)%Z /\ (ilog2 q - 52 <= last_place q)%Z.
Proof. unfold last_place. lia. Qed.

Lemma last_place_comp (x y : Q) :
  (0 < x)%Q -> (x == y)%Q -> last_place x = last_place y.
Proof. intros Hx Hxy. unfold last_place. rewrite (ilog2_comp x y Hx Hxy). reflexivity. Qed.

Lemma last_place_le (x y : Q) :
  (0 < x)%Q -> (x <= y)%Q -> (last_place x <= last_place y)%Z.
Proof. intros Hx Hxy. unfold last_place. pose proof (ilog2_le x y Hx Hxy). lia. Qed.

Lemma round_positive_comp (x y : Q) :
  (0 < x)%Q -> (x == y)%Q -> (round_positive x == round_positive y)%Q.
Proof.
  intros Hx Hxy. unfold round_positive.
  rewrite (last_place_comp x y Hx Hxy).
  rewrite (nearest_even_comp (x / pow2 (last_place y)) (y / pow2 (last_place y)))
    by (rewrite Hxy; reflexivity).
  reflexivity.
Qed.

Lemma round_positive_nonneg (q : Q) : (0 <= q)%Q -> (0 <= round_positive q)%Q.
Proof.
  intros Hq. unfold round_positive.
  pose proof (pow2_pos (last_place q)) as Hp.
  apply Qmult_le_0_compat; [|lra].
  change 0%Q with (inject_Z 0). rewrite <- Zle_Qle.
  apply nearest_even_nonneg. apply Qle_shift_div_l; [exact Hp|lra].
Qed.

(** No point of the grid of the last place is nearer. *)
Lemma round_positive_nearest (q : Q) (k : Z) :
  (Qabs (round_positive q - q)
   <= Qabs (inject_Z k * pow2 (last_place q) - q))%Q.
Proof.
  unfold round_positive. set (s := last_place q).
  pose proof (pow2_pos s) as Hp.
  pose proof (nearest_even_nearest (q / pow2 s) k) as H.
  assert (E1 : (inject_Z (nearest_even (q / pow2 s)) * pow2 s - q
                == (inject_Z (nearest_even (q / pow2 s)) - q / pow2 s) * pow2 s)%Q)
    by (field; lra).
  assert (E2 : (inject_Z k * pow2 s - q == (inject_Z k - q / pow2 s) * pow2 s)%Q)
    by (field; lra).
  rewrite E1, E2, !Qabs_Qmult, (Qabs_pos (pow2 s)) by lra.
  apply Qmult_le_compat_r; [exact H|lra].
Qed.

(** The quotient by the last place is below [2 ^ 53]. *)
Lemma significand_bound (q : Q) :
  (0 < q)%Q -> (q / pow2 (last_place q) < pow2 53)%Q.
Proof.
  intros Hq. destruct (ilog2_spec q Hq) as [_ H2].
  destruct (last_place_ge q) as [_ Hs]. set (s := last_place q) in *.
  pose proof (pow2_pos s) as Hp.
  apply Qlt_shift_div_r; [exact Hp|].
  rewrite <- pow2_add.
  eapply Qlt_le_trans; [exact H2|]. apply pow2_le. lia.
Qed.

Lemma pow2_53 : (pow2 53 == inject_Z (2 ^ 53))%Q.
Proof. apply pow2_Z. lia. Qed.

Lemma nearest_even_significand (q : Q) :
  (0 < q)%Q ->
  (0 <= nearest_even (q / pow2 (last_place q)) <= 2 ^ 53)%Z.
Proof.
  intros Hq. pose proof (significand_bound q Hq) as Hb.
  pose proof (pow2_pos (last_place q)) as Hp.
  split.
  - apply nearest_even_nonneg. apply Qle_shift_div_l; [exact Hp|lra].
  - rewrite <- (nearest_even_integral (inject_Z (2 ^ 53)) (2 ^ 53)) by reflexivity.
    apply nearest_even_le. rewrite <- pow2_53. lra.
Qed.

(** A multiple of a power of two with fewer than 54 bits is kept. *)
Lemma round_positive_exact (q : Q) (m k : Z) :
  (q == inject_Z m * pow2 k)%Q -> (0 < m < 2 ^ 53)%Z -> (emin <= k)%Z ->
  (round_positive q == q)%Q.
Proof.
  intros Hq Hm Hk.
  pose proof (pow2_pos k) as Pk.
  assert (Hm1 : (0 < inject_Z m)%Q)
    by (change 0%Q with (inject_Z 0); rewrite <- Zlt_Qlt; lia).
  assert (Hm2 : (inject_Z m < pow2 53)%Q)
    by (rewrite pow2_53, <- Zlt_Qlt; lia).
  assert (Hq0 : (0 < q)%Q) by (rewrite Hq; nra).
  destruct (ilog2_spec q Hq0) as [L1 _].
  assert (Hlt : (q < pow2 (53 + k))%Q) by (rewrite pow2_add, Hq; nra).
  assert (He : (ilog2 q < 53 + k)%Z) by (apply pow2_lt_inv; lra).
  assert (Hs : (last_place q <= k)%Z) by (unfold last_place; lia).
  unfold round_positive. set (s := last_place q) in *.
  pose proof (pow2_pos s) as Ps.
  assert (Hks : (pow2 k == inject_Z (2 ^ (k - s)) * pow2 s)%Q).
  { rewrite <- pow2_Z by lia. rewrite <- pow2_add.
    replace (k - s + s)%Z with k by lia. reflexivity. }
  assert (Hint : (q / pow2 s == inject_Z (m * 2 ^ (k - s)))%Q).
  { rewrite inject_Z_mult, Hq, Hks. field. lra. }
  rewrite (nearest_even_integral _ _ Hint).
  rewrite inject_Z_mult, Hq, Hks. ring.
Qed.

(** What rounding returns is kept by rounding. *)
Lemma round_positive_idempotent (q : Q) :
  (0 < q)%Q -> (0 < round_positive q)%Q ->
  (round_positive (round_positive q) == round_positive q)%Q.
Proof.
  intros Hq Hr.
  destruct (nearest_even_significand q Hq) as [N1 N2].
  destruct (last_place_ge q) as [Hs _].
  unfold round_positive in Hr |- * at 2 3.
  set (s := last_place q) in *. set (n := nearest_even (q / pow2 s)) in *.
  pose proof (pow2_pos s) as Ps.
  assert (Hn0 : (0 < n)%Z).
  { destruct (Z.eq_dec n 0%Z) as [E|E]; [|lia].
    rewrite E in Hr. change (inject_Z 0) with 0%Q in Hr. lra. }
  destruct (Z.eq_dec n (2 ^ 53)%Z) as [E|E].
  - apply (round_positive_exact _ (2 ^ 52)%Z (s + 1)%Z); [|lia|lia].
    rewrite E, pow2_succ.
    change (inject_Z (2 ^ 53)) with (2 * inject_Z (2 ^ 52))%Q. ring.
  - apply (round_positive_exact _ n s); [reflexivity|lia|lia].
Qed.

(** A number that rounding keeps is on every grid below its last place. *)
Lemma on_grid (f : Q) (s : Z) :
  (0 < f)%Q -> (round_positive f == f)%Q -> (s <= last_place f)%Z ->
  exists k : Z, (f == inject_Z k * pow2 s)%Q.
Proof.
  intros Hf He Hs. unfold round_positive in He.
  set (t := last_place f) in *.
  exists (nearest_even (f / pow2 t) * 2 ^ (t - s))%Z.
  rewrite inject_Z_mult, <- pow2_Z by lia.
  rewrite <- Qmult_assoc, <- pow2_add. replace (t - s + s)%Z with t by lia.
  symmetry. exact He.
Qed.

(** *** Rounding *)

Lemma fl_pos (q : Q) : (0 < q)%Q -> fl q = round_positive q.
Proof.
  intros Hq. destruct q as [n d]. unfold Qlt in Hq. cbn in Hq.
  unfold fl. cbn [Qnum]. destruct n; try lia. reflexivity.
Qed.

Lemma fl_neg (q : Q) : (q < 0)%Q -> fl q = (- round_positive (- q))%Q.
Proof.
  intros Hq. destruct q as [n d]. unfold Qlt in Hq. cbn in Hq.
  unfold fl. cbn [Qnum]. destruct n; try lia. reflexivity.
Qed.

Lemma fl_zero (q : Q) : (q == 0)%Q -> fl q = 0%Q.
Proof.
  intros Hq. destruct q as [n d]. unfold Qeq in Hq. cbn in Hq.
  unfold fl. cbn [Qnum]. destruct n; try lia. reflexivity.
Qed.

Lemma fl_comp (x y : Q) : (x == y)%Q -> (fl x == fl y)%Q.
Proof.
  intros Hxy. destruct (Q_dec x 0) as [[Hx|Hx]|Hx].
  - rewrite (fl_neg x Hx), (fl_neg y) by lra.
    rewrite (round_positive_comp (- x) (- y)) by lra. reflexivity.
  - rewrite (fl_pos x Hx), (fl_pos y) by lra.
    apply round_positive_comp; assumption.
  - rewrite (fl_zero x Hx), (fl_zero y) by lra. reflexivity.
Qed.

Lemma fl_opp (q : Q) : (fl (- q) == - fl q)%Q.
Proof.
  destruct (Q_dec q 0) as [[Hq|Hq]|Hq].
  - rewrite (fl_neg q Hq), (fl_pos (- q)) by lra. ring.
  - rewrite (fl_pos q Hq), (fl_neg (- q)) by lra.
    rewrite (round_positive_comp (- - q) q) by lra. reflexivity.
  - rewrite (fl_zero q Hq), (fl_zero (- q)) by lra. reflexivity.
Qed.

Lemma fl_nonneg (q : Q) : (0 <= q)%Q -> (0 <= fl q)%Q.
Proof.
  intros Hq. destruct (Qle_lt_or_eq _ _ Hq) as [H|H].
  - rewrite (fl_pos q H). apply round_positive_nonneg, Hq.
  - rewrite (fl_zero q) by lra. lra.
Qed.

Lemma fl_idempotent (q : Q) : (fl (fl q) == fl q)%Q.
Proof.
  assert (Hpos : forall x, (0 < x)%Q -> (fl (fl x) == fl x)%Q).
  { intros x Hx. pose proof (fl_nonneg x (Qlt_le_weak _ _ Hx)) as H0.
    destruct (Qle_lt_or_eq _ _ H0) as [H|H].
    - rewrite (fl_pos (fl x) H). rewrite (fl_pos x Hx) in H |- *.
      apply round_positive_idempotent; assumption.
    - rewrite (fl_zero (fl x)) by lra. exact H. }
  destruct (Q_dec q 0) as [[Hq|Hq]|Hq].
  - assert (H : (fl (fl (- q)) == fl (- q))%Q) by (apply Hpos; lra).
    rewrite (fl_comp (fl (- q)) (- fl q) (fl_opp q)), fl_opp, fl_opp in H. lra.
  - apply Hpos, Hq.
  - rewrite (fl_zero q Hq). reflexivity.
Qed.

Lemma fl_exact (q : Q) (m k : Z) :
  (q == inject_Z m * pow2 k)%Q -> (0 <= m <= 2 ^ 53)%Z -> (emin <= k)%Z ->
  (fl q == q)%Q.
Proof.
  intros Hq Hm Hk. pose proof (pow2_pos k) as Pk.
  destruct (Z.eq_dec m 0%Z) as [E0|E0].
  { rewrite (fl_zero q); [|rewrite Hq, E0; ring].
    rewrite Hq, E0. ring. }
  assert (Hq0 : (0 < q)%Q).
  { rewrite Hq. apply Qmult_lt_0_compat; [|exact Pk].
    change 0%Q with (inject_Z 0). rewrite <- Zlt_Qlt. lia. }
  rewrite (fl_pos q Hq0).
  destruct (Z.eq_dec m (2 ^ 53)%Z) as [E|E].
  - apply (round_positive_exact _ (2 ^ 52)%Z (k + 1)%Z); [|lia|lia].
    rewrite Hq, E, pow2_succ.
    change (inject_Z (2 ^ 53)) with (2 * inject_Z (2 ^ 52))%Q. ring.
  - apply (round_positive_exact _ m k); [exact Hq|lia|exact Hk].
Qed.

Lemma fl_integer (z : Z) :
  (0 <= z <= 2 ^ 53)%Z -> (fl (inject_Z z) == inject_Z z)%Q.
Proof.
  intros Hz. apply (fl_exact _ z 0%Z); [|exact Hz|unfold emin; lia].
  rewrite pow2_0. ring.
Qed.


(** No float is nearer to [x] than [fl x]. *)
Lemma fl_nearest (x f : Q) :
  (0 < x)%Q -> (0 <= f)%Q -> (fl f == f)%Q ->
  (Qabs (fl x - x) <= Qabs (f - x))%Q.
Proof.
  intros Hx Hf Hff. rewrite (fl_pos x Hx).
  destruct (Qle_lt_or_eq _ _ Hf) as [Hf0|Hf0].
  - rewrite (fl_pos f Hf0) in Hff.
    destruct (Z_le_gt_dec (last_place x) (last_place f)) as [Hs|Hs].
    + destruct (on_grid f (last_place x) Hf0 Hff Hs) as [k Hk].
      rewrite Hk. apply round_positive_nearest.
    + destruct (last_place_ge f) as [F1 F2].
      assert (Hsx : last_place x = (ilog2 x - 52)%Z) by (unfold last_place in *; lia).
      destruct (ilog2_spec x Hx) as [X1 _].
      destruct (ilog2_spec f Hf0) as [_ F3].
      assert (Hfx : (f < pow2 (ilog2 x))%Q).
      { eapply Qlt_le_trans; [exact F3|]. apply pow2_le. lia. }
      pose proof (round_positive_nearest x (2 ^ 52)%Z) as Hn.
      assert (Hg : (inject_Z (2 ^ 52) * pow2 (last_place x) == pow2 (ilog2 x))%Q).
      { rewrite <- pow2_Z by lia. rewrite <- pow2_add, Hsx.
        replace (52 + (ilog2 x - 52))%Z with (ilog2 x) by lia. reflexivity. }
      rewrite Hg in Hn. eapply Qle_trans; [exact Hn|].
      apply Qabs_case; intros; apply Qabs_case; intros; lra.
  - pose proof (round_positive_nearest x 0%Z) as Hn.
    assert (Hg : (inject_Z 0 * pow2 (last_place x) == f)%Q).
    { rewrite <- Hf0. change (inject_Z 0) with 0%Q. ring. }
    rewrite Hg in Hn. exact Hn.
Qed.

Lemma fl_monotone_nonneg (x y : Q) :
  (0 <= x)%Q -> (x <= y)%Q -> (fl x <= fl y)%Q.
Proof.
  intros Hx Hxy.
  destruct (Qle_lt_or_eq _ _ Hx) as [Hx0|Hx0].
  - assert (Hy0 : (0 < y)%Q) by lra.
    apply Qnot_lt_le. intros Hlt.
    pose proof (fl_nearest y (fl x) Hy0 (fl_nonneg x Hx) (fl_idempotent x)) as N1.
    pose proof (fl_nearest x (fl y) Hx0 (fl_nonneg y (Qlt_le_weak _ _ Hy0))
                  (fl_idempotent y)) as N2.
    assert (Heq : (x == y)%Q).
    { revert N1 N2. generalize (fl x) (fl y) Hlt. intros a b Hab.
      apply Qabs_case; intros; revert N1 N2;
        apply Qabs_case; intros; revert N1 N2;
        apply Qabs_case; intros; revert N1 N2;
        apply Qabs_case; intros; lra. }
    apply fl_comp in Heq. lra.
  - rewrite (fl_zero x) by lra. apply fl_nonneg. lra.
Qed.

Lemma fl_monotone (x y : Q) : (x <= y)%Q -> (fl x <= fl y)%Q.
Proof.
  intros Hxy. destruct (Qlt_le_dec x 0) as [Hx|Hx].
  - destruct (Qlt_le_dec y 0) as [Hy|Hy].
    + pose proof (fl_monotone_nonneg (- y) (- x)) as H.
      rewrite !fl_opp in H. lra.
    + pose proof (fl_nonneg y Hy). pose proof (fl_nonneg (- x)) as H1.
      rewrite fl_opp in H1. lra.
  - apply fl_monotone_nonneg; assumption.
Qed.

Lemma round_positive_half (q : Q) :
  (Qabs (round_positive q - q) <= pow2 (last_place q) * (1 # 2))%Q.
Proof.
  unfold round_positive. set (s := last_place q).
  pose proof (pow2_pos s) as Hp.
  pose proof (nearest_even_half (q / pow2 s)) as H.
  assert (E1 : (inject_Z (nearest_even (q / pow2 s)) * pow2 s - q
                == (inject_Z (nearest_even (q / pow2 s)) - q / pow2 s) * pow2 s)%Q)
    by (field; lra).
  rewrite E1, Qabs_Qmult, (Qabs_pos (pow2 s)) by lra.
  rewrite (Qmult_comm (pow2 s)).
  apply Qmult_le_compat_r; [exact H|lra].
Qed.

Lemma pow2_m53 : (pow2 (-53) == 1 # 9007199254740992)%Q.
Proof. reflexivity. Qed.

Lemma pow2_m52 : (pow2 (-52) == 1 # 4503599627370496)%Q.
Proof. reflexivity. Qed.

Lemma last_place_normal (q : Q) :
  (pow2 (emin + 52) <= q)%Q -> last_place q = (ilog2 q - 52)%Z.
Proof.
  intros Hq. pose proof (pow2_pos (emin + 52)) as Hp.
  pose proof (ilog2_le (pow2 (emin + 52)) q Hp Hq) as H.
  rewrite ilog2_pow2 in H. unfold last_place. lia.
Qed.

(** Above the subnormal range the error of rounding is at most one part
    in [2 ^ 53]. *)
Lemma fl_accurate (q : Q) :
  (pow2 (emin + 52) <= q)%Q -> (Qabs (fl q - q) <= q * pow2 (-53))%Q.
Proof.
  intros Hq. pose proof (pow2_pos (emin + 52)) as Hp.
  assert (Hq0 : (0 < q)%Q) by lra.
  rewrite (fl_pos q Hq0).
  eapply Qle_trans; [apply round_positive_half|].
  rewrite (last_place_normal q Hq).
  destruct (ilog2_spec q Hq0) as [L1 _].
  assert (E : (pow2 (ilog2 q - 52) == pow2 (ilog2 q) * pow2 (-52))%Q).
  { rewrite <- pow2_add. replace (ilog2 q + -52)%Z with (ilog2 q - 52)%Z by lia.
    reflexivity. }
  rewrite E, pow2_m52, pow2_m53. pose proof (pow2_pos (ilog2 q)). lra.
Qed.






End FloatFacts.
(** ** Properties of the SkillRotation hold *)

Module RotationFacts.
Import Float Rotation FloatFacts.

Lemma Qle_bool_false (a b : Q) : Qle_bool a b = false <-> (b < a)%Q.
Proof.
  split.
  - intros Hf. apply Qnot_le_lt. intros Hle. apply Qle_bool_iff in Hle. congruence.
  - intros Hlt. destruct (Qle_bool a b) eqn:E; [|reflexivity].
    apply Qle_bool_iff in E. lra.
Qed.

(** A result that is not negative and stays below [2 ^ 1024] does not
    overflow. *)
Lemma round_finite (q bound : Q) :
  (0 <= q)%Q -> (fl q <= bound)%Q -> (bound < pow2 emax)%Q ->
  round q = Finite (fl q).
Proof.
  intros Hq Hb Hmax. unfold round.
  pose proof (fl_nonneg q Hq) as H0.
  assert (E : Qle_bool (pow2 emax) (Qabs (fl q)) = false).
  { apply Qle_bool_false. rewrite Qabs_pos by exact H0. lra. }
  rewrite E. reflexivity.
Qed.


(** [rand_float] on an empty interval fails its assertion. *)
Lemma rand_float_empty (start end_ u : Q) :
  (end_ <= start)%Q -> rand_float start end_ u = Raise AssertionError.
Proof.
  intros Hes. unfold rand_float. apply Qle_bool_iff in Hes. rewrite Hes. reflexivity.
Qed.















(** The upper end is reached: with 0.3 s left and the largest value of
    [random()] the hold drawn is 0.3 s itself. *)
Lemma attack_hold_reaches_upper_end :
  exists d,
    attack_hold (lit (3 # 10)) (1 - pow2 (-53)) = Ok (Some (Finite d))
    /\ (d == lit (3 # 10))%Q.
Proof. vm_compute. eexists. split; reflexivity. Qed.


(** With exactly one second left the interval handed to [rand_float] is
    empty and its assertion fails. *)
Lemma attack_hold_one_second (u : Q) :
  attack_hold 1 u = Raise AssertionError.
Proof. vm_compute. reflexivity. Qed.

End RotationFacts.
(** ** Properties of the rune solver *)

Module BotFacts.
Import Components Bot.

Lemma poll_buff_none (r : round) (polls : list nat) (s : State) :
  forallb (fun j => negb (rune_buff r j)) polls = true ->
  poll_buff r polls s = (s, Ok false).
Proof.
  induction polls as [|j polls IH]; simpl; intros Hp; [reflexivity|].
  apply andb_true_iff in Hp as [Hj Hp].
  apply negb_true_iff in Hj. rewrite Hj. apply IH, Hp.
Qed.

Lemma emit_all_nil (s : State) : emit_all [] s = s.
Proof. destruct s. unfold emit_all. simpl. rewrite app_nil_r. reflexivity. Qed.

Lemma emit_all_app (es es' : list event) (s : State) :
  emit_all es' (emit_all es s) = emit_all (es ++ es') s.
Proof. unfold emit_all. simpl. rewrite app_assoc. reflexivity. Qed.

Lemma last_nonempty {A : Type} (l : list A) (a d d' : A) :
  List.last (a :: l) d = List.last (a :: l) d'.
Proof.
  revert a. induction l as [|b l IH]; intros a; [reflexivity|].
  change (List.last (b :: l) d = List.last (b :: l) d'). apply IH.
Qed.

Lemma last_cons_default {A : Type} (l : list A) (a d : A) :
  List.last (a :: l) d = List.last l a.
Proof.
  destruct l as [|b l]; [reflexivity|].
  change (List.last (b :: l) d = List.last (b :: l) a). apply last_nonempty.
Qed.

Lemma round_fails_frame (r : round) :
  round_fails r = true ->
  exists f, frame r = Some f /\ solver_error r = None
    /\ (if (length (solution r) =? 4)%nat
        then negb (rune_buff r 0%nat || rune_buff r 1%nat || rune_buff r 2%nat)
        else true) = true.
Proof.
  unfold round_fails. destruct (frame r) as [f|]; [|discriminate].
  destruct (solver_error r); [discriminate|]. eauto.
Qed.

(** One failing round only adds its events; the locals keep
    [solution_found] and take the round's frame. *)
Lemma rounds_loop_failing (rs : list round) (found : bool) (fr : option nat)
  (s : State) :
  forallb round_fails rs = true ->
  rounds_loop rs found fr s
  = (emit_all (concat (map failed_round_events rs)) s,
     Ok (found, List.last (map frame rs) fr)).
Proof.
  revert found fr s. induction rs as [|r rs IH]; intros found fr s Hf.
  - simpl. rewrite emit_all_nil. reflexivity.
  - simpl in Hf. apply andb_true_iff in Hf as [Hr Hrs].
    change (map frame (r :: rs)) with (frame r :: map frame rs).
    rewrite last_cons_default.
    destruct (round_fails_frame r Hr) as (f & Ef & Ee & Hr').
    change (concat (map failed_round_events (r :: rs)))
      with (failed_round_events r ++ concat (map failed_round_events rs)).
    rewrite <- emit_all_app.
    cbn [rounds_loop]. rewrite Ef, Ee.
    destruct (length (solution r) =? 4)%nat eqn:E4.
    + assert (Hev : failed_round_events r = [EnterArrows (solution r)])
        by (unfold failed_round_events; rewrite E4; reflexivity).
      rewrite Hev. change (emit_all [EnterArrows (solution r)] s)
        with (emit (EnterArrows (solution r)) s).
      apply Nat.eqb_eq in E4. rewrite E4. cbn [Nat.eqb negb andb].
      apply negb_true_iff in Hr'.
      apply orb_false_iff in Hr' as [Hr' H2].
      apply orb_false_iff in Hr' as [H0 H1].
      unfold mbind, M_bind, m_bind, m_set.
      rewrite poll_buff_none by (cbn [forallb]; rewrite H0, H1, H2; reflexivity).
      rewrite orb_false_r. rewrite <- Ef. apply IH, Hrs.
    + assert (Hev : failed_round_events r = [])
        by (unfold failed_round_events; rewrite E4; reflexivity).
      rewrite Hev, andb_false_r, emit_all_nil. rewrite <- Ef. apply IH, Hrs.
Qed.

(** C3 (amended): a call of [_solve_rune] in which all three rounds fail
    (each captures a frame, gets the solver's answer and does not find the
    buff) saves the last frame and adds one to [attempts]; runs the
    recovery (enter, then exit, the cash shop) exactly when the new count
    is a multiple of 3; clears [rune_active] exactly when the new count is
    above 9 (so at 10, not at 9); and kills the game and its own process
    exactly when the new count is above 20 (so at 21). *)
Theorem failed_attempt_escalation (s : State) (r0 r1 r2 : round) :
  enabled s = true ->
  round_fails r0 = true -> round_fails r1 = true -> round_fails r2 = true ->
  exists s',
    _solve_rune r0 r1 r2 s = (s', Ok tt)
    /\ attempts s' = (attempts s + 1)%Z
    /\ rune_active s' = (if (9 <? attempts s + 1)%Z then false else rune_active s)
    /\ events s'
       = events s ++ approach
         ++ (failed_round_events r0 ++ failed_round_events r1
             ++ failed_round_events r2)
         ++ [SaveFailedDetection]
         ++ (if ((attempts s + 1) mod 3 =? 0)%Z then recovery else [])
         ++ (if (20 <? attempts s + 1)%Z then abort else []).
Proof.
  intros Hen H0 H1 H2.
  destruct (round_fails_frame r2 H2) as (f & Ef & _ & _).
  unfold _solve_rune, run_if_enabled.
  change (config_enabled s) with (enabled s). rewrite Hen.
  unfold mbind, M_bind, m_bind, m_set, m_get, m_ret. lazy beta iota.
  rewrite rounds_loop_failing
    by (cbn [forallb]; rewrite H0, H1, H2; reflexivity).
  simpl. rewrite app_nil_r. rewrite Ef. simpl.
  destruct ((attempts s + 1) mod 3 =? 0)%Z; simpl;
    destruct (9 <? attempts s + 1)%Z eqn:E9; simpl;
    destruct (20 <? attempts s + 1)%Z eqn:E20; simpl;
    (eexists; split; [reflexivity|]; simpl;
     repeat split; rewrite <- ?app_assoc; simpl; rewrite ?app_nil_r;
     reflexivity).
Qed.

Lemma failed_attempt_escalation_witness :
  exists s',
    _solve_rune no_answer no_answer no_answer (after_failures 20) = (s', Ok tt)
    /\ attempts s' = 21%Z
    /\ rune_active s' = false
    /\ events s' = [Move; Adjust; Adjust; Interact; SaveFailedDetection;
                    EnterCashShop; ExitCashShop; KillGame; KillSelf].
Proof.
  exact (failed_attempt_escalation (after_failures 20) no_answer no_answer no_answer
           eq_refl eq_refl eq_refl eq_refl).
Defined.

(** A round without a captured frame does not fail, it raises: the walk
    to the rune has happened, [attempts] and [rune_active] are as before. *)
Lemma solve_rune_without_frame_raises (s : State) (r1 r2 : round) :
  enabled s = true ->
  _solve_rune no_frame r1 r2 s = (emit_all approach s, Raise AttributeError).
Proof.
  intros Hen. unfold _solve_rune, run_if_enabled.
  change (config_enabled s) with (enabled s). rewrite Hen.
  unfold mbind, M_bind, m_bind, m_set, m_get, m_ret, m_lift. cbn [rounds_loop].
  destruct s. unfold emit_all, emit, approach. simpl.
  rewrite <- !app_assoc. reflexivity.
Qed.

(** C3 as stated fails at 9: the ninth failure in a row runs the recovery
    but leaves [rune_active] set, because the test is [attempts > 9]. *)
Lemma ninth_failure_keeps_rune_active :
  let s' := fst (_solve_rune no_answer no_answer no_answer (after_failures 8)) in
  attempts s' = 9%Z
  /\ rune_active s' = true
  /\ events s' = [Move; Adjust; Adjust; Interact; SaveFailedDetection;
                  EnterCashShop; ExitCashShop].
Proof. vm_compute. repeat split; reflexivity. Qed.

(** The tenth failure clears the flag. *)
Lemma tenth_failure_clears_rune_active :
  let s' := fst (_solve_rune no_answer no_answer no_answer (after_failures 9)) in
  attempts s' = 10%Z /\ rune_active s' = false.
Proof. vm_compute. repeat split; reflexivity. Qed.

(** A solved rune resets the count before the final increment, so the
    count after a success is 1. *)
Lemma solved_rune_counts_one :
  let s' := fst (_solve_rune solved_round no_answer no_answer (after_failures 5)) in
  attempts s' = 1%Z /\ rune_active s' = false.
Proof. vm_compute. repeat split; reflexivity. Qed.

End BotFacts.
(** ** Properties of the alert *)

Module NotifierFacts.
Import Notifier.

Lemma sleeps_frame (k : nat) (s : State) :
  enabled (sleeps k s) = enabled s
  /\ listener_enabled (sleeps k s) = listener_enabled s
  /\ routine_index (sleeps k s) = routine_index s
  /\ music (sleeps k s) = music s
  /\ slept (sleeps k s) == slept s + inject_Z (Z.of_nat k) * (1 # 10).
Proof.
  revert s. induction k as [|k IH]; intros s.
  - change (sleeps 0 s) with s. repeat split; try reflexivity.
    change (inject_Z (Z.of_nat 0)) with 0%Q. ring.
  - change (sleeps (S k) s) with (sleeps k (sleep (1 # 10) s)).
    destruct (IH (sleep (1 # 10) s)) as (He & Hl & Hi & Hm & Hs).
    rewrite He, Hl, Hi, Hm, Hs. repeat split; try reflexivity.
    rewrite Nat2Z.inj_succ. unfold Z.succ. rewrite inject_Z_plus.
    change (slept (sleep (1 # 10) s)) with (slept s + (1 # 10))%Q.
    change (inject_Z 1) with 1%Q. ring.
Qed.

(** No press among the next [fuel] tests: the loop is still running. *)
Lemma wait_blocked (fuel : nat) (pressed : nat -> bool) (n : nat) (s : State) :
  (forall m, (n <= m < n + fuel)%nat -> pressed m = false) ->
  wait_for_key fuel pressed n s = Blocked (sleeps fuel s).
Proof.
  revert n s. induction fuel as [|fuel IH]; intros n s Hno; [reflexivity|].
  simpl. rewrite Hno by lia. apply IH. intros m Hm. apply Hno. lia.
Qed.

(** A first press [k] tests ahead, with fuel to reach it: the loop ends
    after [k] sleeps. *)
Lemma wait_returns (fuel : nat) (pressed : nat -> bool) (n k : nat) (s : State) :
  (forall m, (n <= m < n + k)%nat -> pressed m = false) ->
  pressed (n + k)%nat = true ->
  (k < fuel)%nat ->
  wait_for_key fuel pressed n s = Returned (sleeps k s).
Proof.
  revert n k s. induction fuel as [|fuel IH]; intros n k s Hno Hyes Hk; [lia|].
  destruct k as [|k].
  - simpl. rewrite Nat.add_0_r in Hyes. rewrite Hyes. reflexivity.
  - simpl. rewrite Hno by lia. apply IH.
    + intros m Hm. apply Hno. lia.
    + rewrite <- Hyes. f_equal. lia.
    + lia.
Qed.

(** C6 (amended): [_alert] clears [config.enabled] and the listener flag
    and starts the alert sound in a loop; as long as no test of the
    Start/stop key answers yes it stays in its own loop, in that state; at
    the first test that answers yes it stops the sound and sets the
    listener flag again.  It never writes the routine cursor, and
    [config.enabled] is still false when it returns. *)
Theorem alert_blocks_until_acknowledged (s : State) (name : string) (vol : Q)
  (pressed : nat -> bool) :
  (forall fuel, (forall m, (m < fuel)%nat -> pressed m = false) ->
     exists s', _alert fuel pressed name vol s = Blocked s'
       /\ enabled s' = false
       /\ listener_enabled s' = false
       /\ music s' = {| loaded := Some (get_alert_path name); volume := vol;
                        playing := Some (-1)%Z |}
       /\ routine_index s' = routine_index s)
  /\ (forall n fuel, first_press pressed n -> (n < fuel)%nat ->
     exists s', _alert fuel pressed name vol s = Returned s'
       /\ enabled s' = false
       /\ listener_enabled s' = true
       /\ music s' = {| loaded := Some (get_alert_path name); volume := vol;
                        playing := None |}
       /\ routine_index s' = routine_index s
       /\ slept s' == slept s + inject_Z (Z.of_nat n) * (1 # 10) + 2).
Proof.
  split.
  - intros fuel Hno. unfold _alert.
    rewrite (wait_blocked fuel pressed 0) by (intros m Hm; apply Hno; lia).
    destruct (sleeps_frame fuel (raise_alert name vol s)) as (He & Hl & Hi & Hm & _).
    eexists. split; [reflexivity|].
    rewrite He, Hl, Hi, Hm. simpl. auto.
  - intros n fuel [Hyes Hno] Hn. unfold _alert.
    rewrite (wait_returns fuel pressed 0 n)
      by (try (intros m Hm; apply Hno); simpl; auto; lia).
    destruct (sleeps_frame n (raise_alert name vol s)) as (He & Hl & Hi & Hm & Hs).
    eexists. split; [reflexivity|].
    unfold clear_alert. simpl. rewrite He, Hi, Hm, Hs. simpl.
    repeat split; try reflexivity.
Qed.

Lemma alert_blocks_until_acknowledged_witness :
  exists s', _alert 5 (fun n => (2 <=? n)%nat) "siren" (75 # 100) watching = Returned s'
    /\ enabled s' = false
    /\ listener_enabled s' = true
    /\ music s' = {| loaded := Some "assets/alerts/siren.mp3"; volume := 75 # 100;
                     playing := None |}
    /\ routine_index s' = Some 3%Z
    /\ slept s' == 0 + inject_Z (Z.of_nat 2) * (1 # 10) + 2.
Proof.
  refine (proj2 (alert_blocks_until_acknowledged watching "siren" (75 # 100)
                   (fun n => (2 <=? n)%nat)) 2%nat 5%nat _ _).
  - split; [reflexivity|]. intros [|[|m]] Hm; [reflexivity|reflexivity|lia].
  - lia.
Defined.

(** C6 as stated fails on its last clause: when the key is pressed at the
    first test, [_alert] returns with the sound stopped and the listener
    on, but [config.enabled], true before the alert, is false. *)
Lemma alert_leaves_bot_disabled :
  enabled watching = true
  /\ exists s', _alert 1 (fun _ => true) "siren" (75 # 100) watching = Returned s'
       /\ listener_enabled s' = true
       /\ playing (music s') = None
       /\ enabled s' = false.
Proof. split; [reflexivity|]. eexists. repeat split. Qed.

End NotifierFacts.
(** ** More on the cooldown tracker, and the skill fired while moving *)

Module SkillsFacts.
Import Cooldown CooldownFacts Skills.

Lemma filter_fst_sublist {A B : Type} (P : A * B -> bool) (l : list (A * B)) :
  sublist (List.filter P l).*1 l.*1.
Proof.
  induction l as [|x l IH]; simpl; [constructor|].
  destruct (P x); simpl; [apply sublist_skip|apply sublist_cons]; exact IH.
Qed.

Lemma get_available_run (cds uses : list (string * Q)) (now : Q) :
  get_available now (run cds uses)
  = Ok (List.filter (off_cooldown (last_used (run cds uses)) now) cds).*1.
Proof.
  rewrite get_available_filter by (rewrite run_cooldowns; apply run_covered).
  rewrite run_cooldowns. reflexivity.
Qed.

(** The keys [get_available] returns are keys of the table, in table
    order and without repetition, whatever keys [record_used] was called
    with: recording an unknown key neither raises later nor makes it
    available. *)
Theorem available_keys_are_table_keys (cds uses : list (string * Q)) (now : Q) :
  exists out,
    get_available now (run cds uses) = Ok out
    /\ sublist out cds.*1
    /\ (NoDup cds.*1 -> NoDup out).
Proof.
  rewrite get_available_run. eexists. split; [reflexivity|].
  split; [apply filter_fst_sublist|].
  intros Hnd. exact (sublist_NoDup _ _ Hnd (filter_fst_sublist _ cds)).
Qed.

(** After [record_used(k)] at time [t], a key with a positive cooldown is
    available exactly from [t + cd] on, whatever other keys are used in
    between: never inside the cooldown window, always after it. *)
Theorem cooldown_window (cds uses later : list (string * Q)) (k : string)
  (cd t now : Q) :
  NoDup cds.*1 ->
  (k, cd) ∈ cds ->
  (0 < cd)%Q ->
  (forall u, u ∈ later -> fst u <> k) ->
  available now
    (foldl (fun tr u => record_used (fst u) (snd u) tr)
       (record_used k t (run cds uses)) later) k
  <-> (cd <= now - t)%Q.
Proof.
  intros Hnd Hin Hpos Hother.
  rewrite available_iff.
  2:{ rewrite foldl_record_cooldowns. apply foldl_record_covered.
      apply record_used_covered. simpl. rewrite run_cooldowns. apply run_covered. }
  rewrite foldl_record_cooldowns. simpl. rewrite run_cooldowns.
  assert (Hlu : last_used
                  (foldl (fun tr u => record_used (fst u) (snd u) tr)
                     (record_used k t (run cds uses)) later) !! k = Some t).
  { rewrite foldl_record_other by exact Hother. simpl. apply lookup_insert_eq. }
  split.
  - intros [c [Hc Hoff]].
    assert (c = cd) as -> by (eapply NoDup_fst_unique; eassumption).
    apply (off_cooldown_used _ now k cd t Hlu) in Hoff.
    destruct Hoff as [H|H]; [lra|exact H].
  - intros Hel. exists cd. split; [exact Hin|].
    apply (off_cooldown_used _ now k cd t Hlu). right. exact Hel.
Qed.

Lemma cooldown_window_witness :
  available 12%Q
    (foldl (fun tr u => record_used (fst u) (snd u) tr)
       (record_used "burst" 7%Q (run [("strike", 0%Q); ("burst", 5%Q)] []))
       [("strike", 9%Q)]) "burst"
  <-> (5 <= 12 - 7)%Q.
Proof.
  apply (cooldown_window [("strike", 0%Q); ("burst", 5%Q)] [] [("strike", 9%Q)]
           "burst" 5%Q 7%Q 12%Q).
  - apply (bool_decide_unpack _). vm_compute. exact I.
  - right. left.
  - reflexivity.
  - intros u Hu. apply list_elem_of_singleton in Hu. subst u. discriminate.
Defined.

(** [record_used(k)] changes the availability of no other key. *)
Theorem record_used_leaves_other_keys (cds uses : list (string * Q))
  (k k' : string) (t now : Q) :
  k' <> k ->
  available now (record_used k t (run cds uses)) k'
  <-> available now (run cds uses) k'.
Proof.
  intros Hne.
  rewrite !available_iff.
  2:{ rewrite run_cooldowns. apply run_covered. }
  2:{ apply record_used_covered. simpl. rewrite run_cooldowns. apply run_covered. }
  simpl. unfold off_cooldown. simpl.
  rewrite lookup_insert_ne by congruence. reflexivity.
Qed.

Lemma record_used_leaves_other_keys_witness :
  available 8%Q (record_used "burst" 7%Q (run [("strike", 0%Q); ("burst", 5%Q)] []))
    "strike"
  <-> available 8%Q (run [("strike", 0%Q); ("burst", 5%Q)] []) "strike".
Proof.
  apply (record_used_leaves_other_keys [("strike", 0%Q); ("burst", 5%Q)] []
           "burst" "strike" 7%Q 8%Q).
  discriminate.
Defined.

Lemma choice_elem {A : Type} (first : A) (rest : list A) (r : nat) :
  choice first rest r ∈ first :: rest.
Proof.
  unfold choice. apply list_elem_of_In, nth_In.
  change (length (first :: rest)) with (S (length rest)).
  apply Nat.mod_upper_bound. discriminate.
Qed.

(** [pick_random_available] never raises on a tracker built by [__init__]
    and [record_used]; it returns [None] exactly when no key is available,
    and otherwise a key that [get_available] reports, whatever the random
    draw. *)
Theorem pick_random_available_sound (cds uses : list (string * Q)) (now : Q)
  (r : nat) :
  match pick_random_available now r (run cds uses) with
  | Ok None => get_available now (run cds uses) = Ok []
  | Ok (Some k) => available now (run cds uses) k
  | Raise _ => False
  end.
Proof.
  unfold pick_random_available, available.
  rewrite get_available_run. simpl.
  destruct (List.filter _ cds).*1 as [|k rest]; [reflexivity|].
  eexists. split; [reflexivity|]. apply choice_elem.
Qed.

(** *** The skill fired while moving *)

Lemma in_list_elem (k : string) (l : list string) :
  in_list k l = true <-> k ∈ l.
Proof.
  unfold in_list. rewrite existsb_exists. split.
  - intros [x [Hx Heq]]. apply String.eqb_eq in Heq. subst. apply list_elem_of_In, Hx.
  - intros Hk. exists k. split; [apply list_elem_of_In, Hk|apply String.eqb_refl].
Qed.

Lemma skill_ids_positive (cds : list (string * Q)) (k : string) :
  k ∈ skill_ids cds <-> exists cd, (k, cd) ∈ cds /\ (0 < cd)%Q.
Proof.
  unfold skill_ids. rewrite list_elem_of_fmap. split.
  - intros [[k' c] [-> Hin]]. apply list_elem_of_In, filter_In in Hin as [Hin Hc].
    exists c. split; [apply list_elem_of_In, Hin|].
    apply negb_true_iff in Hc. simpl in Hc.
    destruct (Qlt_le_dec 0 c) as [H|H]; [exact H|].
    apply Qle_bool_iff in H. congruence.
  - intros [c [Hin Hc]]. exists (k, c). split; [reflexivity|].
    apply list_elem_of_In, filter_In. split; [apply list_elem_of_In, Hin|].
    apply negb_true_iff. simpl. destruct (Qle_bool c 0) eqn:E; [|reflexivity].
    apply Qle_bool_iff in E. lra.
Qed.

(** What one call does, when the tracker belongs to the table: either
    nothing, or one press of a rate-limited skill that is off cooldown. *)
Lemma try_skill_step (m : module) (ref : nat) (cds : list (string * Q))
  (tc trc : Q) (r : nat) (s : State) :
  SKILL_COOLDOWNS m = Some (ref, cds) ->
  NoDup cds.*1 ->
  consistent ref cds s ->
  exists tr,
    Cooldown.cooldowns tr = cds /\ covered cds (last_used tr)
    /\ (forall p, p ∈ presses s ->
          exists lu, last_used tr !! skill p = Some lu /\ (recorded_at p <= lu)%Q)
    /\ (_try_skill_during_move m tc trc r s
          = ({| cooldown_tracker := Some (ref, tr); presses := presses s |}, Ok tt)
        \/ exists k cd lu,
             (k, cd) ∈ cds /\ (0 < cd)%Q
             /\ last_used tr !! k = Some lu /\ (cd <= tc - lu)%Q
             /\ _try_skill_during_move m tc trc r s
                = ({| cooldown_tracker := Some (ref, record_used k trc tr);
                      presses := presses s
                        ++ [{| skill := k; key := resolve_key m k;
                               count := press_count m k;
                               checked_at := tc; recorded_at := trc |}] |}, Ok tt)).
Proof.
  intros Hm Hnd Hcons. unfold _try_skill_during_move. rewrite Hm.
  set (tr := match cooldown_tracker s with
             | Some (ref', tr) => if (ref' =? ref)%nat then tr else init cds
             | None => init cds
             end).
  assert (Htr : Cooldown.cooldowns tr = cds /\ covered cds (last_used tr)
                /\ forall p, p ∈ presses s ->
                     exists lu, last_used tr !! skill p = Some lu
                                /\ (recorded_at p <= lu)%Q).
  { unfold consistent in Hcons. subst tr.
    destruct (cooldown_tracker s) as [[ref' tr0]|].
    - destruct Hcons as (-> & Hc & Hcov & Hp). rewrite Nat.eqb_refl. auto.
    - rewrite Hcons. split; [reflexivity|]. split; [apply init_covered|].
      intros p Hp. inversion Hp. }
  destruct Htr as (Hc & Hcov & Hp).
  exists tr. split; [exact Hc|]. split; [exact Hcov|]. split; [exact Hp|].
  rewrite get_available_filter by (rewrite Hc; exact Hcov). rewrite Hc.
  destruct (List.filter (fun k => in_list k (skill_ids cds))
              (List.filter (off_cooldown (last_used tr) tc) cds).*1)
    as [|k0 rest] eqn:Ef; [left; reflexivity|].
  right.
  pose proof (choice_elem k0 rest r) as Hch. rewrite <- Ef in Hch.
  apply list_elem_of_In, filter_In in Hch as [Hav Hid].
  apply list_elem_of_In, elem_of_available_keys in Hav as [c [Hcin Hoff]].
  apply in_list_elem, skill_ids_positive in Hid as [c' [Hc'in Hpos]].
  assert (c = c') as -> by (eapply NoDup_fst_unique; eassumption).
  destruct (Hcov (choice k0 rest r, c') Hc'in) as [lu Hlu]. simpl in Hlu.
  apply (off_cooldown_used _ tc _ c' lu Hlu) in Hoff.
  exists (choice k0 rest r), c', lu.
  split; [exact Hc'in|]. split; [exact Hpos|]. split; [exact Hlu|].
  split; [destruct Hoff; [lra|assumption]|reflexivity].
Qed.

Lemma spaced_snoc (cds : list (string * Q)) (log : list press) (q : press) :
  spaced cds log ->
  (forall p cd, p ∈ log -> skill p = skill q -> (skill p, cd) ∈ cds ->
     (cd <= checked_at q - recorded_at p)%Q) ->
  spaced cds (log ++ [q]).
Proof.
  intros Hs Hq i j p q' cd Hij Hi Hj Hsk Hcd.
  assert (Hjlen : (j < length (log ++ [q]))%nat) by (eapply lookup_lt_Some, Hj).
  rewrite length_app in Hjlen. simpl in Hjlen.
  assert (Hi' : log !! i = Some p) by (rewrite lookup_app_l in Hi by lia; exact Hi).
  destruct (decide (j < length log)%nat) as [Hlt|Hge].
  - rewrite lookup_app_l in Hj by exact Hlt.
    exact (Hs i j p q' cd Hij Hi' Hj Hsk Hcd).
  - assert (j = length log) as -> by lia.
    rewrite lookup_app_r in Hj by lia. rewrite Nat.sub_diag in Hj.
    simpl in Hj. inversion Hj; subst q'.
    eapply Hq; [eapply list_elem_of_lookup_2, Hi'|exact Hsk|exact Hcd].
Qed.

(** One call keeps the bot consistent and the presses spaced and
    rate-limited. *)
Lemma try_skill_preserves (m : module) (ref : nat) (cds : list (string * Q))
  (tc trc : Q) (r : nat) (s : State) :
  SKILL_COOLDOWNS m = Some (ref, cds) ->
  NoDup cds.*1 ->
  (tc <= trc)%Q ->
  consistent ref cds s ->
  spaced cds (presses s) ->
  (forall p, p ∈ presses s -> exists cd, (skill p, cd) ∈ cds /\ (0 < cd)%Q) ->
  exists s',
    _try_skill_during_move m tc trc r s = (s', Ok tt)
    /\ consistent ref cds s'
    /\ spaced cds (presses s')
    /\ (forall p, p ∈ presses s' -> exists cd, (skill p, cd) ∈ cds /\ (0 < cd)%Q).
Proof.
  intros Hm Hnd Htime Hcons Hsp Hrate.
  destruct (try_skill_step m ref cds tc trc r s Hm Hnd Hcons)
    as (tr & Hc & Hcov & Hp & [Hstep|(k & cd & lu & Hin & Hpos & Hlu & Hoff & Hstep)]).
  - eexists. split; [exact Hstep|]. unfold consistent. simpl. auto.
  - eexists. split; [exact Hstep|]. simpl. split; [|split].
    + unfold consistent. simpl. split; [reflexivity|]. split; [exact Hc|].
      split; [apply record_used_covered; exact Hcov|].
      intros p Hpin. apply elem_of_app in Hpin as [Hold|Hnew].
      * destruct (decide (skill p = k)) as [Heq|Hne].
        -- exists trc. rewrite Heq, lookup_insert_eq. split; [reflexivity|].
           destruct (Hp p Hold) as [lu' [Hlu' Hle]]. rewrite Heq in Hlu'.
           assert (lu' = lu) as -> by congruence. lra.
        -- rewrite lookup_insert_ne by congruence. apply Hp, Hold.
      * apply list_elem_of_singleton in Hnew. subst p. simpl.
        exists trc. rewrite lookup_insert_eq. split; [reflexivity|lra].
    + apply spaced_snoc; [exact Hsp|]. simpl. intros p cd' Hpin Hsk Hcd'.
      rewrite Hsk in Hcd'.
      assert (cd' = cd) as -> by (eapply NoDup_fst_unique; eassumption).
      destruct (Hp p Hpin) as [lu' [Hlu' Hle]]. rewrite Hsk in Hlu'.
      assert (lu' = lu) as -> by congruence. lra.
    + intros p Hpin. apply elem_of_app in Hpin as [Hold|Hnew]; [apply Hrate, Hold|].
      apply list_elem_of_singleton in Hnew. subst p. simpl. eauto.
Qed.

Lemma try_skills_preserve (m : module) (ref : nat) (cds : list (string * Q))
  (calls : list call) (s : State) :
  SKILL_COOLDOWNS m = Some (ref, cds) ->
  NoDup cds.*1 ->
  (forall c, c ∈ calls -> (t_check c <= t_record c)%Q) ->
  consistent ref cds s ->
  spaced cds (presses s) ->
  (forall p, p ∈ presses s -> exists cd, (skill p, cd) ∈ cds /\ (0 < cd)%Q) ->
  exists s',
    try_skills m calls s = (s', Ok tt)
    /\ spaced cds (presses s')
    /\ (forall p, p ∈ presses s' -> exists cd, (skill p, cd) ∈ cds /\ (0 < cd)%Q).
Proof.
  intros Hm Hnd. revert s.
  induction calls as [|c calls IH]; intros s Htime Hcons Hsp Hrate.
  - exists s. auto.
  - destruct (try_skill_preserves m ref cds (t_check c) (t_record c) (draw c) s
                Hm Hnd (Htime c ltac:(left)) Hcons Hsp Hrate)
      as (s1 & Hstep & Hcons1 & Hsp1 & Hrate1).
    simpl. rewrite Hstep. apply IH; auto.
    intros c' Hc'. apply Htime. right. exact Hc'.
Qed.

(** However often [_try_skill_during_move] is called with one cooldown
    table, it never raises, it only ever presses skills whose cooldown is
    positive (never the main attack), and two presses of the same skill are
    at least its cooldown apart: the later one is found available no sooner
    than [cd] after the earlier one was recorded. *)
Theorem try_skill_respects_cooldowns (m : module) (ref : nat)
  (cds : list (string * Q)) (calls : list call) :
  SKILL_COOLDOWNS m = Some (ref, cds) ->
  NoDup cds.*1 ->
  (forall c, c ∈ calls -> (t_check c <= t_record c)%Q) ->
  exists s',
    try_skills m calls fresh = (s', Ok tt)
    /\ (forall p, p ∈ presses s' -> exists cd, (skill p, cd) ∈ cds /\ (0 < cd)%Q)
    /\ spaced cds (presses s').
Proof.
  intros Hm Hnd Htime.
  destruct (try_skills_preserve m ref cds calls fresh Hm Hnd Htime)
    as (s' & Hrun & Hsp & Hrate).
  - reflexivity.
  - intros i j p q cd _ Hi. inversion Hi.
  - intros p Hp. inversion Hp.
  - exists s'. auto.
Qed.

Lemma try_skill_respects_cooldowns_witness :
  exists s',
    try_skills sample_module sample_calls fresh = (s', Ok tt)
    /\ (forall p, p ∈ presses s' ->
          exists cd, (skill p, cd) ∈ [("strike", 0%Q); ("burst", 5%Q); ("nova", 30%Q)]
                     /\ (0 < cd)%Q)
    /\ spaced [("strike", 0%Q); ("burst", 5%Q); ("nova", 30%Q)] (presses s').
Proof.
  apply (try_skill_respects_cooldowns sample_module 1%nat
           [("strike", 0%Q); ("burst", 5%Q); ("nova", 30%Q)] sample_calls).
  - reflexivity.
  - apply (bool_decide_unpack _). vm_compute. exact I.
  - intros c Hc. unfold sample_calls in Hc.
    repeat (apply elem_of_cons in Hc as [->|Hc]; [vm_compute; discriminate|]).
    inversion Hc.
Defined.

(** The sample run: the first call fires burst, the second finds burst on
    cooldown and fires nova, the third fires burst again. *)
Lemma sample_run_presses :
  map skill (presses (fst (try_skills sample_module sample_calls fresh)))
  = ["burst"; "nova"; "burst"].
Proof. vm_compute. reflexivity. Qed.

(** Without a cooldown table the function does nothing. *)
Lemma try_skill_without_table (m : module) (tc trc : Q) (r : nat) (s : State) :
  SKILL_COOLDOWNS m = None ->
  _try_skill_during_move m tc trc r s = (s, Ok tt).
Proof. intros Hm. unfold _try_skill_during_move. rewrite Hm. reflexivity. Qed.

End SkillsFacts.
(** ** More on the routine elements *)

Module VisitsFacts.
Import Components Samples ComponentsFacts Visits.

Section Visiting.
Context `{CommandBook}.

Lemma counter_after_succ (c f : Z) (i : nat) :
  ((counter_after c f i + 1) mod f)%Z = counter_after c f (S i).
Proof.
  destruct i as [|i]; unfold counter_after.
  - reflexivity.
  - rewrite Zplus_mod_idemp_l. f_equal. lia.
Qed.

(** One enabled visit of a bound Jump. *)
Lemma bound_jump_visit (j : Jump.t) (target : Label.t) (w : World) :
  Jump.link j = Some target ->
  (1 <= Jump.frequency j)%Z ->
  enabled w = true ->
  execute (EJump j) w
  = ((EJump (Jump.set_counter ((Jump.counter j + 1) mod Jump.frequency j) j),
      if (Jump.counter j =? 0)%Z
      then set_routine_index (Label.index target) w else w), Ok tt).
Proof.
  intros Hl Hf Hen.
  unfold execute, as_element, Component_execute, run_if_enabled. simpl.
  rewrite Hen. unfold Jump.main, mbind, M_bind, m_bind, m_get. simpl. rewrite Hl.
  destruct (Jump.counter j =? 0)%Z; simpl;
    unfold Jump._increment_counter, run_if_enabled; simpl; rewrite Hen;
    unfold mbind, M_bind, m_bind, m_get, m_lift, py_mod; simpl;
    destruct (Z.eqb_spec (Jump.frequency j) 0); try lia; reflexivity.
Qed.

Lemma visits_bound_jump (ws : list World) (j : Jump.t) (target : Label.t) (k : nat) :
  Jump.link j = Some target ->
  (1 <= Jump.frequency j)%Z ->
  (forall w, w ∈ ws -> enabled w = true) ->
  forall c0 : Z,
  Jump.counter j = counter_after c0 (Jump.frequency j) k ->
  exists outs,
    visits ws (EJump j)
    = Ok (EJump (Jump.set_counter
                   (counter_after c0 (Jump.frequency j) (k + length ws)) j), outs)
    /\ length outs = length ws
    /\ forall i w w', ws !! i = Some w -> outs !! i = Some w' ->
         w' = if (counter_after c0 (Jump.frequency j) (k + i) =? 0)%Z
              then set_routine_index (Label.index target) w else w.
Proof.
  revert j k. induction ws as [|w ws IH]; intros j k Hl Hf Hen c0 Hc.
  - exists []. rewrite Nat.add_0_r, <- Hc. simpl. split; [|split].
    + destruct j; reflexivity.
    + reflexivity.
    + intros i w w' Hi. inversion Hi.
  - cbn [visits]. rewrite (bound_jump_visit j target w Hl Hf) by (apply Hen; left).
    set (j1 := Jump.set_counter ((Jump.counter j + 1) mod Jump.frequency j) j).
    destruct (IH j1 (S k)) with (c0 := c0) as (outs & Hv & Hlen & Hout).
    + exact Hl.
    + exact Hf.
    + intros w0 Hw0. apply Hen. right. exact Hw0.
    + subst j1. simpl. rewrite Hc. apply counter_after_succ.
    + rewrite Hv. simpl. eexists. split; [|split].
      * f_equal. f_equal. subst j1. simpl.
        replace (k + S (length ws))%nat with (S k + length ws)%nat by lia.
        destruct j; reflexivity.
      * simpl. rewrite Hlen. reflexivity.
      * intros [|i] w0 w0' Hi Ho; simpl in Hi, Ho.
        -- inversion Hi; inversion Ho; subst. rewrite Nat.add_0_r, <- Hc. reflexivity.
        -- replace (k + S i)%nat with (S k + i)%nat by lia.
           eapply Hout; eassumption.
Qed.

(** A bound Jump with frequency [f >= 1], visited while the bot is
    enabled, never raises; after [n] visits its counter is
    [(counter + n) mod f]; and visit number [i] (from 0) sends the cursor
    to the label exactly when the counter it meets is 0, leaving the world
    alone otherwise.  So with [skip] unset it jumps on visits 0, f, 2f, ...,
    and with [skip] set, one visit later. *)
Theorem bound_jump_period (ws : list World) (j : Jump.t) (target : Label.t) :
  Jump.link j = Some target ->
  (1 <= Jump.frequency j)%Z ->
  (forall w, w ∈ ws -> enabled w = true) ->
  exists outs,
    visits ws (EJump j)
    = Ok (EJump (Jump.set_counter
                   (counter_after (Jump.counter j) (Jump.frequency j) (length ws)) j),
          outs)
    /\ length outs = length ws
    /\ forall i w w', ws !! i = Some w -> outs !! i = Some w' ->
         w' = if (counter_after (Jump.counter j) (Jump.frequency j) i =? 0)%Z
              then set_routine_index (Label.index target) w else w.
Proof.
  intros Hl Hf Hen.
  exact (visits_bound_jump ws j target 0 Hl Hf Hen (Jump.counter j) eq_refl).
Qed.

(** On a visit that finds its counter different from 0, an enabled Point
    runs no command at all, whatever the command book: it only counts. *)
Theorem point_off_period_only_counts (p : Point.t) (w : World) :
  Point.counter p <> 0%Z ->
  (1 <= Point.frequency p)%Z ->
  enabled w = true ->
  execute (EPoint p) w
  = ((EPoint (Point.set_counter ((Point.counter p + 1) mod Point.frequency p) p), w),
     Ok tt).
Proof.
  intros Hc Hf Hen.
  unfold execute, as_element, Component_execute, run_if_enabled. simpl.
  rewrite Hen. unfold Point.main. unfold mbind at 1, M_bind at 1, m_bind at 1, m_get at 1.
  simpl. destruct (Z.eqb_spec (Point.counter p) 0) as [E|_]; [contradiction|].
  unfold mbind, M_bind, m_bind, m_ret. simpl.
  rewrite point_increment_enabled by exact Hen.
  unfold py_mod. destruct (Z.eqb_spec (Point.frequency p) 0); [lia|reflexivity].
Qed.

(** [Setting.main] on an enabled bot stores the validated value under
    the setting's key, touches no other setting nor the cursor, and doing
    it again changes nothing more. *)
Theorem setting_execute_assigns (s : Setting.t) (w : World) :
  enabled w = true ->
  exists w',
    execute (ESetting s) w = ((ESetting s, w'), Ok tt)
    /\ settings w' !! Setting.key s = Some (Setting.value s)
    /\ (forall k, k <> Setting.key s -> settings w' !! k = settings w !! k)
    /\ routine_index w' = routine_index w
    /\ stdout w' = stdout w
    /\ execute (ESetting s) w' = ((ESetting s, w'), Ok tt).
Proof.
  intros Hen.
  unfold execute, as_element, Component_execute, run_if_enabled. simpl.
  rewrite Hen. unfold Setting.main, mbind, M_bind, m_bind, m_get, on_world, m_set.
  simpl. eexists. split; [reflexivity|]. simpl. rewrite Hen.
  split; [apply lookup_insert_eq|].
  split; [intros k Hk; apply lookup_insert_ne; congruence|].
  split; [reflexivity|]. split; [reflexivity|].
  unfold set_settings. simpl. rewrite insert_insert_eq. reflexivity.
Qed.

End Visiting.

(** *** What the constructors and [update] leave behind *)

Section Editing.
Context `{Builtins} `{SettingsModule}.

Ltac run_call Hc :=
  cbn in Hc; repeat (case_match; simplify_eq; cbn in * ); try discriminate.

Lemma b2z_cases (b : bool) : Z.b2z b = 0%Z \/ Z.b2z b = 1%Z.
Proof. destruct b; auto. Qed.

(** A successful [Point.__init__] on any object. *)
Lemma point_call_fields args kwargs (s s' : Point.t) :
  Point.call args kwargs s = (s', Ok tt) ->
  Point.location s' = (Point.x s', Point.y s')
  /\ (Point.counter s' = 0%Z \/ Point.counter s' = 1%Z)
  /\ Point.commands s' = Some (default [] (Point.commands s))
  /\ exists fv, validate_nonnegative_int fv = Ok (Point.frequency s').
Proof.
  unfold Point.call, Point.__init__, mbind, M_bind, m_bind, m_lift, m_set, m_get, m_ret.
  intros Hc.
  destruct (call_args Point.params args kwargs) as [bound|]; [|discriminate].
  destruct bound as [|[? x] [|[? y] [|[? f] [|[? sk] [|[? ad] [|? ?]]]]]];
    try discriminate.
  run_call Hc; (split; [reflexivity|]); (split; [apply b2z_cases|]);
    (split; [assumption || reflexivity|eauto]).
Qed.

Lemma jump_call_fields args kwargs (s s' : Jump.t) :
  Jump.call args kwargs s = (s', Ok tt) ->
  Jump.link s' = None
  /\ (Jump.counter s' = 0%Z \/ Jump.counter s' = 1%Z)
  /\ exists fv, validate_nonnegative_int fv = Ok (Jump.frequency s').
Proof.
  unfold Jump.call, Jump.__init__, mbind, M_bind, m_bind, m_lift, m_set, m_get, m_ret.
  intros Hc.
  destruct (call_args Jump.params args kwargs) as [bound|]; [|discriminate].
  destruct bound as [|[? l] [|[? f] [|[? sk] [|? ?]]]]; try discriminate.
  run_call Hc; (split; [reflexivity|]); (split; [apply b2z_cases|eauto]).
Qed.

Lemma label_call_fields taken args kwargs (s s' : Label.t) :
  Label.call taken args kwargs s = (s', Ok tt) ->
  taken (Label.label s') = false /\ Label.index s' = None /\ Label.links s' = ∅.
Proof.
  unfold Label.call, Label.__init__, mbind, M_bind, m_bind, m_lift, m_set, m_get, m_ret.
  intros Hc.
  destruct (call_args Label.params args kwargs) as [bound|]; [|discriminate].
  destruct bound as [|[? l] [|? ?]]; try discriminate.
  run_call Hc; auto.
Qed.

Lemma setting_call_fields args kwargs (s s' : Setting.t) :
  Setting.call args kwargs s = (s', Ok tt) ->
  exists validate raw,
    SETTING_VALIDATORS (Setting.key s') = Some validate
    /\ validate raw = Ok (Setting.value s').
Proof.
  unfold Setting.call, Setting.__init__, mbind, M_bind, m_bind, m_lift, m_set, m_get, m_ret.
  intros Hc.
  destruct (call_args Setting.params args kwargs) as [bound|]; [|discriminate].
  destruct bound as [|[? tg] [|[? v] [|? ?]]]; try discriminate.
  run_call Hc; eauto.
Qed.

(** What every constructed element satisfies: a Point has an empty command
    list, its [location] is [(x, y)] and its counter is 0 or 1; a Jump is
    unbound with counter 0 or 1; both carry a frequency the validator
    accepted; a Label has a name that was not taken, no index and no links;
    a Setting has a registered key and a value its validator returned. *)
Theorem constructed_element_invariants (w : World) (args : list pyval)
  (kwargs : dict) (e e' : element) :
  construct w args kwargs e = Ok e' ->
  match e' with
  | EPoint p =>
      Point.commands p = Some []
      /\ Point.location p = (Point.x p, Point.y p)
      /\ (Point.counter p = 0%Z \/ Point.counter p = 1%Z)
      /\ exists fv, validate_nonnegative_int fv = Ok (Point.frequency p)
  | EJump j =>
      Jump.link j = None
      /\ (Jump.counter j = 0%Z \/ Jump.counter j = 1%Z)
      /\ exists fv, validate_nonnegative_int fv = Ok (Jump.frequency j)
  | ELabel l =>
      label_taken w (Label.label l) = false
      /\ Label.index l = None /\ Label.links l = ∅
  | ESetting s =>
      exists validate raw,
        SETTING_VALIDATORS (Setting.key s) = Some validate
        /\ validate raw = Ok (Setting.value s)
  end.
Proof.
  destruct e; simpl; intros Hc.
  - destruct (Point.call args kwargs Point.blank) as [p' [[]|]] eqn:E; simplify_eq.
    destruct (point_call_fields _ _ _ _ E) as (Hl & Hcnt & Hcmd & Hf). auto.
  - destruct (Label.call (label_taken w) args kwargs Label.blank) as [l' [[]|]] eqn:E;
      simplify_eq. eapply label_call_fields, E.
  - destruct (Jump.call args kwargs Jump.blank) as [j' [[]|]] eqn:E; simplify_eq.
    eapply jump_call_fields, E.
  - destruct (Setting.call args kwargs Setting.blank) as [s' [[]|]] eqn:E; simplify_eq.
    eapply setting_call_fields, E.
Qed.

(** A successful [update] of a Point keeps its command list (the source
    says: updating Point should not clear commands) while every other field
    is recomputed from the new arguments. *)
Theorem update_point_keeps_commands (w : World) (args : list pyval)
  (kwargs : dict) (p : Point.t) (cs : list command) (e' : element) :
  Point.commands p = Some cs ->
  update w args kwargs (EPoint p) = (e', Ok tt) ->
  exists p',
    e' = EPoint p'
    /\ Point.commands p' = Some cs
    /\ Point.location p' = (Point.x p', Point.y p')
    /\ (Point.counter p' = 0%Z \/ Point.counter p' = 1%Z).
Proof.
  intros Hcs Hu. unfold update, Component_update in Hu.
  destruct (Point.call args kwargs Point.blank) as [o [u|e0]]; simpl in Hu;
    [|discriminate].
  destruct (Point.call args kwargs p) as [p' r] eqn:E. simpl in Hu.
  inversion Hu; subst. exists p'.
  destruct (point_call_fields _ _ _ _ E) as (Hl & Hcnt & Hcmd & _).
  rewrite Hcs in Hcmd. auto.
Qed.

(** A successful [update] of a Jump unbinds it ([link] is [None] again,
    until [bind] is called), and a successful [update] of a Label forgets
    its index and its links. *)
Theorem update_resets_binding (w : World) (args : list pyval) (kwargs : dict)
  (e e' : element) :
  update w args kwargs e = (e', Ok tt) ->
  match e with
  | EJump _ => exists j', e' = EJump j' /\ Jump.link j' = None
  | ELabel _ =>
      exists l', e' = ELabel l' /\ Label.index l' = None /\ Label.links l' = ∅
  | _ => True
  end.
Proof.
  intros Hu. destruct e; [exact I| | |exact I]; unfold update, Component_update in Hu.
  - destruct (Label.call (label_taken w) args kwargs Label.blank) as [o [u|e0]];
      simpl in Hu; [|discriminate].
    destruct (Label.call (label_taken w) args kwargs l) as [l' r] eqn:E. simpl in Hu.
    inversion Hu; subst. exists l'.
    destruct (label_call_fields _ _ _ _ _ E) as (_ & Hi & Hl). auto.
  - destruct (Jump.call args kwargs Jump.blank) as [o [u|e0]]; simpl in Hu;
      [|discriminate].
    destruct (Jump.call args kwargs j) as [j' r] eqn:E. simpl in Hu.
    inversion Hu; subst. exists j'.
    destruct (jump_call_fields _ _ _ _ E) as (Hl & _). auto.
Qed.

End Editing.

(** *** The theorems on a concrete routine *)

Lemma bound_jump_period_witness :
  exists outs,
    @visits idle_book [running_world; running_world; running_world] (EJump jump_bound)
    = Ok (EJump (Jump.set_counter
                   (counter_after (Jump.counter jump_bound)
                      (Jump.frequency jump_bound) 3) jump_bound), outs)
    /\ length outs = 3%nat
    /\ forall i w w',
         [running_world; running_world; running_world] !! i = Some w ->
         outs !! i = Some w' ->
         w' = if (counter_after (Jump.counter jump_bound)
                    (Jump.frequency jump_bound) i =? 0)%Z
              then set_routine_index (Label.index label_a) w else w.
Proof.
  assert (Hl : Jump.link jump_bound = Some label_a) by (vm_compute; reflexivity).
  assert (Hf : (1 <= Jump.frequency jump_bound)%Z) by (vm_compute; discriminate).
  refine (@bound_jump_period idle_book
            [running_world; running_world; running_world] jump_bound label_a Hl Hf _).
  intros w Hw.
  repeat (apply elem_of_cons in Hw as [->|Hw]; [reflexivity|]). inversion Hw.
Defined.

(** The same run, evaluated: the cursor is sent to the label at visits 0
    and 2 and left alone at visit 1. *)
Lemma bound_jump_sample_run :
  match @visits idle_book [running_world; running_world; running_world]
          (EJump jump_bound) with
  | Ok (_, outs) => map routine_index outs = [Some 1%Z; Some 0%Z; Some 1%Z]
  | Raise _ => False
  end.
Proof. vm_compute. reflexivity. Qed.

Lemma point_off_period_only_counts_witness :
  @execute stopping_book (EPoint (Point.set_counter 1 point_with_command)) running_world
  = ((EPoint (Point.set_counter ((1 + 1) mod 2)
                (Point.set_counter 1 point_with_command)), running_world), Ok tt).
Proof.
  assert (Hc : Point.counter (Point.set_counter 1 point_with_command) <> 0%Z)
    by (vm_compute; discriminate).
  assert (Hf : (1 <= Point.frequency (Point.set_counter 1 point_with_command))%Z)
    by (vm_compute; discriminate).
  exact (@point_off_period_only_counts stopping_book
           (Point.set_counter 1 point_with_command) running_world Hc Hf eq_refl).
Defined.

Lemma setting_execute_assigns_witness :
  exists w',
    @execute idle_book (ESetting setting_record_layout) running_world
    = ((ESetting setting_record_layout, w'), Ok tt)
    /\ settings w' !! Setting.key setting_record_layout
       = Some (Setting.value setting_record_layout)
    /\ (forall k, k <> Setting.key setting_record_layout ->
          settings w' !! k = settings running_world !! k)
    /\ routine_index w' = routine_index running_world
    /\ stdout w' = stdout running_world
    /\ @execute idle_book (ESetting setting_record_layout) w'
       = ((ESetting setting_record_layout, w'), Ok tt).
Proof.
  exact (@setting_execute_assigns idle_book setting_record_layout running_world eq_refl).
Defined.

Lemma constructed_element_invariants_witness :
  exists validate raw,
    SETTING_VALIDATORS (Setting.key setting_record_layout) = Some validate
    /\ validate raw = Ok (Setting.value setting_record_layout).
Proof.
  assert (Hc : construct running_world [VStr "record_layout"; VStr "True"] []
                 (ESetting Setting.blank) = Ok (ESetting setting_record_layout))
    by (vm_compute; reflexivity).
  exact (constructed_element_invariants running_world
           [VStr "record_layout"; VStr "True"] [] (ESetting Setting.blank)
           (ESetting setting_record_layout) Hc).
Defined.

Lemma update_point_keeps_commands_witness :
  exists p',
    fst (update running_world [VInt 3; VInt 4] [("skip", VStr "True")]
           (EPoint point_with_command)) = EPoint p'
    /\ Point.commands p' = Some [CmdUser "Wait" [("duration", VInt 1)]]
    /\ Point.location p' = (Point.x p', Point.y p')
    /\ (Point.counter p' = 0%Z \/ Point.counter p' = 1%Z).
Proof.
  assert (Hcs : Point.commands point_with_command
                = Some [CmdUser "Wait" [("duration", VInt 1)]])
    by (vm_compute; reflexivity).
  assert (Hu : update running_world [VInt 3; VInt 4] [("skip", VStr "True")]
                 (EPoint point_with_command)
               = (fst (update running_world [VInt 3; VInt 4] [("skip", VStr "True")]
                         (EPoint point_with_command)), Ok tt))
    by (vm_compute; reflexivity).
  exact (update_point_keeps_commands running_world [VInt 3; VInt 4]
           [("skip", VStr "True")] point_with_command _ _ Hcs Hu).
Defined.

Lemma update_resets_binding_witness :
  exists j',
    fst (update running_world [VStr "b"] [] (EJump jump_bound)) = EJump j'
    /\ Jump.link j' = None.
Proof.
  assert (Hu : update running_world [VStr "b"] [] (EJump jump_bound)
               = (fst (update running_world [VStr "b"] [] (EJump jump_bound)), Ok tt))
    by (vm_compute; reflexivity).
  exact (update_resets_binding running_world [VStr "b"] [] (EJump jump_bound) _ Hu).
Defined.

End VisitsFacts.
(** ** Reading back what [encode] writes *)

Module TextFacts.
Import Components ComponentsFacts Text.

Lemma lstrip_length (s : string) : (String.length (lstrip s) <= String.length s)%nat.
Proof.
  induction s as [|c s IH]; simpl; [lia|].
  destruct (is_space c); simpl; lia.
Qed.

Lemma rstrip_length (s : string) : (String.length (rstrip s) <= String.length s)%nat.
Proof.
  induction s as [|c s IH]; simpl; [lia|].
  destruct (rstrip s); [destruct (is_space c)|]; simpl in *; lia.
Qed.

Lemma lstrip_fixed_length (s : string) :
  String.length (lstrip s) = String.length s -> lstrip s = s.
Proof.
  destruct s as [|c s]; simpl; [reflexivity|].
  destruct (is_space c); [|reflexivity].
  intros Hl. pose proof (lstrip_length s). lia.
Qed.

(** A string that [strip] leaves alone is left alone by both halves. *)
Lemma strip_fixed (s : string) : strip s = s -> lstrip s = s /\ rstrip s = s.
Proof.
  intros Hs. unfold strip in Hs.
  assert (Hl : lstrip s = s).
  { apply lstrip_fixed_length.
    pose proof (lstrip_length s). pose proof (rstrip_length (lstrip s)).
    rewrite Hs in *. lia. }
  rewrite Hl in Hs. auto.
Qed.

Lemma lstrip_head (c : ascii) (s : string) :
  lstrip (String c s) = String c s -> is_space c = false.
Proof.
  simpl. destruct (is_space c); [|reflexivity].
  intros Hl. pose proof (lstrip_length s) as Hle. rewrite Hl in Hle. simpl in Hle. lia.
Qed.

Lemma lstrip_app (k rest : string) :
  lstrip k = k -> lstrip (k +:+ String "=" rest) = k +:+ String "=" rest.
Proof.
  destruct k as [|c k]; intros Hk; [reflexivity|].
  apply lstrip_head in Hk. rewrite append_cons. simpl. rewrite Hk. reflexivity.
Qed.

Lemma rstrip_prefix (x t : string) :
  rstrip t = t -> t <> EmptyString -> rstrip (x +:+ t) = x +:+ t.
Proof.
  intros Ht Hne. induction x as [|c x IH]; [exact Ht|].
  rewrite append_cons. simpl. rewrite IH.
  destruct (x +:+ t) eqn:E; [|reflexivity].
  destruct x; [simpl in E; contradiction|rewrite append_cons in E; discriminate].
Qed.

Lemma rstrip_app (k v : string) :
  rstrip v = v -> rstrip (k +:+ String "=" v) = k +:+ String "=" v.
Proof.
  intros Hv. apply rstrip_prefix; [|discriminate].
  simpl. rewrite Hv. destruct v; reflexivity.
Qed.

Lemma find_app (k rest : string) :
  find "="%char k = (-1)%Z ->
  find "="%char (k +:+ String "=" rest) = Z.of_nat (String.length k).
Proof.
  induction k as [|c k IH]; intros Hk; [reflexivity|].
  rewrite append_cons. simpl in *.
  destruct (Ascii.eqb c "="); [discriminate|].
  destruct (Z.ltb_spec (find "=" k) 0) as [Hneg|Hpos]; [|lia].
  assert (Hk' : find "="%char k = (-1)%Z).
  { clear IH Hk. destruct k as [|c' k]; simpl in *; [reflexivity|].
    destruct (Ascii.eqb c' "="); [lia|].
    destruct (Z.ltb_spec (find "=" k) 0); [reflexivity|lia]. }
  rewrite IH by exact Hk'.
  destruct (Z.ltb_spec (Z.of_nat (String.length k)) 0); lia.
Qed.

Lemma take_app (k rest : string) : take (String.length k) (k +:+ rest) = k.
Proof.
  induction k as [|c k IH]; simpl; [destruct rest; reflexivity|].
  rewrite IH. reflexivity.
Qed.

Lemma drop_app (k rest : string) : drop (String.length k) (k +:+ rest) = rest.
Proof.
  induction k as [|c k IH]; simpl; [destruct rest; reflexivity|exact IH].
Qed.

(** One [key=value] argument is read back as the pair, split at its
    first [=]. *)
Lemma separate_one (k v : string) (rest args : list string)
  (kwargs : list (string * string)) :
  strip k = k -> strip v = v -> find "="%char k = (-1)%Z ->
  separate_args_loop ((k +:+ "=" +:+ v) :: rest) args kwargs
  = separate_args_loop rest args (dict_set k v kwargs).
Proof.
  intros Hk Hv Hf.
  destruct (strip_fixed k Hk) as [Hkl Hkr].
  destruct (strip_fixed v Hv) as [Hvl Hvr].
  change (k +:+ "=" +:+ v) with (k +:+ String "=" v).
  cbn [separate_args_loop].
  assert (Ha : strip (k +:+ String "=" v) = k +:+ String "=" v).
  { unfold strip. rewrite lstrip_app by exact Hkl. apply rstrip_app, Hvr. }
  rewrite Ha, find_app by exact Hf.
  destruct (Z.ltb_spec (-1) (Z.of_nat (String.length k))) as [_|]; [|lia].
  rewrite Nat2Z.id, take_app, Hk.
  replace (Z.to_nat (Z.of_nat (String.length k) + 1)) with (S (String.length k)) by lia.
  change (S (String.length k)) with (String.length (String "=" k)).
  assert (Hd : drop (S (String.length k)) (k +:+ String "=" v) = v).
  { clear. induction k as [|c k IH]; [destruct v; reflexivity|].
    rewrite append_cons. exact IH. }
  simpl String.length. rewrite Hd, Hv. reflexivity.
Qed.

Lemma dict_set_fresh (k v : string) (d : list (string * string)) :
  k ∉ d.*1 -> dict_set k v d = d ++ [(k, v)].
Proof.
  induction d as [|[k' v'] d IH]; intros Hk; [reflexivity|].
  simpl in *. apply not_elem_of_cons in Hk as [Hne Hk].
  destruct (String.eqb_spec k' k); [congruence|]. rewrite IH by exact Hk. reflexivity.
Qed.

Lemma separate_items (items : list (string * string)) (args : list string)
  (kwargs : list (string * string)) :
  (forall kv, kv ∈ items ->
     strip (fst kv) = fst kv /\ strip (snd kv) = snd kv
     /\ find "="%char (fst kv) = (-1)%Z) ->
  NoDup (kwargs ++ items).*1 ->
  separate_args_loop (map (fun kv => fst kv +:+ "=" +:+ snd kv) items) args kwargs
  = (args, kwargs ++ items).
Proof.
  revert kwargs. induction items as [|[k v] items IH]; intros kwargs Hok Hnd.
  - simpl. rewrite app_nil_r. reflexivity.
  - destruct (Hok (k, v)) as (Hk & Hv & Hf); [left|]. simpl in Hk, Hv, Hf.
    change (map (fun kv => fst kv +:+ "=" +:+ snd kv) ((k, v) :: items))
      with ((k +:+ "=" +:+ v) :: map (fun kv => fst kv +:+ "=" +:+ snd kv) items).
    rewrite separate_one by assumption.
    rewrite fmap_app in Hnd. simpl in Hnd.
    rewrite dict_set_fresh.
    + rewrite IH.
      * rewrite <- app_assoc. reflexivity.
      * intros kv Hkv. apply Hok. right. exact Hkv.
      * rewrite <- app_assoc, fmap_app. simpl. exact Hnd.
    + apply NoDup_app in Hnd as (_ & Hdisj & _). intros Hin.
      apply (Hdisj k Hin). left.
Qed.

Section RoundTrip.
Context `{Builtins}.

(** Round trip: the [key=value] items that [encode] writes for a
    component are read back by [separate_args] as exactly its encoded
    arguments, in order and with no positional argument, provided no key
    contains [=] and neither keys nor printed values start or end with
    white space. *)
Theorem separate_args_reads_encoded_items (kwargs : dict) :
  NoDup kwargs.*1 ->
  (forall kv, kv ∈ List.filter encoded kwargs ->
     strip (fst kv) = fst kv /\ strip (py_str (snd kv)) = py_str (snd kv)
     /\ find "="%char (fst kv) = (-1)%Z) ->
  separate_args (map item (List.filter encoded kwargs))
  = ([], map (fun kv => (fst kv, py_str (snd kv))) (List.filter encoded kwargs)).
Proof.
  intros Hnd Hok. unfold separate_args.
  assert (Hmap : map item (List.filter encoded kwargs)
                 = map (fun kv : string * string => fst kv +:+ "=" +:+ snd kv)
                     (map (fun kv => (fst kv, py_str (snd kv)))
                        (List.filter encoded kwargs))).
  { rewrite map_map. reflexivity. }
  rewrite Hmap, separate_items; [reflexivity| |].
  - intros [k v] Hkv. apply list_elem_of_In in Hkv. apply in_map_iff in Hkv.
    destruct Hkv as [[k0 v0] [Heq Hin]].
    simpl in Heq. injection Heq as <- <-. apply (Hok (k0, v0)), list_elem_of_In, Hin.
  - simpl. 
    assert (Hfst : (map (fun kv : string * pyval => (fst kv, py_str (snd kv)))
                      (List.filter encoded kwargs)).*1
                   = (List.filter encoded kwargs).*1).
    { generalize (List.filter encoded kwargs). intros l.
      induction l as [|x l IH]; [reflexivity|]. simpl. f_equal. exact IH. }
    rewrite Hfst.
    exact (sublist_NoDup _ _ Hnd (SkillsFacts.filter_fst_sublist _ kwargs)).
Qed.

End RoundTrip.

Lemma separate_args_reads_encoded_items_witness :
  separate_args (map item (List.filter encoded (Point.kwargs Samples.point_1_2)))
  = ([], [("x", "1"); ("y", "2"); ("frequency", "1"); ("skip", "False");
          ("adjust", "False")]).
Proof.
  rewrite (separate_args_reads_encoded_items (Point.kwargs Samples.point_1_2)).
  - vm_compute. reflexivity.
  - apply (bool_decide_unpack _). vm_compute. exact I.
  - intros kv Hkv. vm_compute in Hkv.
    repeat (apply elem_of_cons in Hkv as [->|Hkv];
            [vm_compute; repeat split; reflexivity|]).
    inversion Hkv.
Defined.

(** An argument without [=] stays positional, stripped. *)
Lemma separate_positional (a : string) :
  find "="%char (strip a) = (-1)%Z ->
  separate_args [a] = ([strip a], []).
Proof. intros Hf. unfold separate_args. simpl. rewrite Hf. reflexivity. Qed.

(** A later assignment to the same key replaces the value and keeps the
    key's place. *)
Lemma separate_duplicate_key :
  separate_args ["x=1"; "y=2"; " x = 3 "] = ([], [("x", "3"); ("y", "2")]).
Proof. vm_compute. reflexivity. Qed.

End TextFacts.
(** ** The crop sent to the solver *)

Module DetectionFacts.
Import Detection.

(** For an image at least 640 by 640 the crop is exactly 640 by 640 and
    is not resized; it is centred horizontally (to within one pixel) and
    starts at [vertical_offset], moved up just enough to fit. *)
Theorem crop_of_large_image (width height vertical_offset : Z) :
  (640 <= width)%Z -> (640 <= height)%Z -> (0 <= vertical_offset)%Z ->
  exists x0 y0,
    crop_box width height vertical_offset = (x0, y0, x0 + 640, y0 + 640)%Z
    /\ resized (crop_box width height vertical_offset) = false
    /\ (0 <= x0)%Z /\ (x0 + 640 <= width)%Z
    /\ (0 <= (width - (x0 + 640)) - x0 <= 1)%Z
    /\ y0 = Z.min vertical_offset (height - 640)
    /\ (0 <= y0)%Z /\ (y0 + 640 <= height)%Z.
Proof.
  intros Hw Hh Ho. unfold crop_box, resized, CROP_SIZE.
  destruct (Z.ltb_spec height (vertical_offset + 640));
    destruct (Z.ltb_spec width ((width - 640) / 2 + 640)); simpl.
  - exfalso. Z.to_euclidean_division_equations. lia.
  - exists ((width - 640) / 2)%Z, (height - 640)%Z.
    rewrite Z.max_r by lia.
    replace (height - (height - 640))%Z with 640%Z by lia.
    replace ((width - 640) / 2 + 640 - (width - 640) / 2)%Z with 640%Z by lia.
    replace (height - 640 + 640)%Z with height by lia.
    repeat split; try reflexivity; Z.to_euclidean_division_equations; lia.
  - exfalso. Z.to_euclidean_division_equations. lia.
  - exists ((width - 640) / 2)%Z, vertical_offset.
    replace (vertical_offset + 640 - vertical_offset)%Z with 640%Z by lia.
    replace ((width - 640) / 2 + 640 - (width - 640) / 2)%Z with 640%Z by lia.
    repeat split; try reflexivity; Z.to_euclidean_division_equations; lia.
Qed.

Lemma crop_of_large_image_witness :
  exists x0 y0,
    crop_box 1366 768 50 = (x0, y0, x0 + 640, y0 + 640)%Z
    /\ resized (crop_box 1366 768 50) = false
    /\ (0 <= x0)%Z /\ (x0 + 640 <= 1366)%Z
    /\ (0 <= (1366 - (x0 + 640)) - x0 <= 1)%Z
    /\ y0 = Z.min 50 (768 - 640)
    /\ (0 <= y0)%Z /\ (y0 + 640 <= 768)%Z.
Proof. apply (crop_of_large_image 1366 768 50); lia. Defined.

(** For any image and a non-negative offset the crop box never passes the
    right or bottom edge and never starts above the top; vertically it
    covers [min(640, height)] rows.  Horizontally it covers
    [min(640, width)] columns from inside the image, except for a width of
    exactly 639, where it starts one pixel left of the image. *)
Theorem crop_box_bounds (width height vertical_offset : Z) :
  (0 <= width)%Z -> (0 <= height)%Z -> (0 <= vertical_offset)%Z ->
  match crop_box width height vertical_offset with
  | (x0, y0, x1, y1) =>
      (0 <= y0)%Z /\ (y1 <= height)%Z /\ (y1 - y0 = Z.min 640 height)%Z
      /\ (x1 <= width)%Z
      /\ (width <> 639%Z -> (0 <= x0)%Z /\ (x1 - x0 = Z.min 640 width)%Z)
      /\ (width = 639%Z -> x0 = (-1)%Z /\ x1 = 639%Z)
  end.
Proof.
  intros Hw Hh Ho. unfold crop_box, CROP_SIZE.
  destruct (Z.ltb_spec height (vertical_offset + 640));
    destruct (Z.ltb_spec width ((width - 640) / 2 + 640)); simpl;
    repeat split; intros; Z.to_euclidean_division_equations; lia.
Qed.

Lemma crop_box_bounds_witness :
  match crop_box 639 480 50 with
  | (x0, y0, x1, y1) =>
      (0 <= y0)%Z /\ (y1 <= 480)%Z /\ (y1 - y0 = Z.min 640 480)%Z
      /\ (x1 <= 639)%Z
      /\ (639%Z <> 639%Z -> (0 <= x0)%Z /\ (x1 - x0 = Z.min 640 639)%Z)
      /\ (639%Z = 639%Z -> x0 = (-1)%Z /\ x1 = 639%Z)
  end.
Proof. apply (crop_box_bounds 639 480 50); lia. Defined.

End DetectionFacts.

(** ** Numbering the saved frames *)

Module FailedImagesFacts.
Import FailedImages ComponentsFacts.

Lemma span_digits_uint (d : Decimal.uint) (rest : string) :
  match rest with String c _ => is_digit c = false | EmptyString => True end ->
  span_digits (NilEmpty.string_of_uint d +:+ rest)
  = (NilEmpty.string_of_uint d, rest).
Proof.
  intros Hrest. induction d; simpl; try (rewrite IHd; reflexivity).
  change ("" +:+ rest) with rest.
  destruct rest as [|c rest]; [reflexivity|]. simpl. rewrite Hrest. reflexivity.
Qed.

Lemma to_uint_nonempty (p : positive) :
  exists c s, NilEmpty.string_of_uint (Pos.to_uint p) = String c s.
Proof.
  pose proof (Unsigned.to_uint_nonnil p) as Hn.
  destruct (Pos.to_uint p); simpl; try contradiction; eauto.
Qed.

(** The name written for number [n] is read back as [n]. *)
Lemma image_number_of_name (n : Z) :
  (1 <= n)%Z -> image_number (failed_image_name n) = Some n.
Proof.
  intros Hn. destruct n as [|p|p]; try lia.
  unfold failed_image_name, str_int, image_number. simpl Z.to_int.
  unfold NilZero.string_of_int, NilZero.string_of_uint.
  assert (Hs : match Pos.to_uint p with
               | Decimal.Nil => "0"
               | _ => NilEmpty.string_of_uint (Pos.to_uint p)
               end = NilEmpty.string_of_uint (Pos.to_uint p)).
  { pose proof (Unsigned.to_uint_nonnil p). destruct (Pos.to_uint p);
      try reflexivity; contradiction. }
  rewrite Hs.
  change (match_literal "image_"
            ("image_" +:+ NilEmpty.string_of_uint (Pos.to_uint p) +:+ ".png"))
    with (Some (NilEmpty.string_of_uint (Pos.to_uint p) +:+ ".png")).
  cbv beta iota. rewrite span_digits_uint by reflexivity. simpl fst. simpl snd.
  destruct (to_uint_nonempty p) as (c & s & Hcs). rewrite Hcs.
  change (match_literal ".png" ".png") with (Some ""). cbv beta iota.
  rewrite <- Hcs. unfold int_of_digits. rewrite NilEmpty.usu.
  unfold Z.of_uint. rewrite Unsigned.of_to. reflexivity.
Qed.

Lemma max_loop_bounds (names : list string) (m : Z) :
  let r := foldl (fun max_num name =>
                    match image_number name with
                    | Some n => Z.max max_num n
                    | None => max_num
                    end) m names in
  (m <= r)%Z
  /\ forall name k, name ∈ names -> image_number name = Some k -> (k <= r)%Z.
Proof.
  revert m. induction names as [|a names IH]; intros m; simpl.
  - split; [lia|]. intros name k Hin. inversion Hin.
  - destruct (image_number a) as [n|] eqn:Ea.
    + destruct (IH (Z.max m n)) as [Hm Hall]. split; [lia|].
      intros name k Hin Hk. apply elem_of_cons in Hin as [->|Hin].
      * rewrite Ea in Hk. inversion Hk; subst. lia.
      * eapply Hall; eassumption.
    + destruct (IH m) as [Hm Hall]. split; [exact Hm|].
      intros name k Hin Hk. apply elem_of_cons in Hin as [->|Hin].
      * congruence.
      * eapply Hall; eassumption.
Qed.

(** The number chosen for the next saved frame is at least 1 and larger
    than the number of every [image_N.png] of the folder (in any letter
    case, with or without leading zeros), so the file it names is not in
    the folder: a saved frame never overwrites an earlier one, also after
    a restart. *)
Theorem next_failed_image_is_fresh (names : list string) :
  let n := next_failed_image_number names in
  (1 <= n)%Z
  /\ (forall name k, name ∈ names -> image_number name = Some k -> (k < n)%Z)
  /\ failed_image_name n ∉ names.
Proof.
  unfold next_failed_image_number.
  destruct (max_loop_bounds names 0) as [Hm Hall]. cbv zeta in *.
  split; [lia|]. split.
  - intros name k Hin Hk. specialize (Hall name k Hin Hk). lia.
  - intros Hin. set (m := foldl _ 0%Z names) in *.
    assert (Hn : (1 <= m + 1)%Z) by lia.
    specialize (Hall _ _ Hin (image_number_of_name _ Hn)). lia.
Qed.

(** The match ignores case, accepts leading zeros, and is anchored at the
    start only. *)
Lemma image_number_examples :
  image_number "IMAGE_007.PNG" = Some 7%Z
  /\ image_number "image_12.png.bak" = Some 12%Z
  /\ image_number "my_image_3.png" = None
  /\ image_number "image_.png" = None.
Proof. vm_compute. auto. Qed.

End FailedImagesFacts.
(** ** The rune solver when a round succeeds *)

Module BotRoundsFacts.
Import Components Bot BotRounds BotFacts.

Lemma poll_buff_found (r : round) (s : State) :
  rune_buff r 0%nat || rune_buff r 1%nat || rune_buff r 2%nat = true ->
  poll_buff r [0; 1; 2]%nat s = (clicked s, Ok true).
Proof.
  intros H. cbn [poll_buff].
  destruct (rune_buff r 0%nat); [reflexivity|].
  destruct (rune_buff r 1%nat); [reflexivity|].
  destruct (rune_buff r 2%nat); [reflexivity|discriminate].
Qed.

Lemma after_rounds_nil (s : State) : after_rounds [] s = s.
Proof. destruct s. unfold after_rounds. simpl. rewrite app_nil_r. reflexivity. Qed.

Lemma after_rounds_failed (r : round) (rs : list round) (s : State) :
  round_solves r = false ->
  after_rounds (r :: rs) s = after_rounds rs (emit_all (failed_round_events r) s).
Proof.
  intros Hr. unfold after_rounds, round_events, emit_all. simpl.
  rewrite Hr. simpl. rewrite <- app_assoc. reflexivity.
Qed.

Lemma after_rounds_solved (r : round) (rs : list round) (s : State) :
  round_solves r = true ->
  after_rounds (r :: rs) s
  = after_rounds rs (clicked (emit (EnterArrows (solution r)) s)).
Proof.
  intros Hr. unfold after_rounds, round_events, clicked, emit. simpl.
  rewrite Hr. simpl. rewrite <- !app_assoc.
  destruct (existsb round_solves rs); reflexivity.
Qed.

(** The loop over rounds that do not raise: every round runs, also after
    one has succeeded. *)
Lemma rounds_loop_answered (rs : list round) (found : bool) (fr : option nat)
  (s : State) :
  forallb (fun r => round_fails r || round_solves r) rs = true ->
  rounds_loop rs found fr s
  = (after_rounds rs s,
     Ok (found || existsb round_solves rs, List.last (map frame rs) fr)).
Proof.
  revert found fr s. induction rs as [|r rs IH]; intros found fr s Hrs.
  - simpl. rewrite after_rounds_nil, orb_false_r. reflexivity.
  - simpl in Hrs. apply andb_true_iff in Hrs as [Hr Hrs].
    change (map frame (r :: rs)) with (frame r :: map frame rs).
    rewrite last_cons_default.
    change (existsb round_solves (r :: rs))
      with (round_solves r || existsb round_solves rs).
    destruct (round_solves r) eqn:Es.
    + rewrite after_rounds_solved by exact Es.
      unfold round_solves in Es.
      destruct (frame r) as [f|] eqn:Ef; [|discriminate].
      destruct (solver_error r) eqn:Ee; [discriminate|].
      apply andb_true_iff in Es as [E4 Eb].
      cbn [rounds_loop]. rewrite Ef, Ee. apply Nat.eqb_eq in E4. rewrite E4.
      cbn [Nat.eqb negb andb].
      unfold mbind, M_bind, m_bind, m_set.
      rewrite poll_buff_found by exact Eb.
      rewrite IH by exact Hrs. destruct found; reflexivity.
    + rewrite orb_false_r in Hr.
      rewrite after_rounds_failed by exact Es.
      destruct (round_fails_frame r Hr) as (f & Ef & Ee & Hr').
      cbn [rounds_loop]. rewrite Ef, Ee.
      destruct (length (solution r) =? 4)%nat eqn:E4.
      * assert (Hev : failed_round_events r = [EnterArrows (solution r)])
          by (unfold failed_round_events; rewrite E4; reflexivity).
        rewrite Hev. change (emit_all [EnterArrows (solution r)] s)
          with (emit (EnterArrows (solution r)) s).
        apply Nat.eqb_eq in E4. rewrite E4. cbn [Nat.eqb negb andb].
        apply negb_true_iff in Hr'.
        apply orb_false_iff in Hr' as [Hr' H2].
        apply orb_false_iff in Hr' as [H0 H1].
        unfold mbind, M_bind, m_bind, m_set.
        rewrite poll_buff_none by (cbn [forallb]; rewrite H0, H1, H2; reflexivity).
        rewrite <- Ef. rewrite IH by exact Hrs. destruct found; reflexivity.
      * assert (Hev : failed_round_events r = [])
          by (unfold failed_round_events; rewrite E4; reflexivity).
        rewrite Hev, andb_false_r, emit_all_nil. rewrite <- Ef.
        rewrite IH by exact Hrs. reflexivity.
Qed.

(** A call of [_solve_rune] in which every round captures a frame and gets
    the solver's answer, and at least one round finds the buff icon, ends
    with [attempts] at 1, whatever it was before, and [rune_active]
    cleared.  All three rounds run, also after one has
    succeeded (the [break] leaves the polls only), so the arrows may be
    entered again; no frame is saved, and neither the recovery nor the abort
    runs. *)
Theorem solved_rune_resets_attempts (s : State) (r0 r1 r2 : round) :
  enabled s = true ->
  forallb (fun r => round_fails r || round_solves r) [r0; r1; r2] = true ->
  existsb round_solves [r0; r1; r2] = true ->
  exists s',
    _solve_rune r0 r1 r2 s = (s', Ok tt)
    /\ attempts s' = 1%Z
    /\ rune_active s' = false
    /\ events s'
       = events s ++ approach
         ++ round_events r0 ++ round_events r1 ++ round_events r2.
Proof.
  intros Hen Hall Hex.
  unfold _solve_rune, run_if_enabled.
  change (config_enabled s) with (enabled s). rewrite Hen.
  unfold mbind, M_bind, m_bind, m_set, m_get, m_ret. lazy beta iota.
  rewrite rounds_loop_answered by exact Hall.
  rewrite Hex. unfold after_rounds. rewrite Hex.
  simpl. eexists. split; [reflexivity|]. simpl.
  repeat split. rewrite <- !app_assoc. simpl. rewrite app_nil_r. reflexivity.
Qed.

Lemma solved_rune_resets_attempts_witness :
  exists s',
    _solve_rune short_answer late_buff no_answer (after_failures 20) = (s', Ok tt)
    /\ attempts s' = 1%Z
    /\ rune_active s' = false
    /\ events s'
       = [Move; Adjust; Adjust; Interact;
          EnterArrows ["left"; "left"; "up"; "down"]; ClickBuff].
Proof.
  assert (Hen : enabled (after_failures 20) = true) by (vm_compute; reflexivity).
  assert (Hall : forallb (fun r => round_fails r || round_solves r)
                   [short_answer; late_buff; no_answer] = true)
    by (vm_compute; reflexivity).
  assert (Hex : existsb round_solves [short_answer; late_buff; no_answer] = true)
    by (vm_compute; reflexivity).
  exact (solved_rune_resets_attempts (after_failures 20)
           short_answer late_buff no_answer Hen Hall Hex).
Defined.

End BotRoundsFacts.
(** ** The keys that Fall and Move hold *)

Module KeysFacts.
Import Keys.

Lemma held_app (es es' : list event) (keys : gset string) :
  held (es ++ es') keys = held es' (held es keys).
Proof.
  revert keys. induction es as [|e es IH]; intros keys; [reflexivity|].
  destruct e; simpl; apply IH.
Qed.

Lemma steps_app (es es' : list event) : steps (es ++ es') = (steps es + steps es')%nat.
Proof. unfold steps. rewrite List.filter_app, length_app. reflexivity. Qed.

Lemma keys_same (k : string) : ({[k]} ∪ {[k]} : gset string) = {[k]}.
Proof. apply union_idemp_L. Qed.

Lemma keys_swap (k p : string) :
  p <> k -> (({[k]} ∪ {[p]}) ∖ {[p]} : gset string) = {[k]}.
Proof.
  intros Hne. apply set_eq. intros x.
  rewrite elem_of_difference, elem_of_union, !elem_of_singleton.
  split; [tauto|]. intros ->. split; [tauto|]. intros Heq. apply Hne. symmetry. exact Heq.
Qed.

Lemma keys_first (k : string) : ({[k]} ∪ ∅ : gset string) = {[k]}.
Proof. apply union_empty_r_L. Qed.

Lemma keys_release (p : string) : (({[p]} : gset string) ∖ {[p]}) = ∅.
Proof. apply difference_diag_L. Qed.

Section Commands.
Context {W : Type} `{Game W}.

(** The intervals the commands hand to [rand_float] are not empty. *)
Lemma jump_pause_interval :
  Qle_bool (Float.lit (12 # 100)) (Float.lit (5 # 100)) = false.
Proof. vm_compute. reflexivity. Qed.

Lemma fright_pause_interval :
  Qle_bool (Float.lit (4 # 10)) (Float.lit (2 # 10)) = false.
Proof. vm_compute. reflexivity. Qed.

Lemma sleep_rand_float_ok (start end_ : Q) (s : io) :
  Qle_bool end_ start = false ->
  exists d w, sleep_rand_float start end_ s = Ok (w, snd s ++ [Sleep d]).
Proof.
  intros Hlt. unfold sleep_rand_float, Rotation.rand_float. rewrite Hlt.
  simpl. eauto.
Qed.

(** A call that is no [key_down], [key_up] or [step] keeps the invariant. *)
Lemma invariant_other (max : Z) (es : list event) (e : event) (c : Z)
  (keys : gset string) :
  match e with KeyDown _ | KeyUp _ | Step _ _ => False | _ => True end ->
  invariant max es c keys -> invariant max (es ++ [e]) c keys.
Proof.
  intros He (Hs & Hk & Hh). unfold invariant.
  rewrite steps_app, held_app, Hh. split; [|split].
  - destruct e; try contradiction; unfold steps at 2; simpl; lia.
  - intros k Hin. apply elem_of_app in Hin as [Hin|Hin]; [auto|].
    apply list_elem_of_singleton in Hin. subst e. contradiction.
  - destruct e; try contradiction; reflexivity.
Qed.

Lemma invariant_step (max : Z) (es : list event) (d : string) (p : Q * Q)
  (c : Z) (keys : gset string) :
  (0 < c)%Z ->
  invariant max es c keys -> invariant max (es ++ [Step d p]) (c - 1) keys.
Proof.
  intros Hc (Hs & Hk & Hh). unfold invariant.
  rewrite steps_app, held_app, Hh. split; [|split].
  - unfold steps at 2. simpl. lia.
  - intros k Hin. apply elem_of_app in Hin as [Hin|Hin]; [auto|].
    apply list_elem_of_singleton in Hin. discriminate.
  - reflexivity.
Qed.

Lemma invariant_key_up (max : Z) (es : list event) (k : string) (c : Z)
  (keys : gset string) :
  invariant max es c keys -> invariant max (es ++ [KeyUp k]) c (keys ∖ {[k]}).
Proof.
  intros (Hs & Hk & Hh). unfold invariant.
  rewrite steps_app, held_app, Hh. split; [|split].
  - unfold steps at 2. simpl. lia.
  - intros k' Hin. apply elem_of_app in Hin as [Hin|Hin]; [auto|].
    apply list_elem_of_singleton in Hin. discriminate.
  - reflexivity.
Qed.

Lemma invariant_key_down (max : Z) (es : list event) (k : string) (c : Z)
  (keys : gset string) :
  direction k ->
  invariant max es c keys -> invariant max (es ++ [KeyDown k]) c ({[k]} ∪ keys).
Proof.
  intros Hd (Hs & Hk & Hh). unfold invariant.
  rewrite steps_app, held_app, Hh. split; [|split].
  - unfold steps at 2. simpl. lia.
  - intros k' Hin. apply elem_of_app in Hin as [Hin|Hin]; [auto|].
    apply list_elem_of_singleton in Hin. injection Hin as Heq. subst k'. exact Hd.
  - reflexivity.
Qed.

Lemma truthy_direction (k : string) : direction k -> truthy k = true.
Proof. intros [Hk | [Hk | Hk]]; subst k; reflexivity. Qed.

Lemma new_direction_inv (max : Z) (key : string) (r : run) :
  direction key -> Inv max r -> Inv max (_new_direction key r).
Proof.
  intros Hd Hr. unfold Inv, _new_direction in *. cbn [out prev_direction counter].
  apply (invariant_key_down _ _ key _ _ Hd) in Hr.
  unfold holding. rewrite (truthy_direction _ Hd).
  unfold holding in Hr.
  destruct (truthy (prev_direction r)) eqn:Et; cbn [andb].
  - destruct (String.eqb (prev_direction r) key) eqn:Ek; cbn [negb].
    + apply String.eqb_eq in Ek. rewrite Ek, keys_same in Hr. exact Hr.
    + apply String.eqb_neq in Ek.
      apply (invariant_key_up _ _ (prev_direction r)) in Hr.
      rewrite keys_swap in Hr by exact Ek. exact Hr.
  - rewrite keys_first in Hr. exact Hr.
Qed.

Lemma take_step_inv (max : Z) (key : string) (point : Q * Q) (more : bool)
  (pause : Float.float) (r : run) :
  (0 < counter r)%Z -> Inv max r -> Inv max (take_step key point more pause r).
Proof.
  intros Hc Hr. unfold Inv, take_step in *. cbn [out prev_direction counter].
  apply (invariant_step _ _ key point) in Hr; [|exact Hc].
  set (s1 := call (Step key point) (out r)) in *.
  change (snd (out r) ++ [Step key point]) with (snd s1) in Hr.
  assert (H2 : invariant max
            (snd (if record_layout (fst s1)
                  then call (LayoutAdd (player_pos (fst s1))) s1 else s1))
            (counter r - 1) (holding (prev_direction r))).
  { destruct (record_layout (fst s1)); [|exact Hr].
    apply invariant_other; [exact I|exact Hr]. }
  set (s2 := if record_layout (fst s1) then _ else s1) in *.
  apply (invariant_other _ _ TrySkill) in H2; [|exact I].
  destruct more; [|exact H2].
  apply invariant_other; [exact I|exact H2].
Qed.

Lemma inv_set_out (max : Z) (w : W) (r : run) :
  Inv max r -> Inv max (set_out (w, snd (out r)) r).
Proof. intros Hr. exact Hr. Qed.

(** The body with [toggle] true: it returns, keeps the invariant, and
    either leaves the run as it is or takes one step. *)
Lemma horizontal_inv (max : Z) (point : Q * Q) (more : bool) (r : run) :
  (0 < counter r)%Z -> Inv max r ->
  exists r', horizontal point more r = Ok r' /\ Inv max r'
    /\ (if off_axis (fst (out r)) (fst point - fst (player_pos (fst (out r))))
        then counter r' = (counter r - 1)%Z else r' = r).
Proof.
  intros Hc Hr. unfold horizontal.
  destruct (off_axis (fst (out r)) _); [|eauto].
  set (key := if negative _ then "left" else "right").
  assert (Hd : direction key).
  { unfold key, direction. destruct (negative _); auto. }
  pose proof (new_direction_inv max key r Hd Hr) as Hn.
  set (r1 := _new_direction key r) in *.
  assert (Hc1 : counter r1 = counter r) by reflexivity.
  destruct (negb (Qle_bool (Float.lit (3 # 10)) (fst (random (fst (out r1)))))).
  - destruct (sleep_rand_float_ok (Float.lit (5 # 100)) (Float.lit (12 # 100))
                (call (Press (jump_key (snd (random (fst (out r1))))) 1)
                   (snd (random (fst (out r1))), snd (out r1))) jump_pause_interval)
      as (d & w & Hs).
    rewrite Hs. cbn [mbind result_bind Py.bind].
    eexists. split; [reflexivity|]. split; [|reflexivity].
    apply take_step_inv; [cbn [set_out counter]; lia|].
    unfold Inv. cbn [set_out out prev_direction counter snd].
    apply invariant_other; [exact I|].
    apply invariant_other; [exact I|]. exact Hn.
  - cbn [mbind result_bind Py.bind].
    eexists. split; [reflexivity|]. split; [|reflexivity].
    apply take_step_inv; [cbn [set_out counter]; lia|]. exact Hn.
Qed.

Lemma vertical_inv (max : Z) (point : Q * Q) (more : bool) (r : run) :
  (0 < counter r)%Z -> Inv max r ->
  Inv max (vertical point more r)
  /\ (if off_axis (fst (out r)) (snd point - snd (player_pos (fst (out r))))
      then counter (vertical point more r) = (counter r - 1)%Z
      else vertical point more r = r).
Proof.
  intros Hc Hr. unfold vertical.
  destruct (off_axis (fst (out r)) _); [|auto].
  destruct (negative _).
  - change (String.eqb "up" "up") with true. cbv iota.
    destruct (truthy (prev_direction r)) eqn:Et.
    + split; [|reflexivity]. apply take_step_inv; [exact Hc|].
      unfold Inv in *. cbn [set_prev_direction set_out out prev_direction counter].
      apply (invariant_key_up _ _ (prev_direction r)) in Hr.
      unfold holding in *. rewrite Et in Hr. rewrite keys_release in Hr.
      exact Hr.
    + split; [|reflexivity]. apply take_step_inv; [exact Hc|exact Hr].
  - change (String.eqb "down" "up") with false. cbv iota.
    split; [|reflexivity]. apply take_step_inv; [exact Hc|].
    apply new_direction_inv; [|exact Hr]. unfold direction. auto.
Qed.

Lemma continues_counter (target point : Q * Q) (r : run) :
  continues target point r = true -> (0 < counter r)%Z.
Proof.
  unfold continues. intros Hc.
  apply andb_true_iff in Hc as [Hc _]. apply andb_true_iff in Hc as [Hc _].
  apply andb_true_iff in Hc as [_ Hc]. apply Z.ltb_lt in Hc. exact Hc.
Qed.

(** The [while] loop keeps the invariant, however many rounds it runs. *)
Lemma while_loop_inv (max : Z) (target point : Q * Q) (more : bool) (fuel : nat) :
  forall (toggle : bool) (r : run),
    Inv max r ->
    exists r' finished,
      while_loop fuel target point more toggle r = Ok (r', finished)
      /\ Inv max r'.
Proof.
  induction fuel as [|fuel IH]; intros toggle r Hr; cbn [while_loop].
  - destruct (continues target point r); eauto.
  - destruct (continues target point r) eqn:Ec; [|eauto].
    apply continues_counter in Ec.
    destruct toggle.
    + destruct (horizontal_inv max point more r Ec Hr) as (r' & Hh & Hr' & _).
      rewrite Hh. cbn [mbind result_bind Py.bind]. apply IH, Hr'.
    + cbn [mbind result_bind Py.bind].
      apply IH. apply vertical_inv; assumption.
Qed.

Lemma segment_inv (max : Z) (target point : Q * Q) (more : bool) (fuel : nat)
  (r : run) :
  invariant max (snd (out r)) (counter r) ∅ ->
  exists r' finished,
    segment fuel target point more r = Ok (r', finished)
    /\ invariant max (snd (out r')) (counter r')
         (if finished then ∅ else holding (prev_direction r')).
Proof.
  intros Hr. unfold segment.
  destruct (while_loop_inv max target point more fuel true
              (set_prev_direction "" r) Hr) as (r' & finished & Hw & Hr').
  rewrite Hw. destruct finished; [|eauto].
  eexists _, true. split; [reflexivity|].
  unfold Inv, holding in Hr'.
  destruct (truthy (prev_direction r')) eqn:Et; [|exact Hr'].
  cbn [set_out out counter snd call].
  apply (invariant_key_up _ _ (prev_direction r')) in Hr'.
  rewrite keys_release in Hr'. exact Hr'.
Qed.

Lemma segments_inv (max : Z) (target : Q * Q) (n : nat) (fuel : nat)
  (path : list (Q * Q)) :
  forall (i : nat) (r : run),
    invariant max (snd (out r)) (counter r) ∅ ->
    exists r' finished,
      segments fuel target n i path r = Ok (r', finished)
      /\ invariant max (snd (out r')) (counter r')
           (if finished then ∅ else holding (prev_direction r')).
Proof.
  induction path as [|point rest IH]; intros i r Hr; cbn [segments].
  - eexists r, true. split; [reflexivity|exact Hr].
  - destruct (segment_inv max target point (i <? n - 1)%nat fuel r Hr)
      as (r' & finished & Hs & Hr').
    rewrite Hs. destruct finished; [apply IH, Hr'|eauto].
Qed.

Lemma fall_loop_presses (start : Q * Q) (distance : Q) (counter : nat) :
  forall s : io,
    exists n, (n <= counter)%nat
      /\ snd (fall_loop counter start distance s)
         = snd s ++ List.repeat (Press "space" 1) n.
Proof.
  induction counter as [|counter IH]; intros s; cbn [fall_loop].
  - exists 0%nat. split; [lia|]. simpl. rewrite app_nil_r. reflexivity.
  - destruct (enabled (fst s) && closer_than start (player_pos (fst s)) distance).
    + destruct (IH (call (Press "space" 1) s)) as (n & Hn & Hs).
      exists (S n). split; [lia|]. rewrite Hs. cbn [call snd].
      rewrite <- app_assoc. reflexivity.
    + exists 0%nat. split; [lia|]. simpl. rewrite app_nil_r. reflexivity.
Qed.

(** [Fall.main] never raises: it holds down, sleeps, pauses at most once
    more, presses space at most six times, releases down and sleeps. *)
Theorem fall_main_presses (distance : Q) (s : io) :
  exists s' pause n,
    Fall_main distance s = Ok s'
    /\ (n <= 6)%nat
    /\ (length pause <= 1)%nat
    /\ forallb is_sleep pause = true
    /\ snd s'
       = snd s ++ [KeyDown "down"; Sleep (literal (5 # 100))] ++ pause
         ++ List.repeat (Press "space" 1) n ++ [KeyUp "down"; Sleep (literal (5 # 100))].
Proof.
  unfold Fall_main. cbv zeta.
  set (s1 := call (Sleep (literal (5 # 100))) (call (KeyDown "down") s)).
  assert (H1 : snd s1 = snd s ++ [KeyDown "down"; Sleep (literal (5 # 100))]).
  { unfold s1. cbn [call snd]. rewrite <- app_assoc. reflexivity. }
  assert (Hp : exists s2 pause,
             (if stage_fright (fst s1)
              then if Utils.bernoulli (1 # 2) (fst (random (fst s1)))
                   then sleep_rand_float (Float.lit (2 # 10)) (Float.lit (4 # 10))
                          (snd (random (fst s1)), snd s1)
                   else Ok (snd (random (fst s1)), snd s1)
              else Ok s1) = Ok s2
             /\ (length pause <= 1)%nat /\ forallb is_sleep pause = true
             /\ snd s2 = snd s1 ++ pause).
  { destruct (stage_fright (fst s1)).
    - destruct (Utils.bernoulli (1 # 2) (fst (random (fst s1)))).
      + destruct (sleep_rand_float_ok (Float.lit (2 # 10)) (Float.lit (4 # 10))
                    (snd (random (fst s1)), snd s1) fright_pause_interval)
          as (d & w & Hs).
        rewrite Hs. exists (w, snd s1 ++ [Sleep d]), [Sleep d].
        split; [reflexivity|]. split; [simpl; lia|]. split; reflexivity.
      + eexists _, []. split; [reflexivity|]. split; [simpl; lia|].
        split; [reflexivity|]. simpl. rewrite app_nil_r. reflexivity.
    - exists s1, []. split; [reflexivity|]. split; [simpl; lia|].
      split; [reflexivity|]. rewrite app_nil_r. reflexivity. }
  destruct Hp as (s2 & pause & Hs2 & Hlen & Hsl & Htr).
  rewrite Hs2. cbn [mbind result_bind Py.bind].
  destruct (fall_loop_presses (player_pos (fst s)) distance 6 s2) as (n & Hn & Hl).
  eexists _, pause, n. split; [reflexivity|]. split; [exact Hn|].
  split; [exact Hlen|]. split; [exact Hsl|].
  cbn [call snd]. rewrite Hl, Htr, H1. rewrite <- !app_assoc. reflexivity.
Qed.

(** [Move.main] calls [key_down] for left, right and down only (never for
    up).  After any number of rounds of its loops the key it holds is the
    one [self.prev_direction] names (none when that is empty), and when
    [main] returns it holds none.  [step] is called at most [max_steps]
    times over the whole path, not for each point of it.  All this holds
    whatever the player position, the layout, the random draws and the
    command book's [step] do. *)
Theorem move_main_releases_keys (fuel : nat) (self : Move) (w : W) :
  exists r finished,
    Move_main fuel self w = Ok (r, finished)
    /\ (steps (snd (out r)) <= Z.to_nat (max_steps self))%nat
    /\ (forall k, KeyDown k ∈ snd (out r) ->
                  k = "left" \/ k = "right" \/ k = "down")
    /\ held (snd (out r)) ∅
       = (if finished then ∅ else holding (prev_direction r)).
Proof.
  unfold Move_main.
  destruct (segments_inv (max_steps self) (target self)
              (length (shortest_path w (player_pos w) (target self))) fuel
              (shortest_path w (player_pos w) (target self)) 0%nat
              {| out := (w, []); prev_direction := self_prev_direction self;
                 counter := max_steps self |})
    as (r & finished & Hs & Hsteps & Hkeys & Hheld).
  { split; [|split].
    - cbn [out snd counter]. unfold steps. simpl. lia.
    - intros k Hin. inversion Hin.
    - reflexivity. }
  exists r, finished. split; [exact Hs|]. split; [lia|].
  split; [exact Hkeys|exact Hheld].
Qed.

(** The [while] loop returns within twice as many rounds as steps are
    left, when a point out of tolerance is off on one axis at least. *)
Lemma while_loop_returns (max : Z) (target point : Q * Q) (more : bool) :
  (forall (w : W) (a p : Q * Q),
     above_tolerance w a p = true ->
     off_axis w (fst p - fst a) || off_axis w (snd p - snd a) = true) ->
  forall (fuel : nat) (toggle : bool) (r : run),
    Inv max r ->
    ((2 * Z.to_nat (counter r) <= fuel)%nat ->
     exists r', while_loop fuel target point more toggle r = Ok (r', true)
                /\ Inv max r' /\ (counter r' <= counter r)%Z)
    /\ (continues target point r = true ->
        off_axis (fst (out r))
          (if toggle then snd point - snd (player_pos (fst (out r)))
           else fst point - fst (player_pos (fst (out r)))) = false ->
        (2 * Z.to_nat (counter r) <= S fuel)%nat ->
        exists r', while_loop fuel target point more toggle r = Ok (r', true)
                   /\ Inv max r' /\ (counter r' <= counter r)%Z).
Proof.
  intros Hgeo. induction fuel as [|fuel IH]; intros toggle r Hr.
  - split.
    + intros Hf. cbn [while_loop].
      destruct (continues target point r) eqn:Ec.
      * apply continues_counter in Ec. lia.
      * exists r. split; [reflexivity|]. split; [exact Hr|lia].
    + intros Ec _ Hf. apply continues_counter in Ec. lia.
  - split.
    + intros Hf. cbn [while_loop].
      destruct (continues target point r) eqn:Ec;
        [|exists r; split; [reflexivity|]; split; [exact Hr|lia]].
      pose proof (continues_counter _ _ _ Ec) as Hc.
      destruct toggle.
      * destruct (horizontal_inv max point more r Hc Hr) as (r' & Hh & Hr' & Hcase).
        rewrite Hh. cbn [mbind result_bind Py.bind negb].
        destruct (off_axis (fst (out r)) _) eqn:Eo.
        -- destruct (IH false r' Hr') as [HA _].
           destruct HA as (r2 & Hw & Hr2 & Hc2); [lia|].
           exists r2. split; [exact Hw|]. split; [exact Hr2|lia].
        -- subst r'. destruct (IH false r Hr) as [_ HB].
           destruct (HB Ec Eo) as (r2 & Hw & Hr2 & Hc2); [lia|].
           exists r2. split; [exact Hw|]. split; [exact Hr2|lia].
      * destruct (vertical_inv max point more r Hc Hr) as (Hr' & Hcase).
        cbn [mbind result_bind Py.bind negb].
        destruct (off_axis (fst (out r)) _) eqn:Eo.
        -- destruct (IH true _ Hr') as [HA _].
           destruct HA as (r2 & Hw & Hr2 & Hc2); [lia|].
           exists r2. split; [exact Hw|]. split; [exact Hr2|lia].
        -- rewrite Hcase. destruct (IH true r Hr) as [_ HB].
           destruct (HB Ec Eo) as (r2 & Hw & Hr2 & Hc2); [lia|].
           exists r2. split; [exact Hw|]. split; [exact Hr2|lia].
    + intros Ec Eo Hf. cbn [while_loop]. rewrite Ec.
      pose proof (continues_counter _ _ _ Ec) as Hc.
      assert (Hab : above_tolerance (fst (out r)) (player_pos (fst (out r))) point
                    = true).
      { unfold continues in Ec. apply andb_true_iff in Ec as [Ec _].
        apply andb_true_iff in Ec as [_ Ec]. exact Ec. }
      apply Hgeo in Hab.
      destruct toggle.
      * rewrite Eo, orb_false_r in Hab.
        destruct (horizontal_inv max point more r Hc Hr) as (r' & Hh & Hr' & Hcase).
        rewrite Hh. cbn [mbind result_bind Py.bind negb].
        rewrite Hab in Hcase.
        destruct (IH false r' Hr') as [HA _].
        destruct HA as (r2 & Hw & Hr2 & Hc2); [lia|].
        exists r2. split; [exact Hw|]. split; [exact Hr2|lia].
      * rewrite Eo, orb_false_l in Hab.
        destruct (vertical_inv max point more r Hc Hr) as (Hr' & Hcase).
        cbn [mbind result_bind Py.bind negb].
        rewrite Hab in Hcase.
        destruct (IH true _ Hr') as [HA _].
        destruct HA as (r2 & Hw & Hr2 & Hc2); [lia|].
        exists r2. split; [exact Hw|]. split; [exact Hr2|lia].
Qed.

Lemma segments_return (max : Z) (target : Q * Q) (n : nat) (fuel : nat)
  (path : list (Q * Q)) :
  (forall (w : W) (a p : Q * Q),
     above_tolerance w a p = true ->
     off_axis w (fst p - fst a) || off_axis w (snd p - snd a) = true) ->
  forall (i : nat) (r : run),
    invariant max (snd (out r)) (counter r) ∅ ->
    (2 * Z.to_nat (counter r) <= fuel)%nat ->
    exists r', segments fuel target n i path r = Ok (r', true).
Proof.
  intros Hgeo. induction path as [|point rest IH]; intros i r Hr Hf;
    cbn [segments]; [eauto|].
  unfold segment.
  destruct (while_loop_returns max target point (i <? n - 1)%nat Hgeo fuel true
              (set_prev_direction "" r) Hr) as [HA _].
  destruct (HA Hf) as (r' & Hw & Hr' & Hc'). rewrite Hw.
  apply IH.
  - unfold Inv, holding in Hr'.
    destruct (truthy (prev_direction r')) eqn:Et; [|exact Hr'].
    cbn [set_out out counter snd call].
    apply (invariant_key_up _ _ (prev_direction r')) in Hr'.
    rewrite keys_release in Hr'. exact Hr'.
  - assert (Hcc : counter (if truthy (prev_direction r')
                           then set_out (call (KeyUp (prev_direction r')) (out r')) r'
                           else r') = counter r')
      by (destruct (truthy (prev_direction r')); reflexivity).
    rewrite Hcc. cbn [set_prev_direction counter] in Hc'. lia.
Qed.

(** [Move.main] returns, each of its loops within [2 * max_steps] rounds,
    when the comparisons agree with the geometry: a point farther than the
    tolerance is off by more than [tolerance / sqrt 2] on one axis. *)
Theorem move_main_returns (fuel : nat) (self : Move) (w : W) :
  (forall (w : W) (a p : Q * Q),
     above_tolerance w a p = true ->
     off_axis w (fst p - fst a) || off_axis w (snd p - snd a) = true) ->
  (2 * Z.to_nat (max_steps self) <= fuel)%nat ->
  exists r, Move_main fuel self w = Ok (r, true).
Proof.
  intros Hgeo Hf. unfold Move_main.
  apply (segments_return (max_steps self)); [exact Hgeo| |exact Hf].
  split; [|split].
  - cbn [out snd counter]. unfold steps. simpl. lia.
  - intros k Hin. inversion Hin.
  - reflexivity.
Qed.

End Commands.
(** In the plane of exact arithmetic the comparisons agree with the
    geometry. *)
Lemma plane_geometry (w : plane) (a p : Q * Q) :
  above_tolerance w a p = true ->
  off_axis w (fst p - fst a) || off_axis w (snd p - snd a) = true.
Proof.
  cbn [above_tolerance off_axis plane_game]. intros Hab.
  apply negb_true_iff in Hab.
  destruct (Qle_bool (2 * ((fst p - fst a) * (fst p - fst a))) _) eqn:Ex;
    [|reflexivity].
  destruct (Qle_bool (2 * ((snd p - snd a) * (snd p - snd a))) _) eqn:Ey;
    [|reflexivity].
  exfalso. apply Qle_bool_iff in Ex, Ey.
  assert (Hle : (sq_distance a p <= plane_tolerance * plane_tolerance)%Q).
  { unfold sq_distance, plane_tolerance in *.
    destruct a as [ax ay], p as [px py]. cbn [fst snd] in *.
    assert (E1 : ((ax - px) * (ax - px) == (px - ax) * (px - ax))%Q) by ring.
    assert (E2 : ((ay - py) * (ay - py) == (py - ay) * (py - ay))%Q) by ring.
    rewrite E1, E2. lra. }
  apply Qle_bool_iff in Hle. congruence.
Qed.

Lemma move_main_returns_witness :
  exists r, Move_main 30 sample_move plane_start = Ok (r, true).
Proof.
  assert (Hf : (2 * Z.to_nat (max_steps sample_move) <= 30)%nat)
    by (vm_compute; lia).
  exact (move_main_returns 30 sample_move plane_start plane_geometry Hf).
Defined.

(** The run of the sample: four steps, right and up in turn; the right key
    is released before each step up. *)
Lemma move_main_sample_run :
  exists r,
    Move_main 30 sample_move plane_start = Ok (r, true)
    /\ List.filter
         (fun e => match e with KeyDown _ | KeyUp _ => true | _ => false end)
         (snd (out r))
       = [KeyDown "right"; KeyUp "right"; KeyDown "right"; KeyUp "right"]
    /\ List.map (fun e => match e with Step d _ => d | _ => "" end)
         (List.filter is_step (snd (out r)))
       = ["right"; "up"; "right"; "up"]
    /\ counter r = 11%Z.
Proof. vm_compute. eexists. split; [reflexivity|]. repeat split. Qed.

End KeysFacts.
(** ** Coordinates *)

Module UtilsFacts.
Import Float Utils FloatFacts RotationFacts.

Lemma pow2_emax_above_2_53 : (inject_Z (2 ^ 53) + 1 < pow2 emax)%Q.
Proof. vm_compute. reflexivity. Qed.

Lemma inject_Z_bounds (n lo hi : Z) :
  (lo <= n <= hi)%Z -> (inject_Z lo <= inject_Z n <= inject_Z hi)%Q.
Proof. intros [H1 H2]. rewrite <- !Zle_Qle. split; assumption. Qed.

(** An integer of at most 53 bits is converted to itself. *)
Lemma int_to_float_exact (n : Z) :
  (0 <= n <= 2 ^ 53)%Z ->
  exists f, int_to_float n = Ok f /\ (f == inject_Z n)%Q /\ (fl f == f)%Q.
Proof.
  intros Hn. pose proof (fl_integer n Hn) as He.
  destruct (inject_Z_bounds n 0 (2 ^ 53) Hn) as [B0 B1].
  change (inject_Z 0) with 0%Q in B0.
  pose proof pow2_emax_above_2_53 as Hmax.
  unfold int_to_float.
  rewrite (round_finite (inject_Z n) (inject_Z (2 ^ 53))) by lra.
  eexists. split; [reflexivity|]. split; [exact He|apply fl_idempotent].
Qed.

(** A share of a frame of at most [2 ^ 53] pixels is a pixel position
    between 0 and the size of the frame. *)
Lemma scale_in_frame (p : Q) (n : Z) :
  (0 <= p <= 1)%Q -> (0 <= n <= 2 ^ 53)%Z ->
  exists x, scale p n = Ok x /\ (0 <= x <= n)%Z.
Proof.
  intros [Hp0 Hp1] Hn.
  destruct (int_to_float_exact n Hn) as (f & Hf & Efn & Eff).
  destruct (inject_Z_bounds n 0 (2 ^ 53) Hn) as [B0 B1].
  change (inject_Z 0) with 0%Q in B0.
  pose proof pow2_emax_above_2_53 as Hmax.
  unfold scale. rewrite Hf. cbn [mbind result_bind Py.bind]. unfold fmul.
  assert (Hle : (fl (p * f) <= inject_Z n)%Q).
  { apply Qle_trans with (fl f); [|rewrite Eff, Efn; apply Qle_refl].
    apply fl_monotone_nonneg; nra. }
  rewrite (round_finite (p * f) (inject_Z (2 ^ 53))) by nra.
  eexists. split; [reflexivity|]. unfold py_round. split.
  - apply nearest_even_nonneg, fl_nonneg. nra.
  - apply Z.le_trans with (nearest_even (inject_Z n));
      [apply nearest_even_le, Hle|].
    rewrite (nearest_even_integral (inject_Z n) n) by reflexivity. lia.
Qed.

(** For relative coordinates between 0 and 1 and a frame of at most
    [2 ^ 53] pixels each way, [convert_to_absolute] returns a pixel
    position between 0 and the size of the frame, both ends included:
    1 gives the width itself, one past the last column. *)
Theorem convert_to_absolute_in_frame (p : Q * Q) (width height : Z) :
  (0 <= width <= 2 ^ 53)%Z -> (0 <= height <= 2 ^ 53)%Z ->
  (0 <= fst p <= 1)%Q -> (0 <= snd p <= 1)%Q ->
  exists x y,
    convert_to_absolute p width height = Ok (x, y)
    /\ (0 <= x <= width)%Z /\ (0 <= y <= height)%Z.
Proof.
  intros Hw Hh Hx Hy.
  destruct (scale_in_frame (fst p) width Hx Hw) as (x & Ex & Bx).
  destruct (scale_in_frame (snd p) height Hy Hh) as (y & Ey & By).
  exists x, y. unfold convert_to_absolute. rewrite Ex, Ey.
  split; [reflexivity|]. split; assumption.
Qed.

Lemma convert_to_absolute_in_frame_witness :
  exists x y,
    convert_to_absolute (1, lit (3 # 10))%Q 200 5 = Ok (x, y)
    /\ (0 <= x <= 200)%Z /\ (0 <= y <= 5)%Z.
Proof.
  assert (Hw : (0 <= 200 <= 2 ^ 53)%Z) by (vm_compute; split; congruence).
  assert (Hh : (0 <= 5 <= 2 ^ 53)%Z) by (vm_compute; split; congruence).
  assert (Hx : (0 <= fst (1, lit (3 # 10))%Q <= 1)%Q)
    by (vm_compute; split; congruence).
  assert (Hy : (0 <= snd (1, lit (3 # 10))%Q <= 1)%Q)
    by (vm_compute; split; congruence).
  exact (convert_to_absolute_in_frame (1, lit (3 # 10))%Q 200 5 Hw Hh Hx Hy).
Defined.

(** The product is rounded before [round] sees it: the float 0.3 of a
    frame 5 wide is 1.5 after the multiplication, so column 2; and ties go
    to the even pixel. *)
Lemma convert_to_absolute_rounds_twice :
  convert_to_absolute (lit (3 # 10), 1 # 2)%Q 5 95 = Ok (2, 48)%Z
  /\ convert_to_absolute (1, 1 # 2)%Q 200 97 = Ok (200, 48)%Z.
Proof. vm_compute. split; reflexivity. Qed.

(** Dividing a pixel position below [2 ^ 50] by a frame size and
    multiplying back gives the position: the two rounding errors together
    stay below half a pixel. *)
Lemma divide_then_scale (x n : Z) :
  (0 <= x <= 2 ^ 50)%Z -> (0 < n <= 2 ^ 53)%Z ->
  exists r, int_true_divide x n = Ok r /\ scale r n = Ok x.
Proof.
  intros Hx Hn.
  assert (Hn' : (0 <= n <= 2 ^ 53)%Z) by lia.
  destruct (int_to_float_exact n Hn') as (f & Hf & Efn & Eff).
  destruct (inject_Z_bounds x 0 (2 ^ 50) Hx) as [X0 X1].
  destruct (inject_Z_bounds n 1 (2 ^ 53)) as [N0 N1]; [lia|].
  change (inject_Z 0) with 0%Q in X0. change (inject_Z 1) with 1%Q in N0.
  change (inject_Z (2 ^ 50)) with 1125899906842624%Q in X1.
  change (inject_Z (2 ^ 53)) with 9007199254740992%Q in N1.
  assert (Hmax : (1125899906842624 + 1 < pow2 emax)%Q) by (vm_compute; reflexivity).
  assert (Hc : (pow2 (-53) == 1 # 9007199254740992)%Q) by apply pow2_m53.
  set (X := inject_Z x) in *. set (N := inject_Z n) in *.
  set (q := (X / N)%Q).
  assert (HqN : (q * N == X)%Q) by (unfold q; field; lra).
  assert (Hq0 : (0 <= q)%Q) by (unfold q; apply Qle_shift_div_l; lra).
  assert (HqX : (q <= X)%Q) by (unfold q; apply Qle_shift_div_r; nra).
  unfold int_true_divide.
  assert (En : (n =? 0)%Z = false) by (apply Z.eqb_neq; lia).
  rewrite En. fold X N q.
  assert (Hflq : (fl q <= X)%Q).
  { apply Qle_trans with (fl X); [apply fl_monotone_nonneg; assumption|].
    unfold X. rewrite fl_integer by lia. apply Qle_refl. }
  rewrite (round_finite q 1125899906842624) by lra.
  exists (fl q). split; [reflexivity|].
  unfold scale. rewrite Hf. cbn [mbind result_bind Py.bind]. unfold fmul.
  set (z := (fl q * f)%Q).
  assert (Hz0 : (0 <= z)%Q).
  { unfold z. apply Qmult_le_0_compat; [apply fl_nonneg; exact Hq0|lra]. }
  destruct (Z.eq_dec x 0%Z) as [Ex0|Ex0].
  - (* the origin *)
    assert (Eq0 : (q == 0)%Q) by (unfold q, X; rewrite Ex0; reflexivity).
    assert (Ez : (z == 0)%Q).
    { unfold z. rewrite (fl_zero q Eq0). ring. }
    assert (Efz : (fl z == 0)%Q) by (rewrite (fl_zero z Ez); reflexivity).
    rewrite (round_finite z 0) by lra.
    unfold py_round. rewrite (nearest_even_integral (fl z) 0%Z) by exact Efz.
    rewrite Ex0. reflexivity.
  - assert (X1' : (1 <= X)%Q).
    { change 1%Q with (inject_Z 1). unfold X. rewrite <- Zle_Qle. lia. }
    assert (Hsmall : (pow2 (emin + 52) <= pow2 (-53))%Q) by (apply pow2_le; unfold emin; lia).
    assert (Hq1 : (pow2 (-53) <= q)%Q).
    { rewrite Hc. unfold q. apply Qle_shift_div_l; [lra|]. lra. }
    pose proof (fl_accurate q) as A1.
    apply Qabs_bound in A1; [|lra]. destruct A1 as [A1 A1'].
    set (e1 := (fl q - q)%Q) in *. rewrite Hc in A1, A1'.
    assert (Ezv : (z == X + e1 * N)%Q).
    { unfold z, e1. rewrite Efn, <- HqN. ring. }
    assert (B1 : (e1 * N <= X * (1 # 9007199254740992))%Q).
    { apply Qle_trans with (q * (1 # 9007199254740992) * N)%Q;
        [apply Qmult_le_compat_r; lra|].
      rewrite <- HqN. apply Qle_lteq. right. ring. }
    assert (B2 : (- (X * (1 # 9007199254740992)) <= e1 * N)%Q).
    { apply Qle_trans with (- (q * (1 # 9007199254740992)) * N)%Q;
        [|apply Qmult_le_compat_r; lra].
      rewrite <- HqN. apply Qle_lteq. right. ring. }
    set (A := (e1 * N)%Q) in *.
    assert (Hzbig : (pow2 (emin + 52) <= z)%Q).
    { assert (pow2 (-53) <= z)%Q by (rewrite Hc; lra). lra. }
    pose proof (fl_accurate z Hzbig) as A2.
    apply Qabs_bound in A2. destruct A2 as [A2 A2']. rewrite Hc in A2, A2'.
    rewrite (round_finite z (1125899906842624 + 1)) by lra.
    unfold py_round. rewrite (nearest_even_near (fl z) x); [reflexivity|].
    fold X. apply Qabs_case; intros; lra.
Qed.

(** A pixel position below [2 ^ 50] converted by [convert_to_relative] and
    back by [convert_to_absolute], over the same frame of at most [2 ^ 53]
    pixels each way, is the position it was. *)
Theorem convert_round_trip (x y width height : Z) :
  (0 <= x <= 2 ^ 50)%Z -> (0 <= y <= 2 ^ 50)%Z ->
  (0 < width <= 2 ^ 53)%Z -> (0 < height <= 2 ^ 53)%Z ->
  exists r,
    convert_to_relative (x, y) width height = Ok r
    /\ convert_to_absolute r width height = Ok (x, y).
Proof.
  intros Hx Hy Hw Hh.
  destruct (divide_then_scale x width Hx Hw) as (rx & Dx & Sx).
  destruct (divide_then_scale y height Hy Hh) as (ry & Dy & Sy).
  exists (rx, ry). unfold convert_to_relative, convert_to_absolute.
  cbn [fst snd]. rewrite Dx, Dy. split; [reflexivity|].
  cbn [fst snd mbind result_bind Py.bind]. rewrite Sx, Sy. reflexivity.
Qed.

Lemma convert_round_trip_witness :
  exists r,
    convert_to_relative (123, 45)%Z 200 95 = Ok r
    /\ convert_to_absolute r 200 95 = Ok (123, 45)%Z.
Proof.
  assert (Hx : (0 <= 123 <= 2 ^ 50)%Z) by (vm_compute; split; congruence).
  assert (Hy : (0 <= 45 <= 2 ^ 50)%Z) by (vm_compute; split; congruence).
  assert (Hw : (0 < 200 <= 2 ^ 53)%Z) by (vm_compute; split; congruence).
  assert (Hh : (0 < 95 <= 2 ^ 53)%Z) by (vm_compute; split; congruence).
  exact (convert_round_trip 123 45 200 95 Hx Hy Hw Hh).
Defined.

(** An empty frame makes the division raise. *)
Lemma convert_to_relative_empty_frame (point : Z * Z) (height : Z) :
  convert_to_relative point 0 height = Raise ZeroDivisionError.
Proof. reflexivity. Qed.

(** Above [2 ^ 53] the position is not kept: the quotient is rounded. *)
Lemma convert_loses_large_positions :
  exists r,
    convert_to_relative (2 ^ 53 + 1, 0)%Z 1 1 = Ok r
    /\ convert_to_absolute r 1 1 = Ok (2 ^ 53, 0)%Z.
Proof. eexists. split; [vm_compute; reflexivity|]. vm_compute. reflexivity. Qed.

End UtilsFacts.
